(** * ocrodjvu: page scheduler, djvused script assembly, BMP output and
      page-range parsing

    A shallow embedding of [lib/utils.py], [lib/image_io.py] and the
    [Context] class of [lib/_ocrodjvu.py], with the properties of the
    design document stated over it.

    - [Utils]     : [parse_page_numbers].
    - [PageSource]: the page selection of [Context._process].
    - [SedScript] : the file-identifier escaping of the [select] directive.
    - [ImageIO]   : [BMP.write_image] and the [bmp] branch of
                    [Context.get_output_image].
    - [Scheduler] : [Context.page_thread], [Context._process],
                    [Context.process], [Context.close] and [main] as an
                    interleaving transition system over the shared
                    [results] dictionary and the [condition] monitor.
    - [SchedulerEnds]: the vocabulary of where the runs of the scheduler
                    end.
    - [CommandLine]: [ArgumentParser.set_output] and
                    [ArgumentParser.parse_args].
    - [TempFiles] : [Context._temp_file], [Context.get_output_image] as a
                    context manager and [Context.process_page], over the
                    files of the temporary directory. *)

From Stdlib Require Import ZArith Ascii String List Lia Bool Sorted.
From Stdlib Require Import Uint63 PrimFloat FloatOps SpecFloat.
From stdpp Require Import gmap strings list sorting pretty.
Import ListNotations.

Local Open Scope Z_scope.

(** ** Python exceptions and fallible results *)

Inductive exn : Type :=
| ValueError
| OverflowError
| StructError
| KeyError
| AssertionError
| NotImplementedError
| IndexError
| SystemExit (code : Z)
| CalledProcessError (status : Z)
| CalledProcessInterrupted (signal : string)
| IOError.

Inductive py (A : Type) : Type :=
| Return (a : A)
| Raise (e : exn).
Arguments Return {A} a.
Arguments Raise {A} e.

Definition bind {A B : Type} (r : py A) (k : A -> py B) : py B :=
  match r with
  | Return a => k a
  | Raise e => Raise e
  end.

Notation "'let!' x ':=' r 'in' k" := (bind r (fun x => k))
  (at level 10, x name, r at level 100, k at level 200).

Fixpoint mapM {A B : Type} (f : A -> py B) (l : list A) : py (list B) :=
  match l with
  | [] => Return []
  | a :: l' => let! b := f a in let! bs := mapM f l' in Return (b :: bs)
  end.

(** ** lib/utils.py *)

Module Utils.

(** [s.split(sep)] for a one-character separator: the pieces between the
    separators, in order; never the empty list. *)
Fixpoint split (sep : ascii) (s : string) : list string :=
  match s with
  | EmptyString => [EmptyString]
  | String c s' =>
      if Ascii.eqb c sep then EmptyString :: split sep s'
      else match split sep s' with
           | piece :: pieces => String c piece :: pieces
           | [] => [String c EmptyString]
           end
  end.

(** [s.split(sep, maxsplit)]: at most [maxsplit] cuts, from the left. *)
Fixpoint split_max (sep : ascii) (maxsplit : nat) (s : string) : list string :=
  match maxsplit with
  | O => [s]
  | S m =>
      match s with
      | EmptyString => [EmptyString]
      | String c s' =>
          if Ascii.eqb c sep then EmptyString :: split_max sep m s'
          else match split_max sep (S m) s' with
               | piece :: pieces => String c piece :: pieces
               | [] => [String c EmptyString]
               end
      end
  end.

(** [sep in s] *)
Fixpoint contains (sep : ascii) (s : string) : bool :=
  match s with
  | EmptyString => false
  | String c s' => Ascii.eqb c sep || contains sep s'
  end.

(** C [isspace] in the C locale: space, \t, \n, \v, \f, \r. *)
Definition isspace (c : ascii) : bool :=
  let n := nat_of_ascii c in
  (Nat.eqb n 32 || (Nat.leb 9 n && Nat.leb n 13))%bool.

Definition digit_value (c : ascii) : option Z :=
  let n := nat_of_ascii c in
  if (Nat.leb 48 n && Nat.leb n 57)%bool then Some (Z.of_nat n - 48) else None.

Fixpoint lstrip (s : string) : string :=
  match s with
  | String c s' => if isspace c then lstrip s' else s
  | EmptyString => EmptyString
  end.

(** The digits of a decimal literal, most significant first, followed by
    optional trailing white space and nothing else.  [seen] tells whether a
    digit has been read, [acc] is the value so far. *)
Fixpoint digits (seen : bool) (acc : Z) (s : string) : py Z :=
  match s with
  | EmptyString => if seen then Return acc else Raise ValueError
  | String c s' =>
      match digit_value c with
      | Some d => digits true (10 * acc + d) s'
      | None =>
          if (seen && isspace c)%bool then
            match lstrip s' with
            | EmptyString => Return acc
            | _ => Raise ValueError
            end
          else Raise ValueError
      end
  end.

(** The builtin [int(s)] / [int(s, 10)] of Python 2 on a byte string:
    white space, an optional sign, white space again (accepted by
    Python 2), at least one decimal digit, white space.  Anything else is
    a [ValueError].  The value is unbounded ([int] falls back to [long]). *)
Definition int (s : string) : py Z :=
  match lstrip s with
  | String "+" s' => digits false 0 (lstrip s')
  | String "-" s' => let! v := digits false 0 (lstrip s') in Return (- v)
  | s' => digits false 0 s'
  end.

(** [xrange] takes C longs (LP64) and refuses more than [LONG_MAX] items. *)
Definition LONG_MAX : Z := 9223372036854775807.
Definition fits_long (x : Z) : bool := (- LONG_MAX - 1 <=? x) && (x <=? LONG_MAX).

(** [list(xrange(start, stop))] *)
Definition xrange (start stop : Z) : py (list Z) :=
  if fits_long start && fits_long stop && (stop - start <=? LONG_MAX) then
    Return (map (fun i => start + Z.of_nat i) (seq 0 (Z.to_nat (stop - start))))
  else Raise OverflowError.

(** The body of the [for] loop: what one comma-separated item adds to
    [result]. *)
Definition expand_item (page_range : string) : py (list Z) :=
  if contains "-" page_range then
    let! xy := mapM int (split_max "-" 1 page_range) in
    match xy with
    | [x; y] => xrange x (y + 1)
    | _ => Raise ValueError
    end
  else
    let! x := int page_range in Return [x].

(** [for page_range in ...: result += ...] *)
Fixpoint parse_loop (items : list string) (result : list Z) : py (list Z) :=
  match items with
  | [] => Return result
  | page_range :: items' =>
      let! l := expand_item page_range in parse_loop items' (result ++ l)
  end.

(** [parse_page_numbers(pages)]; [None] stands for Python's [None], both as
    argument and as returned value. *)
Definition parse_page_numbers (pages : option string) : py (option (list Z)) :=
  match pages with
  | None => Return None
  | Some pages =>
      let! l := parse_loop (split "," pages) [] in Return (Some l)
  end.

(** Segments of a list of lists are ascending and disjoint: every element of
    an earlier segment is below every element of a later one. *)
Definition segments_ascending (ls : list (list Z)) : Prop :=
  forall (i j : nat) (li lj : list Z) (a b : Z),
    (i < j)%nat -> ls !! i = Some li -> ls !! j = Some lj ->
    a ∈ li -> b ∈ lj -> a < b.

End Utils.

(** ** The Page Source: the page selection at the start of
       [Context._process] (lib/_ocrodjvu.py) *)

Module PageSource.

(** [pages = list(document.pages)] when [pages is None], else
    [[document.pages[i - 1] for i in pages]]; as the 0-based page numbers
    [page.n].  An index outside the document is an [IndexError]. *)
Definition select_pages (n_document_pages : nat) (pages : option (list Z))
    : py (list nat) :=
  match pages with
  | None => Return (seq 0 n_document_pages)
  | Some l =>
      mapM (fun i : Z =>
              if (1 <=? i) && (i <=? Z.of_nat n_document_pages)
              then Return (Z.to_nat (i - 1)) else Raise IndexError) l
  end.

End PageSource.

(** ** The [select] directive of the djvused script
    ([Context._process], lib/_ocrodjvu.py) *)

Module SedScript.

Local Open Scope string_scope.

Definition backslash : ascii := "\"%char.
Definition quote : ascii := "'"%char.
Definition newline : string := String (ascii_of_nat 10) EmptyString.

(** [s.replace(old, new)] for a one-character [old]: every occurrence, left
    to right. *)
Fixpoint replace (old : ascii) (new : string) (s : string) : string :=
  match s with
  | EmptyString => EmptyString
  | String c s' =>
      if Ascii.eqb c old then new ++ replace old new s'
      else String c (replace old new s')
  end.

(** [file_id.replace('\\', '\\\\').replace("'", "\\'")] *)
Definition escape_file_id (file_id : string) : string :=
  replace quote "\'" (replace backslash "\\" file_id).

(** [sed_file.write('select \'%s\'\n' % ...)] *)
Definition select_directive (file_id : string) : string :=
  "select '" ++ escape_file_id file_id ++ "'" ++ newline.

(** What the two replacements do to one character. *)
Definition escape_char (c : ascii) : string :=
  if Ascii.eqb c backslash then "\\"
  else if Ascii.eqb c quote then "\'"
  else String c EmptyString.

Fixpoint concat_map (f : ascii -> string) (s : string) : string :=
  match s with
  | EmptyString => EmptyString
  | String c s' => f c ++ concat_map f s'
  end.

(** The reader of a single-quoted djvused string, standing for the parser
    of the script grammar: after the opening quote, a backslash makes the
    next character literal and a bare quote ends the string.  Returns the
    string read and what follows the closing quote. *)
Fixpoint read_quoted (s : string) : option (string * string) :=
  match s with
  | EmptyString => None
  | String c s' =>
      if Ascii.eqb c quote then Some (EmptyString, s')
      else if Ascii.eqb c backslash then
        match s' with
        | EmptyString => None
        | String c' s'' =>
            match read_quoted s'' with
            | Some (x, rest) => Some (String c' x, rest)
            | None => None
            end
        end
      else
        match read_quoted s' with
        | Some (x, rest) => Some (String c x, rest)
        | None => None
        end
  end.

(** Reading a [select] line back: the identifier it selects. *)
Definition parse_select (line : string) : option string :=
  match line with
  | String "s" (String "e" (String "l" (String "e" (String "c" (String "t"
      (String " " (String "'" body))))))) =>
      match read_quoted body with
      | Some (file_id, rest) => if String.eqb rest newline then Some file_id else None
      | None => None
      end
  | _ => None
  end.

End SedScript.

(** ** lib/image_io.py and [Context.get_output_image] *)

Module ImageIO.

Import Byte.

(** *** Bytes and [struct.pack] with the '<' (little-endian, packed) layout *)

Definition byte_of_Z (z : Z) : byte :=
  match Byte.of_N (Z.to_N (z mod 256)) with
  | Some b => b
  | None => x00
  end.

Definition Z_of_byte (b : byte) : Z := Z.of_N (Byte.to_N b).

(** The [width] low-order bytes of [v], least significant first. *)
Fixpoint le_bytes (width : nat) (v : Z) : list byte :=
  match width with
  | O => []
  | S w => byte_of_Z v :: le_bytes w (v / 256)
  end.

(** Formats [B], [H] and [I]: an unsigned integer of [width] bytes;
    [struct.error] when the value does not fit (Python 2.7; earlier
    versions mask the value and warn). *)
Definition pack_uint (width : nat) (v : Z) : py (list byte) :=
  if (0 <=? v) && (v <? 2 ^ (8 * Z.of_nat width)) then Return (le_bytes width v)
  else Raise StructError.

(** Format [c]: one character. *)
Definition pack_char (c : ascii) : py (list byte) := Return [byte_of_ascii c].

Inductive field : Type :=
| fc (c : ascii)    (* c *)
| fB (v : Z)        (* B *)
| fH (v : Z)        (* H *)
| fI (v : Z).       (* I *)

Definition pack_field (f : field) : py (list byte) :=
  match f with
  | fc c => pack_char c
  | fB v => pack_uint 1 v
  | fH v => pack_uint 2 v
  | fI v => pack_uint 4 v
  end.

(** [struct.pack('<...', ...)] *)
Definition pack (fields : list field) : py (list byte) :=
  let! chunks := mapM pack_field fields in Return (concat chunks).

Definition bytes_of_string (s : string) : list byte :=
  map byte_of_ascii (list_ascii_of_string s).

(** *** The decoding collaborator (python-djvulibre) *)

Inductive render_mode : Type :=
| RENDER_MASK_ONLY
| RENDER_FOREGROUND
| RENDER_COLOR.

Record pixel_format : Type := {
  bpp : Z;
  rows_top_to_bottom : bool;
  y_top_to_bottom : bool
}.

(** [PixelFormatPackedBits('>')] and [PixelFormatRgb()] as set up by
    [ImageFormat.__init__] and at the top of lib/_ocrodjvu.py. *)
Definition bitonal_pixel_format : pixel_format :=
  {| bpp := 1; rows_top_to_bottom := true; y_top_to_bottom := true |}.
Definition rgb_pixel_format : pixel_format :=
  {| bpp := 24; rows_top_to_bottom := true; y_top_to_bottom := true |}.

Definition rect : Type := (Z * Z * Z * Z)%type.

(** The width and the height of a rectangle [(x, y, w, h)]. *)
Definition rect_width (r : rect) : Z := snd (fst r).
Definition rect_height (r : rect) : Z := snd r.

(** A decoded page: its size in pixels, its resolution, and its
    renderer, which takes the layers, the page and render rectangles, the
    pixel format and the optional row alignment. *)
Record page_job : Type := {
  size : Z * Z;
  dpi : Z;
  render : render_mode -> rect -> rect -> pixel_format -> option Z -> list byte
}.

(** The length of a rendered buffer: [height] rows of [bpp]-bit pixels,
    each row padded to a multiple of [alignment] bytes. *)
Definition round_up (alignment n : Z) : Z :=
  (n + alignment - 1) / alignment * alignment.
Definition row_size (fmt : pixel_format) (width alignment : Z) : Z :=
  round_up alignment ((width * bpp fmt + 7) / 8).

(** The renderer sizes its buffer by the render rectangle it is given and
    honours the row alignment it is asked for: one row per line of the
    rectangle, for the pixel formats the library has (one bit per pixel,
    or whole bytes).  Nothing is asked of it on an empty rectangle. *)
Definition render_aligned (job : page_job) : Prop :=
  forall layers page_rect render_rect fmt alignment,
    0 < alignment ->
    bpp fmt = 1 \/ (0 < bpp fmt /\ bpp fmt mod 8 = 0) ->
    0 < rect_width render_rect -> 0 < rect_height render_rect ->
    Z.of_nat (length (render job layers page_rect render_rect fmt
                        (Some alignment)))
    = rect_height render_rect
      * row_size fmt (rect_width render_rect) alignment.

(** A blank page of the given size and resolution, for examples: its
    renderer gives zeroes, as many as the render rectangle asks for. *)
Definition blank_job (w h d : Z) : page_job :=
  {| size := (w, h);
     dpi := d;
     render := fun _ _ render_rect fmt alignment =>
       repeat x00
         (Z.to_nat (rect_height render_rect
                    * row_size fmt (rect_width render_rect)
                        (default 1 alignment))) |}.

(** *** Floating point: [int(page_job.dpi * 39.37 + 0.5)] *)

(** The double nearest to 39.37. *)
Definition inches_per_meter : float := 0x1.3af5c28f5c28fp+5%float.

(** An [int] as a [float] (exact below 2^53). *)
Definition float_of_int (z : Z) : float :=
  if z <? 0 then PrimFloat.opp (PrimFloat.of_uint63 (Uint63.of_Z (- z)))
  else PrimFloat.of_uint63 (Uint63.of_Z z).

(** [int(x)] on a finite float: truncation toward zero. *)
Definition int_of_float (x : float) : Z :=
  match Prim2SF x with
  | S754_finite s m e =>
      let v := if 0 <=? e then Z.pos m * 2 ^ e else Z.pos m / 2 ^ (- e) in
      if s then - v else v
  | _ => 0
  end.

Definition dpm_of_dpi (dpi : Z) : Z :=
  int_of_float (PrimFloat.add (PrimFloat.mul (float_of_int dpi) inches_per_meter)
                              0.5%float).

(** [round(x)] on a finite float, as an integer: the nearest integer of
    the exact value of [x], halves away from zero. *)
Definition round_float (x : float) : Z :=
  match Prim2SF x with
  | S754_finite s m e =>
      let v := if 0 <=? e then Z.pos m * 2 ^ e
               else (2 * Z.pos m + 2 ^ (- e)) / 2 ^ (- e + 1) in
      if s then - v else v
  | _ => 0
  end.

(** *** [ImageFormat.__init__] and [BMP.__init__] *)

Definition ImageFormat_init (bpp : Z) : py pixel_format :=
  if bpp =? 1 then Return bitonal_pixel_format
  else if bpp =? 24 then Return rgb_pixel_format
  else Raise NotImplementedError.

Definition BMP_init (bpp : Z) : py pixel_format :=
  let! fmt := ImageFormat_init bpp in
  Return {| bpp := ImageIO.bpp fmt; rows_top_to_bottom := false;
            y_top_to_bottom := y_top_to_bottom fmt |}.

(** *** [BMP.write_image]: the bytes written to [file] *)

Definition write_image (fmt : pixel_format) (job : page_job)
    (render_layers : render_mode) : py (list byte) :=
  let size := size job in
  let rect := (0, 0, fst size, snd size) in
  let dpm := dpm_of_dpi (dpi job) in
  let data := render job render_layers rect rect fmt (Some 4) in
  let n_palette_colors := 2 * (if bpp fmt =? 1 then 1 else 0) in
  let headers_size := 54 + 4 * n_palette_colors in
  let len_data := Z.of_nat (length data) in
  let! h1 := pack [fc "B"; fc "M";               (* magic *)
                   fI (len_data + headers_size); (* whole file size *)
                   fH 0; fH 0;                   (* identification magic *)
                   fI headers_size] in           (* offset to pixel data *)
  let! h2 := pack [fI 40;                        (* size of this header *)
                   fI (fst size); fI (snd size); (* image size in pixels *)
                   fH 1;                         (* number of color planes *)
                   fH (bpp fmt);                 (* number of bits per pixel *)
                   fI 0;                         (* compression method *)
                   fI len_data;                  (* size of pixel data *)
                   fI dpm; fI dpm;               (* resolution in pixels/meter *)
                   fI n_palette_colors;          (* colors in the palette *)
                   fI n_palette_colors] in       (* important colors *)
  let! palette :=
    if bpp fmt =? 1 then
      let! p1 := pack [fB 255; fB 255; fB 255; fB 0] in
      let! p2 := pack [fB 0; fB 0; fB 0; fB 0] in
      Return (p1 ++ p2)
    else Return [] in
  Return (h1 ++ h2 ++ palette ++ data).

(** *** [PNM.write_image] *)

Definition PNM_write_image (fmt : pixel_format) (job : page_job)
    (render_layers : render_mode) : py (list byte) :=
  let size := size job in
  let rect := (0, 0, fst size, snd size) in
  let header :=
    if bpp fmt =? 1 then
      ("P4 " +:+ pretty (fst size) +:+ " " +:+ pretty (snd size)
         +:+ SedScript.newline)%string
    else
      ("P6 " +:+ pretty (fst size) +:+ " " +:+ pretty (snd size) +:+ " 255"
         +:+ SedScript.newline)%string in
  let data := render job render_layers rect rect fmt None in
  Return (bytes_of_string header ++ data).

(** *** [Context.init] (choice of the pixel format) and
        [Context.get_output_image] (the bytes of the temporary file) *)

Definition Context_pixel_format (render_layers : render_mode)
    (image_format : string) : pixel_format :=
  let fmt := match render_layers with
             | RENDER_MASK_ONLY => bitonal_pixel_format
             | _ => rgb_pixel_format
             end in
  if String.eqb image_format "bmp"
  then {| bpp := bpp fmt; rows_top_to_bottom := false;
          y_top_to_bottom := y_top_to_bottom fmt |}
  else fmt.

Definition get_output_image (output_format : string) (fmt : pixel_format)
    (render_layers : render_mode) (job : page_job) : py (list byte) :=
  if String.eqb output_format "ppm" then PNM_write_image fmt job render_layers
  else if String.eqb output_format "bmp" then
    let size := size job in
    let rect := (0, 0, fst size, snd size) in
    let dpm := dpm_of_dpi (dpi job) in
    let data := render job render_layers rect rect fmt (Some 4) in
    let n_palette_colors := 2 * (if bpp fmt =? 1 then 1 else 0) in
    let headers_size := 54 + 4 * n_palette_colors in
    let len_data := Z.of_nat (length data) in
    let! h1 := pack [fc "B"; fc "M"; fI (len_data + headers_size);
                     fH 0; fH 0; fI headers_size] in
    let! h2 := pack [fI 40; fI (fst size); fI (snd size); fH 1; fH (bpp fmt);
                     fI 0; fI len_data; fI dpm; fI dpm;
                     fI n_palette_colors; fI n_palette_colors] in
    let! palette :=
      if bpp fmt =? 1 then
        let! p1 := pack [fB 255; fB 255; fB 255; fB 0] in
        let! p2 := pack [fB 0; fB 0; fB 0; fB 0] in
        Return (p1 ++ p2)
      else Return [] in
    Return (h1 ++ h2 ++ palette ++ data)
  else Raise NotImplementedError.

(** *** Reading a file back *)

Fixpoint le_decode (bs : list byte) : Z :=
  match bs with
  | [] => 0
  | b :: bs' => Z_of_byte b + 256 * le_decode bs'
  end.

(** The unsigned little-endian integer of [width] bytes at offset [off]. *)
Definition uint_at (width off : nat) (file : list byte) : Z :=
  le_decode (take width (drop off file)).

(** [dpm_of_dpi] against [round] on every resolution a DjVu page can
    have (25 to 6000 dpi; checked from 0). *)
Definition dpm_ok (d : Z) : bool :=
  (dpm_of_dpi d =? round_float (PrimFloat.mul (float_of_int d) inches_per_meter))
  && (0 <=? dpm_of_dpi d) && (dpm_of_dpi d <? 2 ^ 32).

End ImageIO.

(** ** The page scheduler: [Context.page_thread], [Context._process],
       [Context.process], [Context.close], [main] (lib/_ocrodjvu.py) *)

Module Scheduler.

Local Open Scope nat_scope.

(** What the model takes for granted of the main thread: the writes to
    [sed_file] and [result.print_into(sed_file)] succeed, and so does
    [page.file.id.encode(system_encoding)], whose value is [file_id]; the
    only exceptions of the main thread are the [KeyError] of a missing
    key, [sys.exit(1)] and what [saver.save] raises.  Of a worker:
    [Failed ex] stands for an exception that [except Exception] catches;
    [SystemExit] and [KeyboardInterrupt], which it does not catch, are
    not outcomes of [process_page] here. *)

(** [page.n], the 0-based page number: the key of [results]. *)
Definition page_id : Type := nat.

(** What [process_page(page)] does: return the recognized text, raise
    [djvu.decode.NotAvailable], or raise something else. *)
Inductive outcome : Type :=
| Text (t : string)
| NotAvailable
| Failed (ex : exn).

(** A value of the [results] dictionary: [None], [True], [False], a text, or
    an exception. *)
Inductive entry : Type :=
| Unclaimed
| Claimed
| NoImage
| Success (t : string)
| Failure (ex : exn).

(** The local [result] of [page_thread] after the [try] statement: a text
    or [False]. *)
Inductive page_result : Type :=
| RText (t : string)
| RFalse.

Definition entry_of (r : page_result) : entry :=
  match r with
  | RText t => Success t
  | RFalse => NoImage
  end.

(** The options and collaborators of one run.  [pages] holds [page.n] for
    the pages selected in [_process]; [save] is the exception
    [saver.save] raises, if any. *)
Record options : Type := {
  pages : list page_id;
  n_jobs : nat;
  clear_text : bool;
  opt_debug : bool;
  process_page : page_id -> outcome;
  file_id : page_id -> string;
  save : option exn
}.

(** One [sed_file.write]. *)
Inductive sed_write : Type :=
| SRemoveTxt               (* 'remove-txt\n' *)
| SSelect (n : page_id)    (* 'select \'%s\'\n' % escaped file id *)
| SSetTxt                  (* 'set-txt\n' *)
| SText (t : string)       (* result.print_into(sed_file) *)
| SEnd.                    (* '\n.\n\n' *)

Definition render_write (o : options) (w : sed_write) : string :=
  match w with
  | SRemoveTxt => "remove-txt" +:+ SedScript.newline
  | SSelect n => SedScript.select_directive (file_id o n)
  | SSetTxt => "set-txt" +:+ SedScript.newline
  | SText t => t
  | SEnd => SedScript.newline +:+ "." +:+ SedScript.newline +:+ SedScript.newline
  end.

(** The contents of the djvused script. *)
Definition sed_contents (o : options) (ws : list sed_write) : string :=
  fold_right (fun w acc => render_write o w +:+ acc) EmptyString ws.

(** Where a worker thread is in [page_thread]. *)
Inductive wpc : Type :=
| WLoop (rest : list page_id)
    (* at [for page in pages], [rest] still to iterate *)
| WProcess (n : page_id) (rest : list page_id)
    (* [results[n] = True] done, lock released, in [process_page] *)
| WStore (n : page_id) (r : page_result) (rest : list page_id)
    (* [result] computed, before the final [with condition:] *)
| WRaise (n : page_id) (ex : exn)
    (* [results[n] = ex] done, before [with condition: condition.notify()] *)
| WDone
    (* the loop is over, the thread has ended *)
| WCrashed (ex : exn).
    (* an exception left [page_thread], the thread has ended *)

(** Where the main thread is in [_process], [process] and [main]. *)
Inductive apc : Type :=
| AStart (rest : list page_id)
    (* at [for page in pages] of the script loop *)
| AAcquire (n : page_id) (rest : list page_id)
    (* acquiring the lock: entering [with condition:], or waking up
       inside [condition.wait()] *)
| ACheck (n : page_id) (rest : list page_id)
    (* lock held, at [result = results[page.n]] *)
| AWait (n : page_id) (rest : list page_id)
    (* inside [condition.wait()], lock released, not yet notified *)
| AJoin (k : nat)
    (* lock held, in [for thread in threads: thread.join()], joining
       thread [k] *)
| ARaised (ex : exn)
    (* an exception is leaving [_process] *)
| AReturned
    (* [_process] has returned *)
| AExited (status : Z).
    (* [main] is over; the exit status of the process *)

(** Ghost record of what the workers did to [results] and [condition]. *)
Inductive event : Type :=
| EvClaim (w : nat) (n : page_id)
    (* worker [w] set [results[n] = True], inside [with condition:] *)
| EvResolve (w : nat) (n : page_id) (e : entry) (locked : bool)
    (* worker [w] stored the terminal [e]; [locked] tells whether the
       assignment is inside a [with condition:] block *)
| EvNotify (w : nat) (n : page_id).
    (* worker [w] called [condition.notify()], inside [with condition:] *)

Inductive tid : Type :=
| Main
| Worker (w : nat).

Record state : Type := {
  results : gmap page_id entry;   (* the [results] dictionary *)
  lock : bool;                    (* the main thread holds [condition] *)
  workers : list wpc;             (* [threads] *)
  asm : apc;                      (* the main thread *)
  sed_file : list sed_write;      (* writes to [sed_file] so far *)
  debug : bool;                   (* [self._debug] *)
  temp_dir_exists : bool;         (* [self._temp_dir] is still on disk *)
  left_dir : bool;                (* [main] reported the kept directory *)
  trace : list event
}.

Definition set_worker (w : nat) (pc : wpc) (s : state) : state :=
  {| results := results s; lock := lock s; workers := <[w := pc]> (workers s);
     asm := asm s; sed_file := sed_file s; debug := debug s;
     temp_dir_exists := temp_dir_exists s; left_dir := left_dir s;
     trace := trace s |}.

Definition set_result (n : page_id) (e : entry) (s : state) : state :=
  {| results := <[n := e]> (results s); lock := lock s; workers := workers s;
     asm := asm s; sed_file := sed_file s; debug := debug s;
     temp_dir_exists := temp_dir_exists s; left_dir := left_dir s;
     trace := trace s |}.

Definition set_asm (a : apc) (s : state) : state :=
  {| results := results s; lock := lock s; workers := workers s;
     asm := a; sed_file := sed_file s; debug := debug s;
     temp_dir_exists := temp_dir_exists s; left_dir := left_dir s;
     trace := trace s |}.

Definition set_lock (b : bool) (s : state) : state :=
  {| results := results s; lock := b; workers := workers s;
     asm := asm s; sed_file := sed_file s; debug := debug s;
     temp_dir_exists := temp_dir_exists s; left_dir := left_dir s;
     trace := trace s |}.

Definition write (ws : list sed_write) (s : state) : state :=
  {| results := results s; lock := lock s; workers := workers s;
     asm := asm s; sed_file := sed_file s ++ ws; debug := debug s;
     temp_dir_exists := temp_dir_exists s; left_dir := left_dir s;
     trace := trace s |}.

Definition set_debug (b : bool) (s : state) : state :=
  {| results := results s; lock := lock s; workers := workers s;
     asm := asm s; sed_file := sed_file s; debug := b;
     temp_dir_exists := temp_dir_exists s; left_dir := left_dir s;
     trace := trace s |}.

Definition log (evs : list event) (s : state) : state :=
  {| results := results s; lock := lock s; workers := workers s;
     asm := asm s; sed_file := sed_file s; debug := debug s;
     temp_dir_exists := temp_dir_exists s; left_dir := left_dir s;
     trace := trace s ++ evs |}.

(** [condition.notify()]: wakes the main thread if it is in
    [condition.wait()] (only the main thread ever waits); it then has to
    take the lock again. *)
Definition notify (s : state) : state :=
  match asm s with
  | AWait n rest => set_asm (AAcquire n rest) s
  | _ => s
  end.

(** One step of worker [w], which is at [pc].  The [with condition:]
    blocks of [page_thread] do not block inside, so each is one step, taken
    only when the lock is free.  [None]: the thread is blocked or has
    ended. *)
Definition page_thread (o : options) (w : nat) (pc : wpc) (s : state)
    : option state :=
  match pc with
  | WLoop [] => Some (set_worker w WDone s)
  | WLoop (n :: rest) =>
      (* with condition: result = results[n] ... results[n] = True *)
      if lock s then None else
      match results s !! n with
      | None => Some (set_worker w (WCrashed KeyError) s)
      | Some Unclaimed =>
          Some (log [EvClaim w n]
                 (set_worker w (WProcess n rest) (set_result n Claimed s)))
      | Some _ => Some (set_worker w (WLoop rest) s)
      end
  | WProcess n rest =>
      (* try: result = self.process_page(page) *)
      match process_page o n with
      | Text t => Some (set_worker w (WStore n (RText t) rest) s)
      | NotAvailable => Some (set_worker w (WStore n RFalse rest) s)
      | Failed ex =>
          (* except Exception, ex: results[n] = ex -- no lock taken *)
          Some (log [EvResolve w n (Failure ex) false]
                 (set_worker w (WRaise n ex) (set_result n (Failure ex) s)))
      end
  | WStore n r rest =>
      (* with condition: assert results[n] is True; results[n] = result;
         condition.notify() *)
      if lock s then None else
      match results s !! n with
      | None => Some (set_worker w (WCrashed KeyError) s)
      | Some Claimed =>
          Some (notify (log [EvResolve w n (entry_of r) true; EvNotify w n]
                         (set_worker w (WLoop rest)
                            (set_result n (entry_of r) s))))
      | Some _ => Some (set_worker w (WCrashed AssertionError) s)
      end
  | WRaise n ex =>
      (* with condition: condition.notify(); then raise *)
      if lock s then None
      else Some (notify (log [EvNotify w n] (set_worker w (WCrashed ex) s)))
  | WDone => None
  | WCrashed _ => None
  end.

Definition terminated (pc : wpc) : bool :=
  match pc with
  | WDone | WCrashed _ => true
  | _ => false
  end.

(** [Context.close]: the kept directory, or [None] after removing it. *)
Definition close (s : state) : state * bool :=
  if debug s then (s, true)
  else ({| results := results s; lock := lock s; workers := workers s;
           asm := asm s; sed_file := sed_file s; debug := debug s;
           temp_dir_exists := false; left_dir := left_dir s;
           trace := trace s |}, false).

(** The [finally] clause of [main], then the end of the process with
    [status]. *)
Definition main_finally (status : Z) (s : state) : state :=
  let (s', kept) := close s in
  {| results := results s'; lock := lock s'; workers := workers s';
     asm := AExited status; sed_file := sed_file s'; debug := debug s';
     temp_dir_exists := temp_dir_exists s'; left_dir := kept;
     trace := trace s' |}.

(** One step of the main thread from the script loop of [_process] on. *)
Definition main_thread (o : options) (s : state) : option state :=
  match asm s with
  | AStart [] =>
      (* sed_file.flush(); saver.save(...); finally: sed_file.close() *)
      match save o with
      | Some ex => Some (set_asm (ARaised ex) s)
      | None => Some (set_asm AReturned s)
      end
  | AStart (n :: rest) =>
      Some (set_asm (AAcquire n rest) (write [SSelect n; SSetTxt] s))
  | AAcquire n rest =>
      if lock s then None else Some (set_asm (ACheck n rest) (set_lock true s))
  | ACheck n rest =>
      match results s !! n with
      | None => Some (set_asm (ARaised KeyError) (set_lock false s))
      | Some Unclaimed | Some Claimed =>
          (* condition.wait() *)
          Some (set_asm (AWait n rest) (set_lock false s))
      | Some (Failure _) =>
          (* for thread in threads: thread.join() -- lock still held *)
          Some (set_asm (AJoin 0) s)
      | Some NoImage =>
          Some (set_asm (AStart rest) (write [SEnd] (set_lock false s)))
      | Some (Success t) =>
          Some (set_asm (AStart rest) (write [SText t; SEnd] (set_lock false s)))
      end
  | AWait _ _ => None
  | AJoin k =>
      match workers s !! k with
      | Some pc => if terminated pc then Some (set_asm (AJoin (S k)) s) else None
      | None =>
          (* self._debug = True; sys.exit(1) *)
          Some (set_asm (ARaised (SystemExit 1)) (set_lock false (set_debug true s)))
      end
  | ARaised ex =>
      (* process: except: self._debug = True; raise -- then main *)
      Some (main_finally 1 (set_debug true s))
  | AReturned => Some (main_finally 0 s)
  | AExited _ => None
  end.

Definition step (o : options) (t : tid) (s : state) : option state :=
  match t with
  | Main => main_thread o s
  | Worker w =>
      match workers s !! w with
      | Some pc => page_thread o w pc s
      | None => None
      end
  end.

(** The state when the script loop starts: [results] built, threads
    started, [remove-txt] written if asked for. *)
Definition init (o : options) : state :=
  {| results := list_to_map (map (fun n => (n, Unclaimed)) (pages o));
     lock := false;
     workers := replicate (n_jobs o) (WLoop (pages o));
     asm := AStart (pages o);
     sed_file := if clear_text o then [SRemoveTxt] else [];
     debug := opt_debug o;
     temp_dir_exists := true;
     left_dir := false;
     trace := [] |}.

(** Running a schedule: the threads that take the successive steps. *)
Fixpoint run (o : options) (schedule : list tid) (s : state) : option state :=
  match schedule with
  | [] => Some s
  | t :: schedule' =>
      match step o t s with
      | Some s' => run o schedule' s'
      | None => None
      end
  end.

Definition step_rel (o : options) (s s' : state) : Prop :=
  exists t, step o t s = Some s'.

Definition reachable (o : options) (s : state) : Prop :=
  rtc (step_rel o) (init o) s.

(** *** Vocabulary of the properties *)

(** The workers that claimed page [n], in the order of their claims. *)
Fixpoint claimers (n : page_id) (tr : list event) : list nat :=
  match tr with
  | [] => []
  | EvClaim w m :: tr' =>
      if Nat.eqb m n then w :: claimers n tr' else claimers n tr'
  | _ :: tr' => claimers n tr'
  end.

Definition terminal (e : entry) : bool :=
  match e with
  | NoImage | Success _ | Failure _ => true
  | Unclaimed | Claimed => false
  end.

(** The entries of the Result Table that are terminal. *)
Definition terminal_entries (s : state) : gmap page_id entry :=
  filter (fun ne => terminal ne.2 = true) (results s).

(** The entry a page ends with, by what its pipeline does. *)
Definition entry_of_outcome (out : outcome) : entry :=
  match out with
  | Text t => Success t
  | NotAvailable => NoImage
  | Failed ex => Failure ex
  end.

(** The record group of a page in the script. *)
Definition body (out : outcome) : list sed_write :=
  match out with
  | Text t => [SText t]
  | NotAvailable | Failed _ => []
  end.

Definition record (o : options) (n : page_id) : list sed_write :=
  [SSelect n; SSetTxt] ++ body (process_page o n) ++ [SEnd].

Definition script_prefix (o : options) : list sed_write :=
  if clear_text o then [SRemoveTxt] else [].

(** The pages of the record groups of a script, in the order written. *)
Fixpoint selected (ws : list sed_write) : list page_id :=
  match ws with
  | [] => []
  | SSelect n :: ws' => n :: selected ws'
  | _ :: ws' => selected ws'
  end.

(** Worker at [pc] has claimed page [n] and not yet resolved it. *)
Definition owns (pc : wpc) (n : page_id) : Prop :=
  match pc with
  | WProcess m _ | WStore m _ _ => m = n
  | _ => False
  end.

(** The pages a worker has still to iterate over. *)
Definition remaining (pc : wpc) : list page_id :=
  match pc with
  | WLoop rest | WProcess _ rest | WStore _ _ rest => rest
  | _ => []
  end.

Definition crashed (pc : wpc) : bool :=
  match pc with
  | WRaise _ _ | WCrashed _ => true
  | _ => false
  end.

(** No page of the run fails (pages without an image are allowed), and the
    saver works. *)
Definition failure_free (o : options) : Prop :=
  (forall n ex, n ∈ pages o -> process_page o n <> Failed ex) /\ save o = None.

(** The main thread has read a [Failure] entry and is joining the
    workers, or has gone past that. *)
Definition failure_observed (s : state) : Prop :=
  exists k, asm s = AJoin k.

(** The main thread holds the lock exactly at these places. *)
Definition holds_lock (a : apc) : bool :=
  match a with
  | ACheck _ _ | AJoin _ => true
  | _ => false
  end.

(** Nothing can take a step. *)
Definition stuck (o : options) (s : state) : Prop :=
  forall t, step o t s = None.

(** The run is over and successful: status 0, every thread at its end. *)
Definition finished (s : state) : Prop :=
  asm s = AExited 0%Z /\
  forall w pc, workers s !! w = Some pc -> pc = WDone.

(** *** The invariant of the reachable states *)

(** The pages the loop of a worker has not finished with: the page it is
    working on, if any, and the pages it has still to iterate over. *)
Definition todo (pc : wpc) : list page_id :=
  match pc with
  | WLoop rest => rest
  | WProcess n rest | WStore n _ rest => n :: rest
  | _ => []
  end.

(** What has been written of the record group of the page at the head of
    [rest]: nothing, or its [select] and [set-txt] lines. *)
Definition partial_record (rest : list page_id) (partial : list sed_write) : Prop :=
  partial = [] \/ exists n r, rest = n :: r /\ partial = [SSelect n; SSetTxt].

(** Where the main thread is, against the pages [rest] it has not finished
    and the part [partial] of the current record group it has written. *)
Definition asm_ok (s : state) (rest : list page_id) (partial : list sed_write) : Prop :=
  match asm s with
  | AStart r => rest = r /\ partial = []
  | AAcquire n r | ACheck n r | AWait n r =>
      rest = n :: r /\ partial = [SSelect n; SSetTxt]
  | AJoin _ =>
      exists n r ex, rest = n :: r /\ partial = [SSelect n; SSetTxt] /\
                     results s !! n = Some (Failure ex)
  | ARaised _ => partial_record rest partial
  | AReturned => rest = [] /\ partial = []
  | AExited st =>
      partial_record rest partial /\ (st = 0%Z -> rest = [] /\ partial = [])
  end.

(** The table has the requested pages as keys; a page being processed is
    marked [True] and was claimed by the worker that processes it; no page
    is claimed twice; terminal entries are what the pipeline gives; the
    main thread holds the lock where [_process] says so; the script is the
    record groups of the pages done, in request order, plus the start of
    the current one; a waiting main thread, a claimed page and an unclaimed
    page each have a worker that will get to them. *)
Record inv (o : options) (s : state) : Prop := {
  inv_keys : forall n, is_Some (results s !! n) <-> n ∈ pages o;
  inv_suffix : forall w pc, workers s !! w = Some pc -> todo pc `suffix_of` pages o;
  inv_workers : length (workers s) = n_jobs o;
  inv_own : forall w pc n, workers s !! w = Some pc -> owns pc n ->
      results s !! n = Some Claimed /\ w ∈ claimers n (trace s);
  inv_once : forall n, length (claimers n (trace s)) <= 1;
  inv_unclaimed : forall n, results s !! n = Some Unclaimed ->
      claimers n (trace s) = [];
  inv_claimed : forall n e, results s !! n = Some e -> e <> Unclaimed ->
      length (claimers n (trace s)) = 1;
  inv_match : forall n e, results s !! n = Some e -> terminal e = true ->
      e = entry_of_outcome (process_page o n);
  inv_store : forall w n r rest, workers s !! w = Some (WStore n r rest) ->
      entry_of r = entry_of_outcome (process_page o n);
  inv_raise : forall w n ex, workers s !! w = Some (WRaise n ex) ->
      results s !! n = Some (Failure ex);
  inv_lock : lock s = holds_lock (asm s);
  inv_asm : exists done rest partial,
      pages o = done ++ rest /\
      sed_file s = script_prefix o ++ flat_map (record o) done ++ partial /\
      (forall m, m ∈ done -> exists e, results s !! m = Some e /\
                  terminal e = true /\ forall ex, e <> Failure ex) /\
      asm_ok s rest partial;
  inv_wait : forall n rest, asm s = AWait n rest ->
      results s !! n = Some Unclaimed \/ results s !! n = Some Claimed \/
      exists w ex, workers s !! w = Some (WRaise n ex);
  inv_owner : forall n, results s !! n = Some Claimed ->
      exists w pc, workers s !! w = Some pc /\ owns pc n;
  inv_todo : forall w pc n, workers s !! w = Some pc ->
      results s !! n = Some Unclaimed -> crashed pc = false -> n ∈ remaining pc;
  inv_join : forall k i pc, asm s = AJoin k -> i < k ->
      workers s !! i = Some pc -> terminated pc = true
}.

(** *** A bound on the steps a state can still take *)

Definition worker_rank (pc : wpc) : nat :=
  match pc with
  | WLoop rest => 3 * length rest + 1
  | WProcess _ rest => 3 * length rest + 3
  | WStore _ _ rest => 3 * length rest + 2
  | WRaise _ _ => 1
  | WDone | WCrashed _ => 0
  end.

Definition asm_rank (n_workers : nat) (a : apc) : nat :=
  match a with
  | AStart rest => 4 * length rest + 4 + n_workers
  | AAcquire _ rest => 4 * length rest + 7 + n_workers
  | ACheck _ rest => 4 * length rest + 6 + n_workers
  | AWait _ rest => 4 * length rest + 5 + n_workers
  | AJoin k => 3 + (n_workers - k)
  | ARaised _ | AReturned => 2
  | AExited _ => 0
  end.

Definition measure (s : state) : nat :=
  3 * sum_list (worker_rank <$> workers s)
  + asm_rank (length (workers s)) (asm s).

(** *** Runs in which no page fails: nothing aborts, nothing crashes *)

Definition asm_good (a : apc) : bool :=
  match a with
  | AJoin _ | ARaised _ => false
  | AExited st => (st =? 0)%Z
  | _ => true
  end.

Record ff_inv (s : state) : Prop := {
  ff_workers : forall w pc, workers s !! w = Some pc -> crashed pc = false;
  ff_asm : asm_good (asm s) = true
}.

(** *** Ends of runs, and the runs of the examples *)

(** A worker at the entry of a [with condition:] block. *)
Definition wants_lock (pc : wpc) : bool :=
  match pc with
  | WLoop (_ :: _) | WStore _ _ _ | WRaise _ _ => true
  | _ => false
  end.

(** What the examples look at in a state. *)
Definition observe (s : state) :=
  (asm s, workers s, lock s, debug s, temp_dir_exists s, sed_file s, trace s).

(** The state a schedule leads to. *)
Definition after (o : options) (schedule : list tid) : state :=
  default (init o) (run o schedule (init o)).

(** The main thread is past the observation of a Failure: joining, with
    the lock, or leaving with [sys.exit(1)] after every worker has ended. *)
Definition aborting (a : apc) : bool :=
  match a with
  | AJoin _ | ARaised _ => true
  | AExited st => (st =? 1)%Z
  | _ => false
  end.

(** Either the main thread is joining, or every worker has ended. *)
Definition joining (s : state) : Prop :=
  aborting (asm s) = true /\
  ((exists k, asm s = AJoin k) \/
   (forall w pc, workers s !! w = Some pc -> terminated pc = true)).

(** What holds of the end of a failed run when it is reached: the exit
    status is 1, the debug flag is on, [close] has kept the directory and
    [main] has reported it; and the script is never shortened. *)
Definition exit_ok (s : state) : Prop :=
  match asm s with
  | AExited st =>
      st <> 0%Z -> debug s = true /\ temp_dir_exists s = true /\ left_dir s = true
  | _ => temp_dir_exists s = true
  end.

(** The property as the design document words it, on the runs that have
    come to their end: every requested page was claimed by exactly one
    worker and the table holds one terminal entry per requested page. *)
Definition every_page_claimed_once (o : options) : Prop :=
  forall s, reachable o s -> stuck o s ->
    (forall n, n ∈ pages o -> exists w, claimers n (trace s) = [w]) /\
    size (terminal_entries s) = length (pages o).

(** The property as the design document words it: the record groups of a
    completed script are in strictly ascending page order. *)
Definition records_ascending (o : options) : Prop :=
  forall s, reachable o s -> asm s = AExited 0%Z ->
    StronglySorted lt (selected (sed_file s)).

(** Worker at [pc] has page [n] in flight: it has claimed the page and
    has not yet left the [with condition:] block that ends its work on
    it. *)
Definition processing (pc : wpc) (n : page_id) : Prop :=
  match pc with
  | WProcess m _ | WStore m _ _ | WRaise m _ => m = n
  | _ => False
  end.

(** The property as the design document words it, on the runs that have
    come to their end: a requested page whose pipeline raises
    [NotAvailable] has the entry NoImage, its record group, with an
    empty body, is in the script, and the run was not aborted. *)
Definition no_image_always_recorded (o : options) : Prop :=
  forall n s, n ∈ pages o -> process_page o n = NotAvailable ->
    reachable o s -> stuck o s ->
    results s !! n = Some NoImage /\
    (exists before after,
       sed_file s = before ++ [SSelect n; SSetTxt; SEnd] ++ after) /\
    asm s = AExited 0%Z.

(** One worker, two pages, the first of which fails. *)
Definition o_abort : options :=
  {| pages := [0; 1]; n_jobs := 1; clear_text := false; opt_debug := false;
     process_page := fun n => match n with
                              | 0 => Failed (CalledProcessError 1)
                              | _ => Text "(page 0 0 1 1)"
                              end;
     file_id := fun _ => "p.djvu"%string; save := None |}.

Definition schedule_abort : list tid :=
  [Main; Main; Main;          (* select, set-txt; lock; wait *)
   Worker 0; Worker 0; Worker 0;  (* claim page 0; fail; notify and die *)
   Main; Main;                (* lock; see the failure *)
   Main; Main;                (* join; sys.exit(1) *)
   Main].                     (* process, close, end of main *)

(** Two pages asked for in descending order ([-p 2,1]), one worker; the
    first page of the document has no image. *)
Definition o_rev : options :=
  {| pages := [1; 0]; n_jobs := 1; clear_text := true; opt_debug := false;
     process_page := fun n => match n with
                              | 0 => NotAvailable
                              | _ => Text "(page 0 0 1 1)"
                              end;
     file_id := fun _ => "p.djvu"%string; save := None |}.

Definition schedule_rev : list tid :=
  [Worker 0; Worker 0; Worker 0;            (* page 2: claim, process, store *)
   Worker 0; Worker 0; Worker 0; Worker 0;  (* page 1, then the end *)
   Main; Main; Main; Main; Main; Main;      (* the two record groups *)
   Main; Main].                             (* save; close *)

Definition s_rev : state :=
  default (init o_rev) (run o_rev schedule_rev (init o_rev)).

(** Two workers, two pages, the first of which fails. *)
Definition o_two : options :=
  {| pages := [0; 1]; n_jobs := 2; clear_text := false; opt_debug := false;
     process_page := fun n => match n with
                              | 0 => Failed (CalledProcessError 1)
                              | _ => Text "(page 0 0 1 1)"
                              end;
     file_id := fun _ => "p.djvu"%string; save := None |}.

Definition schedule_two : list tid :=
  [Worker 0;              (* worker 0 claims page 0 *)
   Worker 1; Worker 1;    (* worker 1 skips page 0, claims page 1 *)
   Worker 1;              (* page 1 is recognized *)
   Worker 0; Worker 0;    (* page 0 fails: entry, notify, raise *)
   Main; Main; Main;      (* select, set-txt; lock; the Failure is read *)
   Main].                 (* worker 0 is joined; worker 1 is waited for *)

Definition s_two : state :=
  default (init o_two) (run o_two schedule_two (init o_two)).

(** One worker, one page, which fails. *)
Definition o_one : options :=
  {| pages := [0]; n_jobs := 1; clear_text := false; opt_debug := false;
     process_page := fun _ => Failed (CalledProcessError 1);
     file_id := fun _ => "p.djvu"%string; save := None |}.

(** Two workers, two pages: the first fails, the second has no image. *)
Definition o_skip : options :=
  {| pages := [0; 1]; n_jobs := 2; clear_text := false; opt_debug := false;
     process_page := fun n => match n with
                              | 0 => Failed (CalledProcessError 1)
                              | _ => NotAvailable
                              end;
     file_id := fun _ => "p.djvu"%string; save := None |}.

Definition schedule_skip : list tid :=
  [Worker 0;              (* worker 0 claims page 0 *)
   Worker 1; Worker 1;    (* worker 1 skips page 0, claims page 1 *)
   Worker 1; Worker 1;    (* page 1 has no image: False is stored *)
   Worker 1;              (* worker 1 is at its end *)
   Worker 0; Worker 0;    (* page 0 fails: entry, notify, raise *)
   Main; Main; Main;      (* select, set-txt; lock; the Failure is read *)
   Main; Main; Main;      (* both workers joined; sys.exit(1) *)
   Main].                 (* process, close, end of main *)

(** With [o_two]: page 1 is in flight when the main thread reads the
    Failure of page 0. *)
Definition schedule_inflight : list tid :=
  [Worker 0;              (* worker 0 claims page 0 *)
   Worker 1; Worker 1;    (* worker 1 skips page 0, claims page 1 *)
   Worker 0; Worker 0;    (* page 0 fails: entry, notify, raise *)
   Main; Main; Main].     (* select, set-txt; lock; the Failure is read *)

(** ... and what can still happen: page 1 is recognized, worker 0 is
    joined. *)
Definition schedule_blocked : list tid :=
  schedule_inflight ++ [Worker 1; Main].

End Scheduler.

(** ** What the escaping adds to a file identifier *)

Module SedScriptDefs.
Import SedScript.

(** The characters [escape_file_id] puts a backslash before. *)
Definition special (c : ascii) : bool :=
  Ascii.eqb c backslash || Ascii.eqb c quote.

(** How many characters of [s] get a backslash. *)
Fixpoint count_special (s : string) : nat :=
  match s with
  | EmptyString => 0
  | String c s' => (if special c then 1 else 0) + count_special s'
  end.

End SedScriptDefs.

(** ** The scheduler: where runs end, what the threads raise, the order
       of the claims *)

Module SchedulerEnds.
Import Scheduler.
Local Open Scope nat_scope.

(** A requested page whose pipeline fails. *)
Definition page_fails (o : options) : Prop :=
  exists n ex, n ∈ pages o /\ process_page o n = Failed ex.

(** The debug flag, the temporary directory and the report of [main]
    against where the main thread is: nothing is touched before the end;
    [sys.exit(1)] and a failing saver are the only exceptions of
    [_process]; the directory goes exactly at a successful end without
    [-D]. *)
Definition ends_ok (o : options) (s : state) : Prop :=
  match asm s with
  | AExited st =>
      (st = 0%Z /\ save o = None /\ debug s = opt_debug o /\
       temp_dir_exists s = opt_debug o /\ left_dir s = opt_debug o) \/
      (st = 1%Z /\ debug s = true /\ temp_dir_exists s = true /\
       left_dir s = true /\ (page_fails o \/ exists ex, save o = Some ex))
  | ARaised ex =>
      temp_dir_exists s = true /\ left_dir s = false /\
      ((ex = SystemExit 1 /\ page_fails o) \/ save o = Some ex)
  | AReturned =>
      save o = None /\ debug s = opt_debug o /\
      temp_dir_exists s = true /\ left_dir s = false
  | _ => debug s = opt_debug o /\ temp_dir_exists s = true /\ left_dir s = false
  end.

(** A worker thread dies only of the exception of a page it processed:
    the entry of that page is the exception. *)
Definition crashes_ok (o : options) (s : state) : Prop :=
  forall w ex, workers s !! w = Some (WCrashed ex) ->
    exists n, n ∈ pages o /\ results s !! n = Some (Failure ex) /\
              process_page o n = Failed ex.

(** The pages a worker has gone past are claimed: none of the pages
    before its place in [pages] is still [None]. *)
Definition passed_ok (o : options) (s : state) : Prop :=
  forall w pc pre, workers s !! w = Some pc -> crashed pc = false ->
    pages o = pre ++ todo pc ->
    forall m, m ∈ pre -> results s !! m <> Some Unclaimed.

(** Pages are claimed in the order of [pages]: before the first
    occurrence of a claimed page nothing is still [None]. *)
Definition claimed_in_order (o : options) (s : state) : Prop :=
  forall pre n post, pages o = pre ++ n :: post -> n ∉ pre ->
    results s !! n <> Some Unclaimed ->
    forall m, m ∈ pre -> results s !! m <> Some Unclaimed.

(** The page a worker is processing. *)
Definition owned (pc : wpc) : option page_id :=
  match pc with
  | WProcess n _ | WStore n _ _ => Some n
  | _ => None
  end.

(** The entry [True]: the page is taken and not yet resolved. *)
Definition claimed (e : entry) : bool :=
  match e with
  | Claimed => true
  | _ => false
  end.

(** The pages in flight, as the table has them. *)
Definition in_flight (s : state) : gmap page_id entry :=
  filter (fun ne => claimed ne.2 = true) (results s).

(** The length no run exceeds. *)
Definition run_bound (o : options) : nat :=
  3 * (n_jobs o * (3 * length (pages o) + 1))
  + (4 * length (pages o) + 4 + n_jobs o).

(** No worker can take a step any more. *)
Definition workers_ended (s : state) : Prop :=
  forall w pc, workers s !! w = Some pc -> terminated pc = true.

(** The states of a run with [n_jobs = 0] and a first page [p]. *)
Definition idle (o : options) (p : page_id) (ps : list page_id) (s : state)
    : Prop :=
  workers s = [] /\ results s = results (init o) /\
  (asm s = AStart (p :: ps) \/ asm s = AAcquire p ps \/
   asm s = ACheck p ps \/ asm s = AWait p ps).

(** [-j 0] on a one-page document. *)
Definition o_idle : options :=
  {| pages := [0]; n_jobs := 0; clear_text := false; opt_debug := false;
     process_page := fun _ => Text "(page 0 0 1 1)";
     file_id := fun _ => "p.djvu"%string; save := None |}.

End SchedulerEnds.

(** ** The command line: [ArgumentParser.set_output], [get_cpu_count] and
       [ArgumentParser.parse_args] (lib/_ocrodjvu.py) *)

Module CommandLine.

(** The saver classes, with the arguments of their constructors.  The
    constructors keep [os.path.abspath(save_path)]; the path is kept as
    given here. *)
Inductive saver : Type :=
| BundledSaver (save_path : string)    (* -o, --save-bundled FILE *)
| IndirectSaver (save_path : string)   (* -i, --save-indirect FILE *)
| ScriptSaver (save_path : string)     (* --save-script FILE *)
| InPlaceSaver                         (* --in-place *)
| DryRunSaver.                         (* --dry-run *)

Definition in_place (sv : saver) : bool :=
  match sv with
  | InPlaceSaver => true
  | _ => false
  end.

(** An attribute of the namespace: missing ([AttributeError] when read),
    or holding [None] or a value. *)
Inductive attribute (A : Type) : Type :=
| Missing
| Holds (v : option A).
Arguments Missing {A}.
Arguments Holds {A} v.

(** [set_output.__call__], for the option of the saver [self.saver_type]
    built from the option's values. *)
Definition set_output (namespace_saver : attribute saver) (sv : saver)
    : attribute saver :=
  match namespace_saver with
  | Missing => Holds (Some sv)
  | Holds _ => Holds None
  end.

(** The namespace attribute after the saver options of the command line,
    in the order given. *)
Definition saver_options (opts : list saver) : attribute saver :=
  fold_left set_output opts Missing.

(** [parser.error(message)]: usage on stderr, exit status 2. *)
Definition error {A : Type} : py A := Raise (SystemExit 2).

(** What [has_language] of the engine does. *)
Inductive language_check : Type :=
| HasLanguage (b : bool)
| InvalidLanguageId
| UnknownLanguageList.

Record engine : Type := {
  get_default_language : string;
  has_language : string -> language_check
}.

(** [get_cpu_count()]; [None] stands for one of the exceptions caught. *)
Definition get_cpu_count (multiprocessing_cpu_count os_sysconf : option Z) : Z :=
  match multiprocessing_cpu_count with
  | Some n => n
  | None =>
      match os_sysconf with
      | Some n => n
      | None => 1
      end
  end.

(** What [argparse] leaves in the namespace, as far as [parse_args] looks
    at it. *)
Record namespace : Type := {
  ns_pages : option string;            (* -p *)
  ns_saver : attribute saver;
  ns_engine : engine;
  ns_language : option string;         (* --language *)
  ns_word_segmentation : string;
  ns_n_jobs : option Z                 (* -j N; [None] for a bare -j *)
}.

Record options : Type := {
  opt_pages : option (list Z);
  opt_saver : saver;
  opt_language : string;
  opt_uax29 : option string;
  opt_n_jobs : Z
}.

(** [ArgumentParser.parse_args] after [argparse] has run. *)
Definition parse_args (cpu_count : Z) (ns : namespace) : py options :=
  let! pages :=
    match Utils.parse_page_numbers (ns_pages ns) with
    | Raise ValueError => error
    | r => r
    end in
  let saver := match ns_saver ns with
               | Missing => None
               | Holds v => v
               end in
  match saver with
  | None => error
  | Some saver =>
      let language := match ns_language ns with
                      | None => get_default_language (ns_engine ns)
                      | Some l => l
                      end in
      let! _ :=
        match has_language (ns_engine ns) language with
        | HasLanguage true => Return tt
        | HasLanguage false => error
        | InvalidLanguageId => error
        | UnknownLanguageList => Return tt
        end in
      let uax29 := if String.eqb (ns_word_segmentation ns) "uax29"
                   then Some language else None in
      let n_jobs := match ns_n_jobs ns with
                    | None => cpu_count
                    | Some n => n
                    end in
      Return {| opt_pages := pages; opt_saver := saver;
                opt_language := language; opt_uax29 := uax29;
                opt_n_jobs := n_jobs |}
  end.

End CommandLine.

(** ** The intermediate files of a page: [Context._temp_file],
       [Context.get_output_image] as a context manager and
       [Context.process_page] (lib/_ocrodjvu.py) *)

Module TempFiles.

(** The files of [self._temp_dir], by name. *)
Definition dir : Type := gset string.

(** An open file of the directory; [auto_remove] tells whether it is a
    [tempfile._TemporaryFileWrapper], which unlinks the file when it is
    closed. *)
Record file : Type := {
  name : string;
  auto_remove : bool
}.

(** What leaves [process_page]: [djvu.decode.NotAvailable] or another
    exception. *)
Inductive raised : Type :=
| NotAvailable
| Error (ex : exn).

Inductive res (A : Type) : Type :=
| Ok (a : A)
| Exc (r : raised).
Arguments Ok {A} a.
Arguments Exc {A} r.

(** A computation on the directory that returns or raises. *)
Definition io (A : Type) : Type := dir -> res A * dir.

Definition ret {A : Type} (a : A) : io A := fun d => (Ok a, d).

Definition raise {A : Type} (r : raised) : io A := fun d => (Exc r, d).

Definition bind_io {A B : Type} (m : io A) (k : A -> io B) : io B :=
  fun d =>
    match m d with
    | (Ok a, d') => k a d'
    | (Exc r, d') => (Exc r, d')
    end.

Notation "'do!' x ':=' m 'in' k" := (bind_io m (fun x => k))
  (at level 10, x name, m at level 100, k at level 200).

Definition lift {A : Type} (r : res A) : io A := fun d => (r, d).

Definition of_py {A : Type} (r : py A) : res A :=
  match r with
  | Return a => Ok a
  | Raise e => Exc (Error e)
  end.

(** [try: body finally: final]: [final] runs on every way out of [body];
    an exception of [final] replaces the outcome of [body]. *)
Definition try_finally {A : Type} (body : io A) (final : io unit) : io A :=
  fun d =>
    match body d with
    | (r, d') =>
        match final d' with
        | (Ok _, d'') => (r, d'')
        | (Exc e, d'') => (Exc e, d'')
        end
    end.

(** [Context._temp_file(name, auto_remove)]: the file is created (or
    truncated) in the directory; it is wrapped for removal unless the
    debug flag is set. *)
Definition _temp_file (debug : bool) (name : string) (auto_remove : bool)
    : io file :=
  fun d => (Ok {| name := name; auto_remove := negb debug && auto_remove |},
            {[name]} ∪ d).

(** [file.close()] *)
Definition close (f : file) : io unit :=
  fun d => (Ok tt, if auto_remove f then d ∖ {[name f]} else d).

(** ['%06d.%s' % (nth, format)] *)
Definition file_name (nth : nat) (format : string) : string :=
  let digits := pretty nth in
  String.concat "" (replicate (6 - String.length digits) "0"%string)
    +:+ digits +:+ "." +:+ format.

(** A page of the document: [page.n], what [page.decode(wait=True)] gives,
    and the exception of [page_job.render], if it raises. *)
Record page : Type := {
  n : nat;
  decode : res ImageIO.page_job;
  render_raises : option raised
}.

(** The OCR engine: its formats, what entering and leaving the
    [with self._engine.recognize(...)] block do (the result handle, or
    an exception), and [extract_text] on the result.  The engine leaves
    the files of the directory alone. *)
Record engine : Type := {
  image_format : string;
  output_format : string;
  recognize : string -> res string;
  recognize_exit : option raised;
  extract_text : string -> res string
}.

(** The writes of [get_output_image]: nothing is rendered for an unknown
    format. *)
Definition write_output_image (output_format : string)
    (fmt : ImageIO.pixel_format) (layers : ImageIO.render_mode)
    (pg : page) (job : ImageIO.page_job) : res (list Byte.byte) :=
  if String.eqb output_format "ppm" || String.eqb output_format "bmp" then
    match render_raises pg with
    | Some r => Exc r
    | None => of_py (ImageIO.get_output_image output_format fmt layers job)
    end
  else Exc (Error NotImplementedError).

(** [with self.get_output_image(nth, page_job) as pfile: body] *)
Definition get_output_image {A : Type} (debug : bool) (output_format : string)
    (fmt : ImageIO.pixel_format) (layers : ImageIO.render_mode)
    (pg : page) (job : ImageIO.page_job) (body : file -> io A) : io A :=
  do! file := _temp_file debug (file_name (n pg) output_format) true in
  try_finally
    (do! _ := lift (write_output_image output_format fmt layers pg job) in
     body file)
    (close file).

(** [Context.process_page(page)] *)
Definition process_page (debug : bool) (eng : engine)
    (fmt : ImageIO.pixel_format) (layers : ImageIO.render_mode) (pg : page)
    : io string :=
  do! page_job := lift (decode pg) in
  get_output_image debug (image_format eng) fmt layers pg page_job (fun pfile =>
    do! result := lift (recognize eng (name pfile)) in
    try_finally
      (if debug then
         do! result_file :=
           _temp_file debug (file_name (n pg) (output_format eng)) true in
         try_finally (lift (extract_text eng result)) (close result_file)
       else
         lift (extract_text eng result))
      (match recognize_exit eng with
       | Some r => raise r
       | None => ret tt
       end)).

(** What the worker thread makes of it. *)
Definition outcome_of (r : res string) : Scheduler.outcome :=
  match r with
  | Ok t => Scheduler.Text t
  | Exc NotAvailable => Scheduler.NotAvailable
  | Exc (Error ex) => Scheduler.Failed ex
  end.

(** The script file of [_process]:
    [sed_file = self._temp_file('ocrodjvu.djvused', auto_remove=False)]
    ... [finally: sed_file.close()]. *)
Definition with_sed_file {A : Type} (debug : bool) (body : file -> io A) : io A :=
  do! sed_file := _temp_file debug "ocrodjvu.djvused" false in
  try_finally (body sed_file) (close sed_file).

End TempFiles.

Module UtilsFacts.
Import Utils PageSource.

Lemma parse_loop_concat (items : list string) (acc : list Z) :
  parse_loop items acc =
  let! ls := mapM expand_item items in Return (acc ++ concat ls).
Proof.
  revert acc; induction items as [|it items IH]; intros acc; simpl.
  - by rewrite app_nil_r.
  - destruct (expand_item it) as [l|e]; simpl; [|done].
    rewrite IH. destruct (mapM expand_item items) as [ls|e]; simpl; [|done].
    by rewrite app_assoc.
Qed.

Lemma seq_from_sorted (start : Z) (n k : nat) :
  StronglySorted Z.lt (map (fun i => start + Z.of_nat i) (seq k n)).
Proof.
  revert k; induction n as [|n IH]; intros k; simpl; constructor; [apply IH|].
  apply Forall_forall. intros x Hx. apply list_elem_of_In in Hx.
  apply in_map_iff in Hx as (i & <- & Hi). apply in_seq in Hi. lia.
Qed.

Lemma expand_item_sorted (it : string) (l : list Z) :
  expand_item it = Return l -> StronglySorted Z.lt l.
Proof.
  unfold expand_item. destruct (contains "-" it).
  - destruct (mapM int (split_max "-" 1 it)) as [[|x [|y [|z xy]]]|e]; simpl; try done.
    unfold xrange.
    destruct (fits_long x && fits_long (y + 1) && (y + 1 - x <=? LONG_MAX));
      [|done].
    intros [= <-]. apply seq_from_sorted.
  - destruct (int it) as [x|e]; simpl; [|done].
    intros [= <-]. repeat constructor.
Qed.

Lemma mapM_expand_sorted (items : list string) (ls : list (list Z)) :
  mapM expand_item items = Return ls -> Forall (StronglySorted Z.lt) ls.
Proof.
  revert ls; induction items as [|it items IH]; intros ls; simpl.
  - intros [= <-]. constructor.
  - destruct (expand_item it) as [l|e] eqn:Hit; simpl; [|done].
    destruct (mapM expand_item items) as [ls'|e]; simpl; [|done].
    intros [= <-]. constructor; [by eapply expand_item_sorted | by apply IH].
Qed.

Lemma elem_of_concat (x : Z) (ls : list (list Z)) :
  x ∈ concat ls <-> exists l, x ∈ l /\ l ∈ ls.
Proof.
  rewrite list_elem_of_In, in_concat. split.
  - intros (l & Hl & Hx). exists l. by rewrite !list_elem_of_In.
  - intros (l & Hx & Hl). exists l. by rewrite <- !list_elem_of_In.
Qed.

Lemma concat_sorted_iff (ls : list (list Z)) :
  Forall (StronglySorted Z.lt) ls ->
  (StronglySorted Z.lt (concat ls) <-> segments_ascending ls).
Proof.
  induction 1 as [|l ls Hl Hls IH]; simpl.
  - split; [|constructor]. intros _ i j li lj a b _ Hi. by rewrite lookup_nil in Hi.
  - rewrite StronglySorted_app, IH. split.
    + intros (Hlt & _ & Hasc) i j li lj a b Hij Hi Hj Ha Hb.
      destruct j as [|j]; [lia|]. destruct i as [|i]; simpl in *.
      * injection Hi as <-. apply Hlt; [done|].
        apply elem_of_concat. exists lj. split; [done|].
        apply list_elem_of_lookup. eauto.
      * eapply (Hasc i j); eauto. lia.
    + intros Hasc. split; [|split; [done|]].
      * intros a b Ha Hb. apply elem_of_concat in Hb as (lj & Hb & Hlj).
        apply list_elem_of_lookup in Hlj as [j Hj].
        eapply (Hasc 0%nat (S j)); eauto. lia.
      * intros i j li lj a b Hij Hi Hj. eapply (Hasc (S i) (S j)); eauto. lia.
Qed.

(** C9. The documented examples of [parse_page_numbers]: one number, a
    range, a list of both, a reversed range (empty, no error), a one-page
    range, and [None], which is returned as [None] and makes [_process]
    take every page of the document. *)
Theorem parse_page_numbers_examples :
  parse_page_numbers (Some "17"%string) = Return (Some [17]) /\
  parse_page_numbers (Some "37-42"%string) = Return (Some [37; 38; 39; 40; 41; 42]) /\
  parse_page_numbers (Some "17,37-42"%string)
    = Return (Some [17; 37; 38; 39; 40; 41; 42]) /\
  parse_page_numbers (Some "42-37"%string) = Return (Some []) /\
  parse_page_numbers (Some "17-17"%string) = Return (Some [17]) /\
  parse_page_numbers None = Return None /\
  (forall n_document_pages : nat,
     (let! pages := parse_page_numbers None in
      select_pages n_document_pages pages)
     = Return (seq 0 n_document_pages)).
Proof. repeat split; reflexivity. Qed.

(** C10. [parse_page_numbers] neither sorts nor removes duplicates: on a
    string it returns the concatenation, in input order, of the expansions
    of the comma-separated items (or the first error among them); so
    '42,17' gives [42; 17] and '1-3,2-4' repeats 2 and 3; and the result is
    strictly ascending exactly when the segments are ascending and
    disjoint. *)
Theorem parse_page_numbers_concat :
  (forall s : string,
     parse_page_numbers (Some s) =
     let! ls := mapM expand_item (split "," s) in Return (Some (concat ls))) /\
  parse_page_numbers (Some "42,17"%string) = Return (Some [42; 17]) /\
  parse_page_numbers (Some "1-3,2-4"%string) = Return (Some [1; 2; 3; 2; 3; 4]) /\
  (forall (s : string) (ls : list (list Z)),
     mapM expand_item (split "," s) = Return ls ->
     (StronglySorted Z.lt (concat ls) <-> segments_ascending ls)).
Proof.
  split; [|split; [reflexivity|split; [reflexivity|]]].
  - intros s. unfold parse_page_numbers. rewrite parse_loop_concat.
    by destruct (mapM expand_item (split "," s)).
  - intros s ls Hls. apply concat_sorted_iff. by eapply mapM_expand_sorted.
Qed.

Lemma parse_page_numbers_concat_witness :
  mapM expand_item (split "," "1-3,2-4"%string) = Return [[1; 2; 3]; [2; 3; 4]] /\
  (StronglySorted Z.lt (concat [[1; 2; 3]; [2; 3; 4]])
   <-> segments_ascending [[1; 2; 3]; [2; 3; 4]]).
Proof.
  split; [reflexivity|].
  apply (proj2 (proj2 (proj2 parse_page_numbers_concat)) "1-3,2-4"%string).
  reflexivity.
Defined.

End UtilsFacts.

Module SedScriptFacts.
Import SedScript.
Local Open Scope string_scope.

Lemma replace_cons (old : ascii) (new : string) (c : ascii) (s : string) :
  replace old new (String c s) =
  if Ascii.eqb c old then new ++ replace old new s
  else String c (replace old new s).
Proof. reflexivity. Qed.

Lemma concat_map_cons (f : ascii -> string) (c : ascii) (s : string) :
  concat_map f (String c s) = f c ++ concat_map f s.
Proof. reflexivity. Qed.

Lemma escape_file_id_chars (s : string) :
  escape_file_id s = concat_map escape_char s.
Proof.
  unfold escape_file_id. induction s as [|c s IH]; [done|].
  rewrite concat_map_cons, <- IH, replace_cons. unfold escape_char.
  destruct (Ascii.eqb c backslash) eqn:Hb.
  - reflexivity.
  - rewrite replace_cons. by destruct (Ascii.eqb c quote).
Qed.

Lemma read_quoted_cons (c : ascii) (s : string) :
  read_quoted (String c s) =
  if Ascii.eqb c quote then Some (EmptyString, s)
  else if Ascii.eqb c backslash then
    match s with
    | EmptyString => None
    | String c' s'' =>
        match read_quoted s'' with
        | Some (x, rest) => Some (String c' x, rest)
        | None => None
        end
    end
  else
    match read_quoted s with
    | Some (x, rest) => Some (String c x, rest)
    | None => None
    end.
Proof. reflexivity. Qed.

Lemma read_quoted_escape (s rest : string) :
  read_quoted (concat_map escape_char s ++ String quote rest) = Some (s, rest).
Proof.
  induction s as [|c s IH]; [done|].
  rewrite concat_map_cons. unfold escape_char.
  destruct (Ascii.eqb_spec c backslash) as [->|Hb].
  - change (read_quoted (String backslash (String backslash
              (concat_map escape_char s ++ String quote rest)))
            = Some (String backslash s, rest)).
    rewrite read_quoted_cons. simpl. fold escape_char. by rewrite IH.
  - destruct (Ascii.eqb_spec c quote) as [->|Hq].
    + change (read_quoted (String backslash (String quote
                (concat_map escape_char s ++ String quote rest)))
              = Some (String quote s, rest)).
      rewrite read_quoted_cons. simpl. fold escape_char. by rewrite IH.
    + change (read_quoted (String c
                (concat_map escape_char s ++ String quote rest))
              = Some (String c s, rest)).
      rewrite read_quoted_cons.
      apply Ascii.eqb_neq in Hb, Hq. fold escape_char. by rewrite Hq, Hb, IH.
Qed.

Lemma parse_select_body (body : string) :
  parse_select ("select '" ++ body) =
  match read_quoted body with
  | Some (file_id, rest) => if String.eqb rest newline then Some file_id else None
  | None => None
  end.
Proof. reflexivity. Qed.

Lemma parse_select_directive (s : string) :
  parse_select (select_directive s) = Some s.
Proof.
  unfold select_directive. rewrite parse_select_body, escape_file_id_chars.
  change ("'" ++ newline) with (String quote newline).
  by rewrite read_quoted_escape, String.eqb_refl.
Qed.

(** C7. The file identifier is escaped character by character: a backslash
    becomes two backslashes, a quote becomes backslash-quote (the backslash
    replacement runs first and the quote replacement leaves its output
    alone), everything else is kept; reading the [select] line back gives
    the identifier again, and the escaping is injective. *)
Theorem escape_file_id_roundtrip :
  (forall s, escape_file_id s = concat_map escape_char s) /\
  escape_char backslash = "\\" /\
  escape_char quote = "\'" /\
  (forall c, c <> backslash -> c <> quote -> escape_char c = String c EmptyString) /\
  (forall s, parse_select (select_directive s) = Some s) /\
  (forall s1 s2, escape_file_id s1 = escape_file_id s2 -> s1 = s2).
Proof.
  split; [apply escape_file_id_chars|]. split; [done|]. split; [done|].
  split; [|split; [apply parse_select_directive|]].
  - intros c Hb Hq. unfold escape_char.
    apply Ascii.eqb_neq in Hb, Hq. by rewrite Hb, Hq.
  - intros s1 s2 Heq.
    assert (Some s1 = Some s2) as [= ->]; [|done].
    rewrite <- (parse_select_directive s1), <- (parse_select_directive s2).
    unfold select_directive. by rewrite Heq.
Qed.

Lemma escape_file_id_roundtrip_witness :
  escape_file_id "it's a\b" = "it\'s a\\b" /\
  parse_select (select_directive "it's a\b") = Some "it's a\b" /\
  escape_char "x" = "x" /\
  ("it's a\b" = "it's a\b").
Proof.
  destruct escape_file_id_roundtrip as (_ & _ & _ & Hc & Hp & Hinj).
  split; [reflexivity|]. split; [apply Hp|]. split.
  - apply Hc; discriminate.
  - apply Hinj. reflexivity.
Defined.

End SedScriptFacts.

Module ImageIOFacts.
Import Byte ImageIO.

Lemma Z_of_byte_of_Z (z : Z) : Z_of_byte (byte_of_Z z) = z mod 256.
Proof.
  unfold Z_of_byte, byte_of_Z.
  assert (0 <= z mod 256 < 256) as Hr by (apply Z.mod_pos_bound; lia).
  destruct (Byte.of_N (Z.to_N (z mod 256))) as [b|] eqn:Hb.
  - apply Byte.to_of_N in Hb. rewrite Hb. lia.
  - apply Byte.of_N_None_iff in Hb. lia.
Qed.

Lemma le_decode_le_bytes (width : nat) (v : Z) :
  0 <= v < 2 ^ (8 * Z.of_nat width) -> le_decode (le_bytes width v) = v.
Proof.
  revert v; induction width as [|w IH]; intros v Hv; simpl le_bytes; simpl le_decode.
  - simpl in Hv. lia.
  - rewrite Z_of_byte_of_Z, IH; [pose proof (Z.div_mod v 256); lia|].
    replace (8 * Z.of_nat (S w)) with (8 * Z.of_nat w + 8) in Hv by lia.
    rewrite Z.pow_add_r in Hv by lia. change (2 ^ 8) with 256 in Hv.
    split; [apply Z.div_pos; lia|]. apply Z.div_lt_upper_bound; lia.
Qed.

Lemma pack_uint_ok (width : nat) (v : Z) :
  0 <= v < 2 ^ (8 * Z.of_nat width) -> pack_uint width v = Return (le_bytes width v).
Proof.
  intros [H0 H1]. unfold pack_uint.
  apply Z.leb_le in H0. apply Z.ltb_lt in H1. by rewrite H0, H1.
Qed.

Lemma dpm_ok_upto_6000 :
  forallb (fun i => dpm_ok (Z.of_nat i)) (seq 0 (Z.to_nat 6001)) = true.
Proof. vm_compute. reflexivity. Qed.

Lemma dpm_of_dpi_round (d : Z) :
  0 <= d <= 6000 ->
  dpm_of_dpi d = round_float (PrimFloat.mul (float_of_int d) inches_per_meter)
  /\ 0 <= dpm_of_dpi d < 2 ^ 32.
Proof.
  intros Hd. pose proof dpm_ok_upto_6000 as H.
  rewrite forallb_forall in H. specialize (H (Z.to_nat d)).
  rewrite Z2Nat.id in H by lia.
  assert (dpm_ok d = true) as Hok by (apply H, in_seq; lia).
  unfold dpm_ok in Hok. apply andb_prop in Hok as [Hok H3].
  apply andb_prop in Hok as [H1 H2]. lia.
Qed.

Lemma BMP_init_inv (b : Z) (fmt : pixel_format) :
  BMP_init b = Return fmt ->
  (b = 1 \/ b = 24) /\ bpp fmt = b /\ rows_top_to_bottom fmt = false.
Proof.
  unfold BMP_init, ImageFormat_init.
  destruct (Z.eqb_spec b 1) as [->|]; simpl; [intros [= <-]; auto|].
  destruct (Z.eqb_spec b 24) as [->|]; simpl; [intros [= <-]; auto|done].
Qed.

Lemma row_size_rgb (fmt : pixel_format) (w : Z) :
  bpp fmt = 24 -> row_size fmt w 4 = round_up 4 (w * 3).
Proof.
  intros Hb. unfold row_size. rewrite Hb. f_equal.
  replace (w * 24 + 7) with (7 + w * 3 * 8) by lia.
  by rewrite Z.div_add.
Qed.

Lemma pack_h1 (a b : Z) :
  0 <= a < 2 ^ 32 -> 0 <= b < 2 ^ 32 ->
  pack [fc "B"; fc "M"; fI a; fH 0; fH 0; fI b]
  = Return ([x42; x4d] ++ le_bytes 4 a ++ le_bytes 2 0 ++ le_bytes 2 0
            ++ le_bytes 4 b).
Proof.
  intros Ha Hb. unfold pack. cbn [mapM pack_field pack_char bind].
  rewrite !(pack_uint_ok 4), !(pack_uint_ok 2) by (simpl; lia).
  reflexivity.
Qed.

Lemma pack_h2 (w h b len dpm n : Z) :
  0 <= w < 2 ^ 32 -> 0 <= h < 2 ^ 32 -> 0 <= b < 2 ^ 16 ->
  0 <= len < 2 ^ 32 -> 0 <= dpm < 2 ^ 32 -> 0 <= n < 2 ^ 32 ->
  pack [fI 40; fI w; fI h; fH 1; fH b; fI 0; fI len; fI dpm; fI dpm; fI n; fI n]
  = Return (le_bytes 4 40 ++ le_bytes 4 w ++ le_bytes 4 h ++ le_bytes 2 1
            ++ le_bytes 2 b ++ le_bytes 4 0 ++ le_bytes 4 len
            ++ le_bytes 4 dpm ++ le_bytes 4 dpm ++ le_bytes 4 n ++ le_bytes 4 n).
Proof.
  intros Hw Hh Hb Hlen Hdpm Hn. unfold pack.
  cbn [mapM pack_field pack_char bind].
  rewrite !(pack_uint_ok 4), !(pack_uint_ok 2) by (simpl; lia).
  cbn [bind concat]. by rewrite app_nil_r.
Qed.

Lemma get_output_image_bmp (fmt : pixel_format) (layers : render_mode)
    (job : page_job) :
  get_output_image "bmp" fmt layers job = write_image fmt job layers.
Proof. reflexivity. Qed.

Ltac header_field w v :=
  unfold uint_at; cbn [le_bytes app drop take skipn firstn];
  exact (le_decode_le_bytes w v ltac:(simpl; lia)).

(** C8. A page written as BMP starts with the header the format asks for:
    'BM', the file size (pixel data plus headers), the offset of the pixel
    data (54 plus 4 per palette entry), the 40-byte DIB header with width,
    height, one plane, the bit depth, no compression, the size of the
    pixel data, the resolution round(dpi * 39.37) twice and the number of
    palette colours twice; at 1 bit per pixel a palette of white then
    black follows, at 24 bits there is none; the pixel data comes last.
    The writer asks the renderer for the whole page with rows aligned to 4
    bytes, so with a renderer that sizes its buffer by the rectangle it is
    given the pixel data has height * round_up_to_4(width * 3) bytes at 24
    bits and height * round_up_to_4(ceil(width / 8)) bytes at 1 bit. *)
Theorem bmp_header_exact (b : Z) (fmt : pixel_format) (job : page_job)
    (layers : render_mode) :
  let w := fst (size job) in
  let h := snd (size job) in
  let data := render job layers (0, 0, w, h) (0, 0, w, h) fmt (Some 4) in
  let len_data := Z.of_nat (length data) in
  let n_palette := if b =? 1 then 2 else 0 in
  let headers_size := 54 + 4 * n_palette in
  let dpm := round_float (PrimFloat.mul (float_of_int (dpi job)) inches_per_meter) in
  BMP_init b = Return fmt ->
  0 <= w < 2 ^ 32 -> 0 <= h < 2 ^ 32 -> 0 <= dpi job <= 6000 ->
  len_data + headers_size < 2 ^ 32 ->
  exists file,
    write_image fmt job layers = Return file /\
    get_output_image "bmp" fmt layers job = Return file /\
    take 2 file = [x42; x4d] /\
    uint_at 4 2 file = len_data + headers_size /\
    uint_at 2 6 file = 0 /\ uint_at 2 8 file = 0 /\
    uint_at 4 10 file = headers_size /\
    uint_at 4 14 file = 40 /\
    uint_at 4 18 file = w /\ uint_at 4 22 file = h /\
    uint_at 2 26 file = 1 /\
    uint_at 2 28 file = b /\
    uint_at 4 30 file = 0 /\
    uint_at 4 34 file = len_data /\
    uint_at 4 38 file = dpm /\ uint_at 4 42 file = dpm /\
    uint_at 4 46 file = n_palette /\ uint_at 4 50 file = n_palette /\
    drop (Z.to_nat headers_size) file = data /\
    (b = 1 -> take 8 (drop 54 file) = [xff; xff; xff; x00; x00; x00; x00; x00]) /\
    (b = 24 -> n_palette = 0) /\
    (render_aligned job -> 0 < w -> 0 < h ->
     (b = 24 -> len_data = h * round_up 4 (w * 3)) /\
     (b = 1 -> len_data = h * round_up 4 ((w + 7) / 8))).
Proof.
  intros w h data len_data n_palette headers_size dpm Hinit Hw Hh Hdpi Hlen.
  apply BMP_init_inv in Hinit as (Hb & Hbpp & _).
  destruct (dpm_of_dpi_round (dpi job) Hdpi) as [Hround Hdpm].
  fold dpm in Hround.
  assert (0 <= len_data) as Hlen0 by (unfold len_data; lia).
  assert (0 <= n_palette < 2 ^ 32 /\ 54 <= headers_size <= 62) as [Hn Hhs].
  { unfold headers_size, n_palette. destruct Hb as [-> | ->]; simpl; lia. }
  assert (exists palette,
    (if b =? 1 then
       let! p1 := pack [fB 255; fB 255; fB 255; fB 0] in
       let! p2 := pack [fB 0; fB 0; fB 0; fB 0] in Return (p1 ++ p2)
     else Return []) = Return palette /\
    Z.of_nat (length palette) = 4 * n_palette /\
    (b = 1 -> palette = [xff; xff; xff; x00; x00; x00; x00; x00])) as
    (palette & Hpal & Hpallen & Hpal1).
  { unfold n_palette. destruct Hb as [-> | ->].
    - eexists. split; [reflexivity|]. split; [reflexivity|done].
    - eexists. split; [reflexivity|]. split; [reflexivity|done]. }
  rewrite get_output_image_bmp. unfold write_image.
  fold w h. fold data. fold len_data. rewrite Hbpp.
  replace (2 * (if b =? 1 then 1 else 0)) with n_palette
    by (unfold n_palette; by destruct (b =? 1)).
  fold headers_size. rewrite Hround.
  rewrite pack_h1 by lia. cbn [bind].
  rewrite pack_h2 by (try lia; destruct Hb as [-> | ->]; simpl; lia). cbn [bind].
  rewrite Hpal. cbn [bind].
  eexists. split; [reflexivity|]. split; [reflexivity|].
  split; [reflexivity|].
  split; [header_field 4%nat (len_data + headers_size)|].
  split; [header_field 2%nat 0|]. split; [header_field 2%nat 0|].
  split; [header_field 4%nat headers_size|].
  split; [header_field 4%nat 40|].
  split; [header_field 4%nat w|]. split; [header_field 4%nat h|].
  split; [header_field 2%nat 1|].
  split; [header_field 2%nat b; destruct Hb as [-> | ->]; simpl; lia|].
  split; [header_field 4%nat 0|].
  split; [header_field 4%nat len_data|].
  split; [header_field 4%nat dpm|]. split; [header_field 4%nat dpm|].
  split; [header_field 4%nat n_palette|]. split; [header_field 4%nat n_palette|].
  split; [|split; [|split]].
  - replace (Z.to_nat headers_size) with (54 + length palette)%nat
      by (unfold headers_size; lia).
    cbn [le_bytes app]. rewrite <- drop_drop. cbn [drop skipn].
    by rewrite drop_0, drop_app_length.
  - intros Hb1. rewrite (Hpal1 Hb1). reflexivity.
  - by intros ->.
  - intros Haligned Hw0 Hh0.
    assert (len_data = h * row_size fmt w 4) as Hrows.
    { unfold len_data, data. rewrite Haligned; [done|lia| |done|done].
      rewrite Hbpp. destruct Hb as [-> | ->]; [by left|right; by split]. }
    rewrite Hrows. split; intros Hbb; rewrite Hbb in Hbpp.
    + by rewrite row_size_rgb.
    + unfold row_size. by rewrite Hbpp, Z.mul_1_r.
Qed.

Lemma round_up_nonneg (a n : Z) : 0 < a -> 0 <= n -> 0 <= round_up a n.
Proof.
  intros Ha Hn. unfold round_up.
  apply Z.mul_nonneg_nonneg; [apply Z.div_pos|]; lia.
Qed.

Lemma blank_job_aligned (w h d : Z) : render_aligned (blank_job w h d).
Proof.
  intros layers page_rect render_rect fmt alignment Ha Hb Hw Hh. simpl.
  rewrite repeat_length, Z2Nat.id; [done|].
  apply Z.mul_nonneg_nonneg; [lia|]. apply round_up_nonneg; [done|].
  apply Z.div_pos; [|lia]. apply Z.add_nonneg_nonneg; [|lia].
  apply Z.mul_nonneg_nonneg; lia.
Qed.

(** The reference encoding of a 1x1 page at 1 bit per pixel, 300 dpi. *)
Example bmp_1x1_reference :
  (let! fmt := BMP_init 1 in write_image fmt (blank_job 1 1 300) RENDER_MASK_ONLY)
  = Return
      [x42; x4d;                      (* BM *)
       x42; x00; x00; x00;            (* file size: 66 *)
       x00; x00; x00; x00;
       x3e; x00; x00; x00;            (* offset of the pixel data: 62 *)
       x28; x00; x00; x00;            (* DIB header size: 40 *)
       x01; x00; x00; x00;            (* width *)
       x01; x00; x00; x00;            (* height *)
       x01; x00;                      (* planes *)
       x01; x00;                      (* bits per pixel *)
       x00; x00; x00; x00;            (* compression *)
       x04; x00; x00; x00;            (* size of the pixel data *)
       x23; x2e; x00; x00;            (* 11811 pixels per meter *)
       x23; x2e; x00; x00;
       x02; x00; x00; x00;            (* palette colours *)
       x02; x00; x00; x00;
       xff; xff; xff; x00;            (* white *)
       x00; x00; x00; x00;            (* black *)
       x00; x00; x00; x00].           (* one padded row *)
Proof. vm_compute. reflexivity. Qed.

(** A 2x2 page at 24 bits per pixel: 54 bytes of headers, no palette, two
    rows of 8 bytes. *)
Example bmp_2x2_rgb :
  exists file,
    (let! fmt := BMP_init 24 in write_image fmt (blank_job 2 2 300) RENDER_COLOR)
    = Return file /\
    length file = (54 + 16)%nat /\
    uint_at 4 10 file = 54 /\ uint_at 4 46 file = 0 /\ uint_at 4 34 file = 16 /\
    2 * round_up 4 (2 * 3) = 16.
Proof. eexists. split; [vm_compute; reflexivity|]. repeat split. Qed.

Lemma bmp_header_exact_witness :
  exists file,
    write_image {| bpp := 1; rows_top_to_bottom := false; y_top_to_bottom := true |}
      (blank_job 1 1 300) RENDER_MASK_ONLY = Return file /\
    uint_at 4 2 file = 4 + 62 /\
    uint_at 4 38 file = 11811 /\
    uint_at 4 34 file = 1 * round_up 4 ((1 + 7) / 8).
Proof.
  pose proof (bmp_header_exact 1
    {| bpp := 1; rows_top_to_bottom := false; y_top_to_bottom := true |}
    (blank_job 1 1 300) RENDER_MASK_ONLY) as H.
  cbv zeta in H.
  destruct H as (file & Hfile & _ & _ & Hsize & _ & _ & _ & _ & _ & _ & _ & _
                 & _ & Hdata & Hdpm & _ & _ & _ & _ & _ & _ & Hrows).
  - reflexivity.
  - simpl; lia.
  - simpl; lia.
  - simpl; lia.
  - simpl; lia.
  - exists file. split; [exact Hfile|]. split; [exact Hsize|].
    split; [exact Hdpm|]. rewrite Hdata.
    apply Hrows; [apply blank_job_aligned|simpl; lia|simpl; lia|reflexivity].
Defined.

End ImageIOFacts.

Module SchedulerFacts.
Import Scheduler.
Local Open Scope nat_scope.

Lemma notify_asm (s : state) :
  asm (notify s) = match asm s with AWait n rest => AAcquire n rest | a => a end.
Proof. unfold notify. by destruct (asm s) eqn:E. Qed.

Lemma notify_other (s : state) :
  results (notify s) = results s /\ lock (notify s) = lock s /\
  workers (notify s) = workers s /\ sed_file (notify s) = sed_file s /\
  debug (notify s) = debug s /\ trace (notify s) = trace s /\
  temp_dir_exists (notify s) = temp_dir_exists s /\ left_dir (notify s) = left_dir s.
Proof. unfold notify. by destruct (asm s) eqn:E. Qed.

Lemma notify_results s : results (notify s) = results s.
Proof. apply notify_other. Qed.
Lemma notify_lock s : lock (notify s) = lock s.
Proof. apply notify_other. Qed.
Lemma notify_workers s : workers (notify s) = workers s.
Proof. apply notify_other. Qed.
Lemma notify_sed_file s : sed_file (notify s) = sed_file s.
Proof. apply notify_other. Qed.
Lemma notify_debug s : debug (notify s) = debug s.
Proof. apply notify_other. Qed.
Lemma notify_trace s : trace (notify s) = trace s.
Proof. apply notify_other. Qed.
Lemma notify_temp_dir s : temp_dir_exists (notify s) = temp_dir_exists s.
Proof. apply notify_other. Qed.

Ltac notify_simpl :=
  rewrite ?notify_results, ?notify_lock, ?notify_workers, ?notify_sed_file,
          ?notify_debug, ?notify_trace, ?notify_temp_dir, ?notify_asm in *.

(** Case analysis of one step: every way [step o t s = Some s'] can hold,
    with [s'] spelled out. *)
Ltac step_inv H :=
  unfold step in H;
  try (match type of H with
       | match ?t with Main => _ | Worker _ => _ end = _ => destruct t
       end);
  unfold main_thread, main_finally, close, page_thread in H;
  repeat (case_match; simpl in H); simplify_eq.


Lemma claimers_app (n : page_id) (tr1 tr2 : list event) :
  claimers n (tr1 ++ tr2) = claimers n tr1 ++ claimers n tr2.
Proof.
  induction tr1 as [|[w m| |] tr1 IH]; simpl; try done.
  destruct (Nat.eqb m n); simpl; by rewrite IH.
Qed.

Lemma claimers_claim (n m : page_id) (w : nat) (tr : list event) :
  claimers n (tr ++ [EvClaim w m]) =
  if decide (m = n) then claimers n tr ++ [w] else claimers n tr.
Proof.
  rewrite claimers_app. simpl. destruct (Nat.eqb_spec m n); case_decide; try done.
  by rewrite app_nil_r.
Qed.

Lemma is_Some_insert (m : gmap page_id entry) (k n : page_id) (e : entry) :
  is_Some (m !! k) -> (is_Some (<[k := e]> m !! n) <-> is_Some (m !! n)).
Proof.
  intros Hk. destruct (decide (k = n)) as [->|Hne].
  - rewrite lookup_insert_eq. split; [done|]. by eauto.
  - by rewrite lookup_insert_ne.
Qed.

Lemma init_lookup (l : list page_id) (n : page_id) (e : entry) :
  (list_to_map (map (fun n => (n, Unclaimed)) l) : gmap page_id entry) !! n = Some e
  <-> e = Unclaimed /\ n ∈ l.
Proof.
  induction l as [|m l IH]; simpl.
  - rewrite lookup_empty. split; [done|]. intros [_ H]. by apply elem_of_nil in H.
  - rewrite lookup_insert_Some, IH, elem_of_cons. split.
    + intros [[-> <-]|[Hne [-> Hn]]]; auto.
    + intros [-> [->|Hn]]; [by left|].
      destruct (decide (m = n)) as [->|Hne]; [by left|by right].
Qed.

Lemma init_inv (o : options) : inv o (init o).
Proof.
  split; simpl.
  - intros n. split.
    + intros [e He]. by apply init_lookup in He as [_ Hn].
    + intros Hn. exists Unclaimed. by apply init_lookup.
  - intros w pc [-> _]%lookup_replicate. done.
  - apply length_replicate.
  - intros w pc n [-> _]%lookup_replicate. done.
  - intros n. simpl. lia.
  - done.
  - intros n e [-> _]%init_lookup. done.
  - intros n e [-> _]%init_lookup. done.
  - intros w n r rest [? _]%lookup_replicate. done.
  - intros w n ex [? _]%lookup_replicate. done.
  - done.
  - exists [], (pages o), []. split; [done|]. split.
    + unfold script_prefix. simpl. by rewrite app_nil_r.
    + split; [|done]. intros m Hm. by apply elem_of_nil in Hm.
  - done.
  - intros n [? _]%init_lookup. done.
  - intros w pc n [-> _]%lookup_replicate [_ Hn]%init_lookup _. done.
  - done.
Qed.

Lemma step_keys o t s s' :
  inv o s -> step o t s = Some s' ->
  forall n, is_Some (results s' !! n) <-> n ∈ pages o.
Proof.
  intros I H n. rewrite <- (inv_keys o s I n).
  step_inv H; simpl; notify_simpl; simpl; try done;
    apply is_Some_insert; try by eauto.
  edestruct (inv_own _ _ I) as [Hc _]; [eassumption|simpl; reflexivity|]. by eauto. 
Qed.


Ltac wl H :=
  apply list_lookup_insert_Some in H as [(-> & ? & ?) | (? & H)];
  [simplify_eq|].

Ltac old_suffix I :=
  match goal with
  | Hw : workers ?s !! _ = Some ?pc |- _ =>
      let Hs := fresh "Hs" in
      pose proof (inv_suffix _ s I _ _ Hw) as Hs; simpl in Hs
  end.

Lemma step_suffix o t s s' :
  inv o s -> step o t s = Some s' ->
  forall w pc, workers s' !! w = Some pc -> todo pc `suffix_of` pages o.
Proof.
  intros I H w0 pc0 Hw0.
  step_inv H; simpl in *; notify_simpl; simpl in *;
    try (by eapply (inv_suffix _ _ I));
    (wl Hw0; try (by eapply (inv_suffix _ _ I))); simpl;
    try apply suffix_nil; old_suffix I; try done; by eapply suffix_cons_l.
Qed.

Lemma step_workers o t s s' :
  inv o s -> step o t s = Some s' -> length (workers s') = n_jobs o.
Proof.
  intros I H. rewrite <- (inv_workers o s I).
  step_inv H; simpl; notify_simpl; simpl; by rewrite ?length_insert.
Qed.


Lemma claimers_resolve n tr w m e b :
  claimers n (tr ++ [EvResolve w m e b]) = claimers n tr.
Proof. by rewrite claimers_app, app_nil_r. Qed.

Lemma claimers_notify n tr w m :
  claimers n (tr ++ [EvNotify w m]) = claimers n tr.
Proof. by rewrite claimers_app, app_nil_r. Qed.

Lemma claimers_resolve_notify n tr w m e b w' m' :
  claimers n (tr ++ [EvResolve w m e b; EvNotify w' m']) = claimers n tr.
Proof. by rewrite claimers_app, app_nil_r. Qed.

Ltac claimers_simpl :=
  rewrite ?claimers_resolve_notify, ?claimers_resolve, ?claimers_notify,
          ?claimers_claim in *.

Lemma owner_unique o s w w0 pc pc0 n :
  inv o s -> workers s !! w = Some pc -> owns pc n ->
  workers s !! w0 = Some pc0 -> owns pc0 n -> w = w0.
Proof.
  intros I Hw Ho Hw0 Ho0.
  destruct (inv_own _ _ I _ _ _ Hw Ho) as [_ H1].
  destruct (inv_own _ _ I _ _ _ Hw0 Ho0) as [_ H2].
  pose proof (inv_once _ _ I n) as Hlen.
  destruct (claimers n (trace s)) as [|x [|y l]]; simpl in Hlen; [| |lia].
  - by apply elem_of_nil in H1.
  - apply list_elem_of_singleton in H1, H2. by subst.
Qed.

Lemma step_once o t s s' :
  inv o s -> step o t s = Some s' ->
  forall n, length (claimers n (trace s')) <= 1.
Proof.
  intros I H n. pose proof (inv_once _ _ I n) as Hn.
  step_inv H; simpl; notify_simpl; simpl; claimers_simpl; try done.
  case_decide; [subst|done].
  by erewrite (inv_unclaimed _ _ I).
Qed.

Lemma step_unclaimed o t s s' :
  inv o s -> step o t s = Some s' ->
  forall n, results s' !! n = Some Unclaimed -> claimers n (trace s') = [].
Proof.
  intros I H n Hn.
  step_inv H; simpl in *; notify_simpl; simpl in *; claimers_simpl;
    try (by apply (inv_unclaimed _ _ I));
    apply lookup_insert_Some in Hn as [[-> [=]]|[Hne Hn]];
    try case_decide; try done;
    try (match goal with H : entry_of ?r = _ |- _ => by destruct r end);
    by apply (inv_unclaimed _ _ I).
Qed.

Lemma step_claimed o t s s' :
  inv o s -> step o t s = Some s' ->
  forall n e, results s' !! n = Some e -> e <> Unclaimed ->
  length (claimers n (trace s')) = 1.
Proof.
  intros I H n e Hn He.
  step_inv H; simpl in *; notify_simpl; simpl in *; claimers_simpl;
    try (by eapply (inv_claimed _ _ I));
    apply lookup_insert_Some in Hn as [[-> <-]|[Hne Hn]];
    try case_decide; try done; try (by eapply (inv_claimed _ _ I)).
  - by erewrite (inv_unclaimed _ _ I).
  - edestruct (inv_own _ _ I) as [Hc _]; [eassumption|simpl; reflexivity|].
    by eapply (inv_claimed _ _ I).
Qed.


Ltac own_of I Hw :=
  let Hc := fresh "Hc" in let Hm := fresh "Hm" in
  edestruct (inv_own _ _ I) as [Hc Hm]; [exact Hw|simpl; reflexivity|].

Lemma step_own o t s s' :
  inv o s -> step o t s = Some s' ->
  forall w pc n, workers s' !! w = Some pc -> owns pc n ->
  results s' !! n = Some Claimed /\ w ∈ claimers n (trace s').
Proof.
  intros I H w0 pc0 n0 Hw0 Ho.
  step_inv H; simpl in *; notify_simpl; simpl in *; claimers_simpl;
    try (by eapply (inv_own _ _ I));
    (wl Hw0; simpl in Ho; try done; subst);
    try (by eapply (inv_own _ _ I); eauto).
  - rewrite lookup_insert_eq, decide_True by done. split; [done|set_solver].
  - destruct (inv_own _ _ I _ _ _ Hw0 Ho) as [Hc Hm].
    rewrite lookup_insert_ne by congruence.
    split; [done|]. case_decide; set_solver.
  - match goal with Hw : workers _ !! _ = Some (WProcess _ _) |- _ =>
      assert (n <> n0) by
        (intros ->; by pose proof (owner_unique _ _ _ _ _ _ _ I Hw eq_refl Hw0 Ho))
    end.
    rewrite lookup_insert_ne by done. by eapply (inv_own _ _ I).
  - match goal with Hw : workers _ !! _ = Some (WStore _ _ _) |- _ =>
      assert (n <> n0) by
        (intros ->; by pose proof (owner_unique _ _ _ _ _ _ _ I Hw eq_refl Hw0 Ho))
    end.
    rewrite lookup_insert_ne by done. by eapply (inv_own _ _ I).
Qed.


Lemma step_match o t s s' :
  inv o s -> step o t s = Some s' ->
  forall n e, results s' !! n = Some e -> terminal e = true ->
  e = entry_of_outcome (process_page o n).
Proof.
  intros I H n0 e Hn He.
  step_inv H; simpl in *; notify_simpl; simpl in *;
    try (by eapply (inv_match _ _ I));
    (apply lookup_insert_Some in Hn as [[-> <-]|[Hne Hn]];
     [|by eapply (inv_match _ _ I)]); try done.
  - match goal with Hp : process_page _ _ = _ |- _ => by rewrite Hp end.
  - by eapply (inv_store _ _ I).
Qed.

Lemma step_store o t s s' :
  inv o s -> step o t s = Some s' ->
  forall w n r rest, workers s' !! w = Some (WStore n r rest) ->
  entry_of r = entry_of_outcome (process_page o n).
Proof.
  intros I H w0 n0 r0 rest0 Hw0.
  step_inv H; simpl in *; notify_simpl; simpl in *;
    try (by eapply (inv_store _ _ I));
    (wl Hw0; try (by eapply (inv_store _ _ I))); simplify_eq;
    match goal with Hp : process_page _ _ = _ |- _ => by rewrite Hp end.
Qed.

Lemma step_raise o t s s' :
  inv o s -> step o t s = Some s' ->
  forall w n ex, workers s' !! w = Some (WRaise n ex) ->
  results s' !! n = Some (Failure ex).
Proof.
  intros I H w0 n0 ex0 Hw0.
  step_inv H; simpl in *; notify_simpl; simpl in *;
    try (by eapply (inv_raise _ _ I));
    (wl Hw0; simplify_eq); try (by eapply (inv_raise _ _ I));
    try (by apply lookup_insert_eq);
    pose proof (inv_raise _ _ I _ _ _ Hw0) as Hold;
    (rewrite lookup_insert_ne; [done|]); intros ->; try congruence.
  - match goal with Hw : workers _ !! _ = Some (WProcess _ _) |- _ =>
      own_of I Hw; congruence end.
Qed.

Lemma step_lock o t s s' :
  inv o s -> step o t s = Some s' -> lock s' = holds_lock (asm s').
Proof.
  intros I H. pose proof (inv_lock _ _ I) as Hl.
  step_inv H; simpl in *; notify_simpl; simpl in *; try done;
    try (match goal with Ha : asm _ = _ |- _ => by rewrite Ha in Hl end);
    by destruct (asm s).
Qed.


(** A terminal entry is never written again. *)
Lemma terminal_stable o t s s' n e :
  inv o s -> step o t s = Some s' ->
  results s !! n = Some e -> terminal e = true -> results s' !! n = Some e.
Proof.
  intros I H Hn He.
  step_inv H; simpl in *; notify_simpl; simpl in *; try done;
    (rewrite lookup_insert_ne; [done|]); intros ->; simplify_eq; try done.
  match goal with Hw : workers _ !! _ = Some (WProcess _ _) |- _ =>
    own_of I Hw; simplify_eq; done end.
Qed.

Lemma entry_of_outcome_NoImage out :
  NoImage = entry_of_outcome out -> out = NotAvailable.
Proof. by destruct out. Qed.

Lemma entry_of_outcome_Success out t :
  Success t = entry_of_outcome out -> out = Text t.
Proof. destruct out; simpl; congruence. Qed.

Lemma entry_of_outcome_Failure out ex :
  Failure ex = entry_of_outcome out -> out = Failed ex.
Proof. destruct out; simpl; congruence. Qed.

Lemma worker_step_asm o w s s' :
  step o (Worker w) s = Some s' ->
  asm s' = asm s \/ exists n r, asm s = AWait n r /\ asm s' = AAcquire n r.
Proof.
  intros H. step_inv H; simpl; notify_simpl; simpl; auto;
    destruct (asm s) eqn:Ha; eauto.
Qed.

Lemma worker_step_sed_file o w s s' :
  step o (Worker w) s = Some s' -> sed_file s' = sed_file s.
Proof. intros H. by step_inv H; simpl; notify_simpl. Qed.

Ltac shape_solver :=
  repeat match goal with
         | H : exists _, _ |- _ => destruct H
         | H : _ /\ _ |- _ => destruct H
         | H : _ \/ _ |- _ => destruct H
         end;
  subst; intuition (try discriminate; eauto 12).

Lemma step_asm o t s s' :
  inv o s -> step o t s = Some s' ->
  exists done rest partial,
    pages o = done ++ rest /\
    sed_file s' = script_prefix o ++ flat_map (record o) done ++ partial /\
    (forall m, m ∈ done -> exists e, results s' !! m = Some e /\
                terminal e = true /\ forall ex, e <> Failure ex) /\
    asm_ok s' rest partial.
Proof.
  intros I H.
  destruct (inv_asm _ _ I) as (done & rest & partial & Hp & Hsed & Hdone & Hok).
  assert (forall m, m ∈ done -> exists e, results s' !! m = Some e /\
            terminal e = true /\ forall ex, e <> Failure ex) as Hdone'.
  { intros m Hm. destruct (Hdone m Hm) as (e & He & Ht & Hf).
    exists e. split; [|done]. by eapply terminal_stable. }
  unfold asm_ok in Hok.
  destruct t as [|w].
  - step_inv H; simpl in *;
      try (by exists done, rest, partial;
              unfold asm_ok, partial_record in *; simpl; shape_solver);
      destruct Hok as [-> ->].
    + (* the select and set-txt lines *)
      exists done, (p :: l), [SSelect p; SSetTxt].
      split; [done|]. split; [|split; [done|]].
      2: { unfold asm_ok; simpl; eauto. }
      by rewrite Hsed, app_nil_r, <- app_assoc.
    + (* a page without image: the empty body *)
      match goal with
      | Hr : results _ !! ?n = Some NoImage, Ha : asm _ = ACheck ?n ?r |- _ =>
        pose proof (inv_match _ _ I _ _ Hr eq_refl) as Hout;
        apply entry_of_outcome_NoImage in Hout;
        exists (done ++ [n]), r, [] end.
      split; [by rewrite Hp, <- app_assoc|]. split; [|split].
      * rewrite Hsed, flat_map_app. simpl. unfold record. rewrite Hout. simpl.
        by rewrite !app_nil_r, <- !app_assoc.
      * intros m [Hm| ->%list_elem_of_singleton]%elem_of_app; [by apply Hdone|].
        eexists. split; [eassumption|]. done.
      * unfold asm_ok; simpl; eauto.
    + (* a recognized page: its text *)
      match goal with
      | Hr : results _ !! ?n = Some (Success ?t), Ha : asm _ = ACheck ?n ?r |- _ =>
        pose proof (inv_match _ _ I _ _ Hr eq_refl) as Hout;
        apply entry_of_outcome_Success in Hout;
        exists (done ++ [n]), r, [] end.
      split; [by rewrite Hp, <- app_assoc|]. split; [|split].
      * rewrite Hsed, flat_map_app. simpl. unfold record. rewrite Hout. simpl.
        by rewrite !app_nil_r, <- !app_assoc.
      * intros m [Hm| ->%list_elem_of_singleton]%elem_of_app; [by apply Hdone|].
        eexists. split; [eassumption|]. done.
      * unfold asm_ok; simpl; eauto.
  - exists done, rest, partial. split; [done|].
    split; [by rewrite (worker_step_sed_file _ _ _ _ H)|]. split; [done|].
    unfold asm_ok.
    destruct (worker_step_asm _ _ _ _ H) as [->|(n & r & Ha & ->)].
    + destruct (asm s); try done.
      destruct Hok as (n & r & ex & -> & -> & Hn). exists n, r, ex.
      split; [done|]. split; [done|]. by eapply terminal_stable.
    + by rewrite Ha in Hok.
Qed.


Lemma step_join o t s s' :
  inv o s -> step o t s = Some s' ->
  forall k i pc, asm s' = AJoin k -> i < k ->
  workers s' !! i = Some pc -> terminated pc = true.
Proof.
  intros I H k i pc Ha Hi Hw.
  destruct t as [|w].
  - step_inv H; simpl in *; simplify_eq; try lia.
    destruct (decide (i = k0)) as [->|]; [by simplify_eq|].
    eapply (inv_join _ _ I); [eassumption| |eassumption]. lia.
  - assert (asm s = AJoin k) as Ha0.
    { destruct (worker_step_asm _ _ _ _ H) as [<-|(n & r & _ & ?)]; congruence. }
    pose proof (fun pc' => inv_join _ _ I _ i pc' Ha0 Hi) as Hold.
    step_inv H; simpl in *; notify_simpl; simpl in *;
      (wl Hw; [|by apply Hold]);
      match goal with Hw' : workers _ !! _ = Some _ |- _ =>
        by specialize (Hold _ Hw') end.
Qed.

Lemma unclaimed_before o t s s' n :
  step o t s = Some s' -> results s' !! n = Some Unclaimed ->
  results s !! n = Some Unclaimed.
Proof.
  intros H Hn.
  step_inv H; simpl in *; notify_simpl; simpl in *; try done;
    apply lookup_insert_Some in Hn as [[-> Heq]|[_ Hn]]; try done.
  by destruct r.
Qed.

Lemma step_todo o t s s' :
  inv o s -> step o t s = Some s' ->
  forall w pc n, workers s' !! w = Some pc ->
  results s' !! n = Some Unclaimed -> crashed pc = false -> n ∈ remaining pc.
Proof.
  intros I H w0 pc0 n0 Hw0 Hn' Hc.
  pose proof (unclaimed_before _ _ _ _ _ H Hn') as Hn.
  pose proof (fun pc Hw => inv_todo _ _ I w0 pc n0 Hw Hn) as Hold.
  destruct t as [|w].
  - step_inv H; simpl in *; by apply Hold.
  - step_inv H; simpl in *; notify_simpl; simpl in *;
      (wl Hw0; try (by apply Hold)); try done;
      match goal with Hw' : workers _ !! _ = Some _ |- _ =>
        specialize (Hold _ Hw' eq_refl); simpl in Hold end;
      try done; try (by apply elem_of_nil in Hold);
      apply elem_of_cons in Hold as [->|]; try done; simplify_eq.
    by rewrite lookup_insert_eq in Hn'.
Qed.


Lemma step_owner o t s s' :
  inv o s -> step o t s = Some s' ->
  forall n, results s' !! n = Some Claimed ->
  exists w pc, workers s' !! w = Some pc /\ owns pc n.
Proof.
  intros I H n0 Hn.
  destruct t as [|w]; [step_inv H; simpl in *; by apply (inv_owner _ _ I)|].
  step_inv H; simpl in *; notify_simpl; simpl in *;
    match goal with Hw : workers _ !! w = Some _ |- _ =>
      pose proof (lookup_lt_Some _ _ _ Hw) as Hlt end.
  all: try (apply lookup_insert_Some in Hn as [[-> Heq]|[Hne Hn]]).
  all: try (match goal with Hr : entry_of ?r = Claimed |- _ => by destruct r end).
  all: try done.
  all: try (by exists w; eexists; rewrite list_lookup_insert_eq by done).
  all: destruct (inv_owner _ _ I _ Hn) as (w' & pc' & Hw' & Ho').
  all: destruct (decide (w' = w)) as [->|Hww];
    [simplify_eq; simpl in Ho'; subst; try done;
     try (by exists w; eexists; rewrite list_lookup_insert_eq by done)
    |by exists w', pc'; rewrite list_lookup_insert_ne by done].
  all: match goal with Hs : workers _ !! _ = Some (WStore _ _ _) |- _ =>
         own_of I Hs; congruence end.
Qed.

Lemma step_wait o t s s' :
  inv o s -> step o t s = Some s' ->
  forall n rest, asm s' = AWait n rest ->
  results s' !! n = Some Unclaimed \/ results s' !! n = Some Claimed \/
  exists w ex, workers s' !! w = Some (WRaise n ex).
Proof.
  intros I H n0 rest0 Ha.
  destruct t as [|w]; [step_inv H; simpl in *; simplify_eq; by auto|].
  assert (asm s = AWait n0 rest0) as Ha0.
  { destruct (worker_step_asm _ _ _ _ H) as [<-|(n & r & _ & ?)]; congruence. }
  pose proof (inv_wait _ _ I _ _ Ha0) as Hold.
  step_inv H; simpl in *; notify_simpl; simpl in *;
    try (by rewrite Ha0 in Ha);
    match goal with Hw : workers _ !! w = Some _ |- _ =>
      pose proof (lookup_lt_Some _ _ _ Hw) as Hlt end.
  all: try (match goal with |- context [<[?n := Failure ?ex]> _ !! ?m] =>
              destruct (decide (n = m)) as [->|Hne];
              [right; right; eexists _, ex; by rewrite list_lookup_insert_eq
              |rewrite !(lookup_insert_ne _ n m) by done]
            end).
  all: try (match goal with |- context [<[?n := Claimed]> _ !! ?m] =>
              destruct (decide (n = m)) as [->|Hne];
              [right; left; by rewrite lookup_insert_eq
              |rewrite !(lookup_insert_ne _ n m) by done]
            end).
  all: destruct Hold as [Hold|[Hold|(w' & ex' & Hw')]]; [by auto|by auto|].
  all: match goal with |- context [<[?w := _]> (workers _)] =>
         destruct (decide (w' = w)) as [->|Hww]; [by simplify_eq|] end.
  all: right; right; exists w', ex'; by rewrite list_lookup_insert_ne.
Qed.


Lemma inv_step o t s s' : inv o s -> step o t s = Some s' -> inv o s'.
Proof.
  intros I H. split.
  - by eapply step_keys.
  - by eapply step_suffix.
  - by eapply step_workers.
  - by eapply step_own.
  - by eapply step_once.
  - by eapply step_unclaimed.
  - by eapply step_claimed.
  - by eapply step_match.
  - by eapply step_store.
  - by eapply step_raise.
  - by eapply step_lock.
  - by eapply step_asm.
  - by eapply step_wait.
  - by eapply step_owner.
  - by eapply step_todo.
  - by eapply step_join.
Qed.

Lemma inv_rtc o s s' : inv o s -> rtc (step_rel o) s s' -> inv o s'.
Proof.
  intros I Hr. induction Hr as [|s1 s2 s3 [t Ht] _ IH]; [done|].
  apply IH. by eapply inv_step.
Qed.

Lemma inv_reachable o s : reachable o s -> inv o s.
Proof. apply inv_rtc, init_inv. Qed.

Lemma run_rtc o schedule s s' :
  run o schedule s = Some s' -> rtc (step_rel o) s s'.
Proof.
  revert s; induction schedule as [|t sch IH]; intros s; simpl.
  - intros [= ->]. constructor.
  - destruct (step o t s) as [s1|] eqn:Ht; [|done].
    intros Hr. eapply rtc_l; [by exists t|by apply IH].
Qed.

Lemma run_reachable o schedule s :
  run o schedule (init o) = Some s -> reachable o s.
Proof. apply run_rtc. Qed.

End SchedulerFacts.

Module SchedulerRuns.
Import Scheduler SchedulerFacts.
Local Open Scope nat_scope.

(** *** Every run is finite *)

Lemma sum_list_insert (l : list wpc) (w : nat) (pc pc' : wpc) :
  l !! w = Some pc ->
  sum_list (worker_rank <$> <[w := pc']> l) + worker_rank pc
  = sum_list (worker_rank <$> l) + worker_rank pc'.
Proof.
  generalize worker_rank as f. intros f.
  revert w; induction l as [|x l IH]; intros [|w] Hw; simplify_eq/=; [lia|].
  specialize (IH _ Hw). lia.
Qed.

Lemma step_measure o t s s' : step o t s = Some s' -> measure s' < measure s.
Proof.
  intros H. unfold measure. destruct t as [|w].
  - step_inv H; simpl; try lia.
    match goal with Hk : workers _ !! _ = Some _ |- _ =>
      apply lookup_lt_Some in Hk end. lia.
  - step_inv H; simpl; notify_simpl; simpl; rewrite ?length_insert;
      match goal with Hw : workers ?s !! w = Some ?pc |- context [<[w := ?pc']> _] =>
        pose proof (sum_list_insert _ _ _ pc' Hw) as Hsum; simpl in Hsum
      end;
      try lia; destruct (asm s); simpl; lia.
Qed.


(** Runs are finite: a schedule longer than the measure of the state it
    starts from cannot be run. *)
Lemma run_bounded o schedule s s' :
  run o schedule s = Some s' -> length schedule + measure s' <= measure s.
Proof.
  revert s; induction schedule as [|t sch IH]; intros s; simpl.
  - intros [= ->]. lia.
  - destruct (step o t s) as [s1|] eqn:Ht; [|done].
    intros Hr. apply IH in Hr. apply step_measure in Ht. lia.
Qed.

(** *** Runs in which no page fails *)

Lemma page_of_todo o s w pc n :
  inv o s -> workers s !! w = Some pc -> n ∈ todo pc -> n ∈ pages o.
Proof.
  intros I Hw Hn. destruct (inv_suffix _ _ I _ _ Hw) as [k ->].
  apply elem_of_app. by right.
Qed.

Lemma ff_step o t s s' :
  failure_free o -> inv o s -> ff_inv s -> step o t s = Some s' -> ff_inv s'.
Proof.
  intros [Hff Hsave] I [Fw Fa] H. destruct t as [|w].
  - split; [step_inv H; simpl in *; done|].
    destruct (inv_asm _ _ I) as (done & rest & partial & Hp & _ & _ & Hok).
    unfold asm_ok in Hok.
    step_inv H; simpl in *; try done; try congruence; destruct Hok as [-> _].
    all: try (match goal with Hr : results _ !! ?n = None |- _ =>
        assert (n ∈ pages o) as Hn by (rewrite Hp; set_solver);
        apply (inv_keys _ _ I) in Hn as [e He]; congruence end).
    all: match goal with Hr : results _ !! ?n = Some (Failure ?ex) |- _ =>
        pose proof (inv_match _ _ I _ _ Hr eq_refl) as Hout;
        apply entry_of_outcome_Failure in Hout;
        exfalso; apply (Hff n ex); [rewrite Hp; set_solver|done] end.
  - split.
    2: { destruct (worker_step_asm _ _ _ _ H) as [->|(n & r & Ha & ->)]; done. }
    intros w0 pc0 Hw0.
    step_inv H; simpl in *; notify_simpl; simpl in *;
      (wl Hw0; try (by eapply Fw)); try done.
    all: match goal with Hw : workers _ !! _ = Some ?pc |- _ =>
           pose proof (fun n => page_of_todo _ _ _ _ n I Hw) as Hpage; simpl in Hpage;
           pose proof (Fw _ _ Hw) as Hc; simpl in Hc end; try done.
    all: try (match goal with Hr : results _ !! ?n = None |- _ =>
        assert (n ∈ pages o) as Hn by (apply Hpage; set_solver);
        apply (inv_keys _ _ I) in Hn as [e He]; congruence end).
    all: try (match goal with Hr : process_page _ ?n = Failed ?ex |- _ =>
        exfalso; apply (Hff n ex); [apply Hpage; set_solver|done] end).
    all: match goal with Hs : workers _ !! _ = Some (WStore _ _ _) |- _ =>
        own_of I Hs; congruence end.
Qed.

Lemma ff_init o : ff_inv (init o).
Proof.
  split; simpl; [|done]. by intros w pc [-> _]%lookup_replicate.
Qed.

Lemma ff_rtc o s s' :
  failure_free o -> inv o s -> ff_inv s -> rtc (step_rel o) s s' -> ff_inv s'.
Proof.
  intros Hff I F Hr. induction Hr as [|s1 s2 s3 [t Ht] _ IH]; [done|].
  apply IH; [by eapply inv_step|by eapply ff_step].
Qed.

Lemma ff_reachable o s : failure_free o -> reachable o s -> ff_inv s.
Proof. intros Hff Hr. eapply ff_rtc; eauto using init_inv, ff_init. Qed.


Lemma live_worker_steps o s w pc :
  workers s !! w = Some pc -> lock s = false -> terminated pc = false ->
  exists s', step o (Worker w) s = Some s'.
Proof.
  intros Hw Hl Ht. unfold step. rewrite Hw.
  destruct pc; simpl in *; rewrite ?Hl; try done; repeat case_match; eauto.
Qed.

Lemma all_or_live (l : list wpc) :
  (forall w pc, l !! w = Some pc -> terminated pc = true) \/
  (exists w pc, l !! w = Some pc /\ terminated pc = false).
Proof.
  induction l as [|x l [IH|(w & pc & Hw & Ht)]].
  - left. intros w pc Hw. by rewrite lookup_nil in Hw.
  - destruct (terminated x) eqn:Hx.
    + left. intros [|w] pc Hw; simpl in Hw; [by simplify_eq|by eapply IH].
    + right. by exists 0, x.
  - right. by exists (S w), pc.
Qed.

Lemma progress o s :
  failure_free o -> 1 <= n_jobs o -> inv o s -> ff_inv s ->
  (exists t s', step o t s = Some s') \/ finished s.
Proof.
  intros Hff HW I [Fw Fa].
  pose proof (inv_lock _ _ I) as Hl.
  destruct (asm s) eqn:Ha; simpl in *; try done.
  - left. exists Main. unfold step, main_thread. rewrite Ha.
    repeat case_match; eauto.
  - left. exists Main. unfold step, main_thread. rewrite Ha, Hl. eauto.
  - left. exists Main. unfold step, main_thread. rewrite Ha.
    repeat case_match; eauto.
  - left.
    destruct (inv_wait _ _ I _ _ Ha) as [Hn|[Hn|(w & ex & Hw)]].
    + assert (exists pc, workers s !! 0 = Some pc) as [pc Hpc].
      { apply lookup_lt_is_Some. rewrite (inv_workers _ _ I). lia. }
      pose proof (Fw _ _ Hpc) as Hc.
      pose proof (inv_todo _ _ I _ _ _ Hpc Hn Hc) as Hrem.
      exists (Worker 0). eapply live_worker_steps; eauto.
      destruct pc; simpl in *; try done; by apply elem_of_nil in Hrem.
    + destruct (inv_owner _ _ I _ Hn) as (w & pc & Hw & Ho).
      exists (Worker w). eapply live_worker_steps; eauto.
      by destruct pc.
    + by specialize (Fw _ _ Hw).
  - left. exists Main. unfold step, main_thread. rewrite Ha. eauto.
  - apply Z.eqb_eq in Fa as ->.
    destruct (all_or_live (workers s)) as [Hall|(w & pc & Hw & Ht)].
    + right. split; [done|]. intros w pc Hw.
      specialize (Hall _ _ Hw). specialize (Fw _ _ Hw). by destruct pc.
    + left. exists (Worker w). eapply live_worker_steps; eauto.
Qed.

(** When no page fails, every run can be continued to its successful
    end, whatever has been scheduled so far. *)
Lemma completion o s :
  failure_free o -> 1 <= n_jobs o -> reachable o s ->
  exists s', rtc (step_rel o) s s' /\ finished s'.
Proof.
  intros Hff HW Hr.
  pose proof (inv_reachable _ _ Hr) as I.
  pose proof (ff_reachable _ _ Hff Hr) as F.
  clear Hr. remember (measure s) as m eqn:Hm.
  revert s Hm I F. induction m as [m IH] using lt_wf_ind. intros s -> I F.
  destruct (progress o s Hff HW I F) as [(t & s1 & Hs)|Hfin].
  - destruct (IH (measure s1) (step_measure _ _ _ _ Hs) s1 eq_refl)
      as (s' & Hr' & Hfin).
    + by eapply inv_step.
    + by eapply ff_step.
    + exists s'. split; [|done]. eapply rtc_l; [by exists t|done].
  - exists s. split; [constructor|done].
Qed.

(** The script of a successful run. *)
Lemma finished_script o s :
  reachable o s -> asm s = AReturned \/ asm s = AExited 0%Z ->
  sed_file s = script_prefix o ++ flat_map (record o) (pages o).
Proof.
  intros Hr Ha. pose proof (inv_reachable _ _ Hr) as I.
  destruct (inv_asm _ _ I) as (done & rest & partial & Hp & Hsed & _ & Hok).
  unfold asm_ok in Hok.
  destruct Ha as [Ha|Ha]; rewrite Ha in Hok;
    [destruct Hok as [-> ->]|destruct (proj2 Hok eq_refl) as [-> ->]];
    rewrite Hsed, Hp; by rewrite !app_nil_r.
Qed.

(** *** Ends of runs *)

Lemma stuck_exited o s st :
  asm s = AExited st ->
  (forall w pc, workers s !! w = Some pc -> terminated pc = true) ->
  stuck o s.
Proof.
  intros Ha Hall [|w]; unfold step, main_thread; [by rewrite Ha|].
  destruct (workers s !! w) as [pc|] eqn:Hw; [|done].
  specialize (Hall _ _ Hw). by destruct pc.
Qed.

(** The main thread joins, holding the lock, a worker that wants the lock,
    and every other worker has ended or wants the lock too. *)
Lemma stuck_join o s k pc :
  asm s = AJoin k -> lock s = true ->
  workers s !! k = Some pc -> wants_lock pc = true ->
  (forall w pc', workers s !! w = Some pc' ->
     terminated pc' = true \/ wants_lock pc' = true) ->
  stuck o s.
Proof.
  intros Ha Hl Hk Hpc Hall [|w]; unfold step, main_thread.
  - rewrite Ha, Hk. by destruct pc as [[|]| | | | |].
  - destruct (workers s !! w) as [pc'|] eqn:Hw; [|done].
    destruct (Hall _ _ Hw) as [Ht|Hwl]; destruct pc' as [[|]| | | | |];
      simpl in *; by rewrite ?Hl.
Qed.

Lemma stuck_rtc o s s' : stuck o s -> rtc (step_rel o) s s' -> s' = s.
Proof.
  intros Hs Hr. destruct Hr as [|s1 s2 s3 [t Ht] _]; [done|].
  by rewrite Hs in Ht.
Qed.

(** *** The states of the examples *)

Lemma after_reachable o schedule : reachable o (after o schedule).
Proof.
  unfold after.
  destruct (run o schedule (init o)) as [s|] eqn:Hs; simpl.
  - by eapply run_reachable.
  - constructor.
Qed.

Lemma run_app o sch1 sch2 s :
  run o (sch1 ++ sch2) s
  = match run o sch1 s with
    | Some s1 => run o sch2 s1
    | None => None
    end.
Proof.
  revert s. induction sch1 as [|t sch1 IH]; intros s; simpl; [done|].
  by destruct (step o t s).
Qed.

(** A schedule that runs, cut in two. *)
Lemma after_continues o sch1 sch2 :
  is_Some (run o (sch1 ++ sch2) (init o)) ->
  rtc (step_rel o) (after o sch1) (after o (sch1 ++ sch2)).
Proof.
  unfold after. rewrite run_app.
  destruct (run o sch1 (init o)) as [s1|]; [|by intros [? ?]].
  intros [s2 Hs2]. rewrite Hs2. simpl. by eapply run_rtc.
Qed.

End SchedulerRuns.

Module SchedulerClaims.
Import Scheduler SchedulerFacts SchedulerRuns.
Local Open Scope nat_scope.

(** *** C1 *)

Lemma run_abort :
  (fun s => (observe s, results s !! 0, results s !! 1))
    <$> run o_abort schedule_abort (init o_abort)
  = Some ((AExited 1, [WCrashed (CalledProcessError 1)], false, true, true,
           [SSelect 0; SSetTxt],
           [EvClaim 0 0; EvResolve 0 0 (Failure (CalledProcessError 1)) false;
            EvNotify 0 0]),
          Some (Failure (CalledProcessError 1)), Some Unclaimed).
Proof. vm_compute. reflexivity. Qed.

Lemma not_every_page_claimed_once : ~ every_page_claimed_once o_abort.
Proof.
  intros Hclaim.
  pose proof run_abort as Hrun.
  destruct (run o_abort schedule_abort (init o_abort)) as [s|] eqn:Hs; [|done].
  unfold observe in Hrun. simpl in Hrun. simplify_eq.
  destruct (Hclaim s) as [Hall _].
  - by eapply run_reachable.
  - eapply stuck_exited; [eassumption|].
    intros w pc Hw.
    match goal with Hws : workers s = _ |- _ => rewrite Hws in Hw end.
    destruct w as [|w]; simpl in Hw; by simplify_eq.
  - destruct (Hall 1) as [w Hw]; [set_solver|].
    match goal with Htr : trace s = _ |- _ => rewrite Htr in Hw end.
    done.
Qed.


(** A step that adds a claim of page [n] is the test-and-set of a worker:
    taken with the lock free, it finds [None] and leaves [True]. *)
Lemma claim_step o t s s' n :
  step o t s = Some s' -> claimers n (trace s') <> claimers n (trace s) ->
  exists w, t = Worker w /\ lock s = false /\
            results s !! n = Some Unclaimed /\ results s' !! n = Some Claimed /\
            claimers n (trace s') = claimers n (trace s) ++ [w].
Proof.
  intros H Hneq.
  step_inv H; simpl in *; notify_simpl; simpl in *; claimers_simpl; try done.
  case_decide; [subst|done].
  eexists. split; [done|]. split; [done|]. split; [done|].
  split; [by rewrite lookup_insert_eq|done].
Qed.

Lemma completed_terminal o s :
  reachable o s -> asm s = AReturned \/ asm s = AExited 0%Z ->
  forall n, n ∈ pages o ->
  exists e, results s !! n = Some e /\ terminal e = true.
Proof.
  intros Hr Ha n Hn. pose proof (inv_reachable _ _ Hr) as I.
  destruct (inv_asm _ _ I) as (done & rest & partial & Hp & _ & Hdone & Hok).
  unfold asm_ok in Hok.
  assert (rest = []) as ->.
  { destruct Ha as [Ha|Ha]; rewrite Ha in Hok; [tauto|]. by destruct (proj2 Hok eq_refl). }
  rewrite Hp, app_nil_r in Hn.
  destruct (Hdone n Hn) as (e & He & Ht & _). eauto.
Qed.

Lemma results_dom o s :
  inv o s -> dom (results s) = list_to_set (pages o).
Proof.
  intros I. apply set_eq. intros n.
  by rewrite elem_of_dom, elem_of_list_to_set, (inv_keys _ _ I).
Qed.

Lemma results_size o s :
  inv o s -> size (results s) = length (remove_dups (pages o)).
Proof.
  intros I. rewrite <- size_dom, (results_dom _ _ I).
  rewrite <- (size_list_to_set (C := gset page_id) (remove_dups (pages o)))
    by apply NoDup_remove_dups.
  f_equal. apply set_eq. intros n.
  by rewrite !elem_of_list_to_set, elem_of_remove_dups.
Qed.

(** C1 (as amended).  In every run each page is claimed at most once, and
    only by the test-and-set of a worker under the lock.  In a run that
    has completed, every requested page has been claimed by exactly one
    worker and every entry of the Result Table is terminal: one entry per
    distinct requested page, N entries for N distinct pages.  When no page
    fails, every run with at least one worker can be continued to
    completion. *)
Theorem each_page_claimed_once (o : options) (s : state) :
  1 <= n_jobs o -> reachable o s ->
  (forall n, length (claimers n (trace s)) <= 1) /\
  (forall t s' n, step o t s = Some s' ->
     claimers n (trace s') <> claimers n (trace s) ->
     exists w, t = Worker w /\ lock s = false /\
               results s !! n = Some Unclaimed /\
               results s' !! n = Some Claimed /\
               claimers n (trace s') = claimers n (trace s) ++ [w]) /\
  (asm s = AReturned \/ asm s = AExited 0%Z ->
     (forall n, n ∈ pages o -> exists w, claimers n (trace s) = [w]) /\
     terminal_entries s = results s /\
     size (terminal_entries s) = length (remove_dups (pages o)) /\
     (NoDup (pages o) -> size (terminal_entries s) = length (pages o))) /\
  (failure_free o -> exists s', rtc (step_rel o) s s' /\ finished s').
Proof.
  intros HW Hr. pose proof (inv_reachable _ _ Hr) as I.
  split; [apply (inv_once _ _ I)|].
  split; [intros t s' n; apply claim_step|].
  split; [|intros Hff; by apply completion].
  intros Ha.
  assert (terminal_entries s = results s) as Hall.
  { apply map_filter_id. intros n e He. simpl.
    assert (n ∈ pages o) as Hn by (apply (inv_keys _ _ I); eauto).
    destruct (completed_terminal _ _ Hr Ha n Hn) as (e' & He' & Ht).
    congruence. }
  split; [|split; [done|]].
  - intros n Hn.
    destruct (completed_terminal _ _ Hr Ha n Hn) as (e & He & Ht).
    assert (length (claimers n (trace s)) = 1) as Hlen.
    { eapply (inv_claimed _ _ I); [done|]. by destruct e. }
    destruct (claimers n (trace s)) as [|w [|]]; simpl in Hlen; try lia.
    by exists w.
  - rewrite Hall. split; [by apply (results_size _ _ I)|].
    intros Hnd. rewrite <- size_dom, (results_dom _ _ I).
    by apply size_list_to_set.
Qed.


Lemma s_rev_reachable : reachable o_rev s_rev.
Proof.
  unfold s_rev.
  destruct (run o_rev schedule_rev (init o_rev)) as [s|] eqn:Hs; simpl.
  - by eapply run_reachable.
  - constructor.
Qed.

Lemma s_rev_observe :
  observe s_rev
  = (AExited 0, [WDone], false, false, false,
     [SRemoveTxt; SSelect 1; SSetTxt; SText "(page 0 0 1 1)"; SEnd;
      SSelect 0; SSetTxt; SEnd],
     [EvClaim 0 1; EvResolve 0 1 (Success "(page 0 0 1 1)") true; EvNotify 0 1;
      EvClaim 0 0; EvResolve 0 0 NoImage true; EvNotify 0 0]).
Proof. vm_compute. reflexivity. Qed.

Lemma each_page_claimed_once_witness :
  (forall n, length (claimers n (trace s_rev)) <= 1) /\
  (forall n, n ∈ pages o_rev -> exists w, claimers n (trace s_rev) = [w]) /\
  size (terminal_entries s_rev) = 2.
Proof.
  destruct (each_page_claimed_once o_rev s_rev) as (Hle & _ & Hdone & _).
  - simpl. lia.
  - exact s_rev_reachable.
  - split; [exact Hle|].
    destruct Hdone as (Hall & _ & _ & Hsize).
    + right. exact (f_equal (fun v => v.1.1.1.1.1.1) s_rev_observe).
    + split; [exact Hall|]. apply Hsize.
      apply NoDup_cons_2; [|apply NoDup_singleton].
      rewrite list_elem_of_singleton. discriminate.
Defined.

(** *** C3 *)

Lemma selected_app (ws1 ws2 : list sed_write) :
  selected (ws1 ++ ws2) = selected ws1 ++ selected ws2.
Proof.
  induction ws1 as [|[] ws1 IH]; simpl; try done. by rewrite IH.
Qed.

Lemma selected_records o (l : list page_id) :
  selected (flat_map (record o) l) = l.
Proof.
  induction l as [|n l IH]; [done|].
  simpl. rewrite selected_app, IH.
  by destruct (process_page o n).
Qed.

Lemma selected_prefix o : selected (script_prefix o) = [].
Proof. unfold script_prefix. by destruct (clear_text o). Qed.

Lemma script_shape o s :
  inv o s ->
  exists done rest partial,
    pages o = done ++ rest /\
    sed_file s = script_prefix o ++ flat_map (record o) done ++ partial /\
    partial_record rest partial.
Proof.
  intros I.
  destruct (inv_asm _ _ I) as (done & rest & partial & Hp & Hsed & _ & Hok).
  exists done, rest, partial. split; [done|]. split; [done|].
  unfold asm_ok in Hok. unfold partial_record.
  destruct (asm s); shape_solver.
Qed.

Lemma records_not_ascending :
  (let! l := Utils.parse_page_numbers (Some "2,1"%string) in
   PageSource.select_pages 2 l)
  = Return (pages o_rev) /\
  ~ records_ascending o_rev.
Proof.
  split; [reflexivity|]. intros Hclaim.
  specialize (Hclaim s_rev s_rev_reachable).
  pose proof s_rev_observe as Hobs. unfold observe in Hobs. simplify_eq.
  match goal with Hsed : sed_file s_rev = _ |- _ => rewrite Hsed in Hclaim end.
  simpl in Hclaim. specialize (Hclaim ltac:(done)).
  apply StronglySorted_inv in Hclaim as [_ Hlt].
  apply Forall_inv in Hlt. lia.
Qed.

(** C3 (as amended).  Whatever the order in which the workers finish, the
    record groups written so far are those of an initial segment of the
    requested page sequence, in the order of that sequence; a completed
    script holds exactly one group per requested page, in request order;
    this is the ascending order when the pages were requested in
    ascending order (in particular when all pages are processed). *)
Theorem records_in_request_order (o : options) (s : state) :
  reachable o s ->
  selected (sed_file s) `prefix_of` pages o /\
  (asm s = AReturned \/ asm s = AExited 0%Z ->
     sed_file s = script_prefix o ++ flat_map (record o) (pages o) /\
     selected (sed_file s) = pages o) /\
  (StronglySorted lt (pages o) -> StronglySorted lt (selected (sed_file s))) /\
  (forall n_document_pages,
     pages o = seq 0 n_document_pages -> StronglySorted lt (pages o)).
Proof.
  intros Hr. pose proof (inv_reachable _ _ Hr) as I.
  assert (selected (sed_file s) `prefix_of` pages o) as Hpre.
  { destruct (script_shape _ _ I) as (done & rest & partial & Hp & Hsed & Hpart).
    rewrite Hsed, Hp, !selected_app, selected_prefix, selected_records. simpl.
    destruct Hpart as [->|(n & r & -> & ->)]; simpl.
    - rewrite app_nil_r. by apply prefix_app_r.
    - apply prefix_app, prefix_cons, prefix_nil. }
  split; [done|]. split; [|split].
  - intros Ha. pose proof (finished_script _ _ Hr Ha) as Hsed.
    split; [done|].
    by rewrite Hsed, selected_app, selected_prefix, selected_records.
  - intros Hsorted. destruct Hpre as [k Hk]. rewrite Hk in Hsorted.
    by apply StronglySorted_app_1_l in Hsorted.
  - intros N ->. generalize 0. induction N as [|N IH]; intros k; simpl.
    + constructor.
    + constructor; [apply IH|]. apply Forall_forall. intros x Hx.
      apply list_elem_of_In, in_seq in Hx. lia.
Qed.


Lemma records_in_request_order_witness :
  selected (sed_file s_rev) `prefix_of` pages o_rev /\
  selected (sed_file s_rev) = [1; 0].
Proof.
  destruct (records_in_request_order o_rev s_rev s_rev_reachable)
    as (Hpre & Hdone & _).
  split; [exact Hpre|].
  apply Hdone. right. exact (f_equal (fun v => v.1.1.1.1.1.1) s_rev_observe).
Defined.

(** *** C4 *)

Lemma run_skip :
  (fun s => (observe s, results s !! 0, results s !! 1))
    <$> run o_skip schedule_skip (init o_skip)
  = Some ((AExited 1, [WCrashed (CalledProcessError 1); WDone], false, true,
           true, [SSelect 0; SSetTxt],
           [EvClaim 0 0; EvClaim 1 1; EvResolve 1 1 NoImage true; EvNotify 1 1;
            EvResolve 0 0 (Failure (CalledProcessError 1)) false;
            EvNotify 0 0]),
          Some (Failure (CalledProcessError 1)), Some NoImage).
Proof. vm_compute. reflexivity. Qed.

(** Page 1 has no image and page 0 fails.  Worker 1 stores [False] for
    page 1 and ends; the main thread, at page 0, reads the Failure, joins
    both workers and leaves with [sys.exit(1)]: the run is aborted, and
    the script has no record group for page 1. *)
Lemma no_image_page_dropped_by_abort : ~ no_image_always_recorded o_skip.
Proof.
  intros Hclaim.
  pose proof run_skip as Hrun.
  destruct (run o_skip schedule_skip (init o_skip)) as [s|] eqn:Hs; [|done].
  unfold observe in Hrun. simpl in Hrun. simplify_eq.
  destruct (Hclaim 1 s) as (_ & _ & Ha).
  - apply list_elem_of_In. simpl. auto.
  - done.
  - by eapply run_reachable.
  - eapply stuck_exited; [eassumption|].
    intros w pc Hw.
    match goal with Hws : workers s = _ |- _ => rewrite Hws in Hw end.
    destruct w as [|[|w]]; simpl in Hw; by simplify_eq.
  - congruence.
Qed.

Lemma s_rev_stuck : stuck o_rev s_rev.
Proof.
  pose proof s_rev_observe as Hobs. unfold observe in Hobs. simplify_eq.
  eapply stuck_exited; [eassumption|].
  intros w pc Hw.
  match goal with Hws : workers s_rev = _ |- _ => rewrite Hws in Hw end.
  destruct w as [|w]; simpl in Hw; by simplify_eq.
Qed.

(** C4 (as amended).  A page whose pipeline raises [NotAvailable] gets the
    result [False]: once the worker has the lock it stores NoImage, never
    a Failure, and goes on with its remaining pages; the main thread, when
    it reads that entry, writes a record group with an empty body and goes
    on with the next page without touching the debug flag.  When no page
    fails, the saver works and there is a worker, the run is never
    aborted, no worker crashes, every run can be continued to the
    successful end with the record groups of all requested pages in the
    script, and a run that has come to its end has the entry NoImage and
    the empty record group of the page, with exit status 0. *)
Theorem no_image_is_not_a_failure (o : options) (n : page_id) :
  process_page o n = NotAvailable ->
  (forall s w rest, workers s !! w = Some (WProcess n rest) ->
     step o (Worker w) s = Some (set_worker w (WStore n RFalse rest) s)) /\
  (forall s w rest, reachable o s -> lock s = false ->
     workers s !! w = Some (WStore n RFalse rest) ->
     exists s', step o (Worker w) s = Some s' /\
       results s' !! n = Some NoImage /\ workers s' !! w = Some (WLoop rest)) /\
  (forall s ex, reachable o s -> results s !! n <> Some (Failure ex)) /\
  (forall s rest, asm s = ACheck n rest -> results s !! n = Some NoImage ->
     exists s', step o Main s = Some s' /\ asm s' = AStart rest /\
       sed_file s' = sed_file s ++ [SEnd] /\ debug s' = debug s /\
       lock s' = false) /\
  record o n = [SSelect n; SSetTxt; SEnd] /\
  (failure_free o -> 1 <= n_jobs o -> forall s, reachable o s ->
     asm_good (asm s) = true /\
     (forall w pc, workers s !! w = Some pc -> crashed pc = false) /\
     exists s', rtc (step_rel o) s s' /\ finished s' /\
       sed_file s' = script_prefix o ++ flat_map (record o) (pages o)) /\
  (failure_free o -> 1 <= n_jobs o -> n ∈ pages o ->
     forall s, reachable o s -> stuck o s ->
     results s !! n = Some NoImage /\
     (exists before after,
        sed_file s = before ++ [SSelect n; SSetTxt; SEnd] ++ after) /\
     asm s = AExited 0%Z).
Proof.
  intros Hn.
  assert (record o n = [SSelect n; SSetTxt; SEnd]) as Hrec
    by (unfold record; by rewrite Hn).
  split; [|split; [|split; [|split; [|split; [|split]]]]].
  - intros s w rest Hw. unfold step. rewrite Hw. simpl. by rewrite Hn.
  - intros s w rest Hr Hl Hw. pose proof (inv_reachable _ _ Hr) as I.
    own_of I Hw. unfold step. rewrite Hw. simpl. rewrite Hl, Hc.
    eexists. split; [done|]. notify_simpl. simpl.
    split; [by rewrite lookup_insert_eq|].
    apply list_lookup_insert_eq. by eapply lookup_lt_Some.
  - intros s ex Hr He. pose proof (inv_reachable _ _ Hr) as I.
    pose proof (inv_match _ _ I _ _ He eq_refl) as Hout.
    rewrite Hn in Hout. done.
  - intros s rest Ha He. unfold step, main_thread. rewrite Ha, He.
    eexists. done.
  - exact Hrec.
  - intros Hff HW s Hr.
    split; [by apply (ff_reachable _ _ Hff Hr)|].
    split; [by apply (ff_reachable _ _ Hff Hr)|].
    destruct (completion o s Hff HW Hr) as (s' & Hr' & Hfin).
    exists s'. split; [done|]. split; [done|].
    apply finished_script; [|right; apply Hfin].
    by eapply rtc_trans.
  - intros Hff HW Hin s Hr Hst.
    destruct (completion o s Hff HW Hr) as (s' & Hr' & Ha & _).
    apply (stuck_rtc _ _ _ Hst) in Hr' as ->.
    split; [|split; [|done]].
    + destruct (completed_terminal _ _ Hr (or_intror Ha) n Hin) as (e & He & Ht).
      rewrite He. f_equal.
      rewrite (inv_match _ _ (inv_reachable _ _ Hr) _ _ He Ht). by rewrite Hn.
    + rewrite (finished_script _ _ Hr (or_intror Ha)).
      apply list_elem_of_split in Hin as (l1 & l2 & ->).
      exists (script_prefix o ++ flat_map (record o) l1), (flat_map (record o) l2).
      rewrite flat_map_app. cbn [flat_map]. rewrite Hrec.
      by rewrite <- !app_assoc.
Qed.

Lemma no_image_is_not_a_failure_witness :
  record o_rev 0 = [SSelect 0; SSetTxt; SEnd] /\
  results s_rev !! 0 <> Some (Failure IOError) /\
  sed_contents o_rev (record o_rev 0)
  = ("select 'p.djvu'" +:+ SedScript.newline +:+ "set-txt" +:+ SedScript.newline
     +:+ SedScript.newline +:+ "." +:+ SedScript.newline +:+ SedScript.newline)%string /\
  results s_rev !! 0 = Some NoImage /\
  asm s_rev = AExited 0%Z.
Proof.
  destruct (no_image_is_not_a_failure o_rev 0)
    as (_ & _ & Hnf & _ & Hrec & _ & Hend).
  - reflexivity.
  - split; [exact Hrec|]. split; [|split; [reflexivity|]].
    + apply Hnf. exact s_rev_reachable.
    + destruct (Hend) with (s := s_rev) as (He & _ & Ha).
      * split; [|reflexivity]. intros m ex _. by destruct m as [|m].
      * simpl. lia.
      * apply list_elem_of_In. simpl. auto.
      * exact s_rev_reachable.
      * exact s_rev_stuck.
      * split; [exact He|exact Ha].
Defined.


(** *** C2: after the main thread has read a Failure *)

Lemma joining_step o t s s' :
  inv o s -> joining s -> step o t s = Some s' ->
  joining s' /\
  (forall n, claimers n (trace s') = claimers n (trace s)) /\
  (forall n, results s !! n = Some Unclaimed -> results s' !! n = Some Unclaimed) /\
  sed_file s' = sed_file s.
Proof.
  intros I [Hab Hj] H. destruct t as [|w].
  - step_inv H; simpl in *; try done.
    + split; [|done]. split; [done|]. left. eauto.
    + split; [|done]. split; [done|]. right. intros w pc Hw.
      match goal with Hk : workers _ !! ?k = None, Ha : asm _ = AJoin ?k |- _ =>
        apply lookup_ge_None in Hk;
        eapply (inv_join _ _ I _ w _ Ha); [|done] end.
      simpl in Hw. apply lookup_lt_Some in Hw. lia.
    + split; [|done]. split; [done|]. right.
      destruct Hj as [[k Hk]|Hall]; [congruence|done].
  - destruct Hj as [[k Hk]|Hall].
    2: { unfold step in H. destruct (workers s !! w) as [pc|] eqn:Hw; [|done].
         specialize (Hall _ _ Hw). by destruct pc. }
    pose proof (inv_lock _ _ I) as Hl. rewrite Hk in Hl. simpl in Hl.
    step_inv H; simpl in *; notify_simpl; simpl in *; claimers_simpl;
      try congruence.
    all: split; [split; [simpl; by rewrite Hk|left; simpl; eauto]|].
    all: split; [intros n0; by claimers_simpl|].
    all: split; [|done]. all: try done.
    intros n0 Hn0. rewrite lookup_insert_ne; [done|]. intros ->.
    match goal with Hw : workers _ !! _ = Some (WProcess _ _) |- _ =>
      own_of I Hw; congruence end.
Qed.

Lemma joining_rtc o s s' :
  inv o s -> joining s -> rtc (step_rel o) s s' ->
  joining s' /\
  (forall n, claimers n (trace s') = claimers n (trace s)) /\
  (forall n, results s !! n = Some Unclaimed -> results s' !! n = Some Unclaimed) /\
  sed_file s' = sed_file s.
Proof.
  intros I J Hr. induction Hr as [|s1 s2 s3 [t Ht] _ IH]; [done|].
  destruct (joining_step _ _ _ _ I J Ht) as (J2 & Hc & Hu & Hsed).
  destruct IH as (J3 & Hc3 & Hu3 & Hsed3); [by eapply inv_step|done|].
  split; [done|]. split; [|split].
  - intros n. by rewrite Hc3, Hc.
  - intros n Hn. by apply Hu3, Hu.
  - by rewrite Hsed3, Hsed.
Qed.

(** A worker with a page in flight stays where it is, or gets as far as
    the entry of its next [with condition:] block, while the main thread
    joins. *)
Lemma processing_step o t s s' w pc n :
  inv o s -> joining s -> workers s !! w = Some pc -> processing pc n ->
  step o t s = Some s' ->
  exists pc', workers s' !! w = Some pc' /\ processing pc' n.
Proof.
  intros I [_ Hj] Hw Hp H.
  destruct Hj as [[k Hk]|Hall]; [|specialize (Hall _ _ Hw); by destruct pc].
  pose proof (inv_lock _ _ I) as Hl. rewrite Hk in Hl. simpl in Hl.
  pose proof (lookup_lt_Some _ _ _ Hw) as Hlt.
  destruct t as [|w0].
  - exists pc. split; [|done].
    unfold step, main_thread in H. rewrite Hk in H.
    destruct (workers s !! k) as [pck|]; [destruct (terminated pck)|];
      by simplify_eq.
  - unfold step in H. destruct (workers s !! w0) as [pc0|] eqn:Hw0; [|done].
    destruct (decide (w0 = w)) as [->|Hne].
    + simplify_eq.
      destruct pc as [rest|m rest|m r rest|m ex| |]; simpl in *;
        rewrite ?Hl in H; try done.
      subst m. destruct (process_page o n); simplify_eq; simpl;
        eexists; (split; [by apply list_lookup_insert_eq|done]).
    + exists pc.
      destruct pc0 as [[|m0 rest0]|m0 rest0|m0 r0 rest0|m0 ex0| |]; simpl in H;
        rewrite ?Hl in H; try done;
        try destruct (process_page o m0); simplify_eq; simpl;
        (split; [by rewrite list_lookup_insert_ne|done]).
Qed.

Lemma processing_rtc o s s' w pc n :
  inv o s -> joining s -> workers s !! w = Some pc -> processing pc n ->
  rtc (step_rel o) s s' ->
  exists pc', workers s' !! w = Some pc' /\ processing pc' n.
Proof.
  intros I J Hw Hp Hr. revert pc Hw Hp.
  induction Hr as [|s1 s2 s3 [t Ht] _ IH]; intros pc Hw Hp; [eauto|].
  destruct (processing_step _ _ _ _ _ _ _ I J Hw Hp Ht) as (pc2 & Hw2 & Hp2).
  destruct (joining_step _ _ _ _ I J Ht) as (J2 & _).
  eapply IH; [by eapply inv_step|done|exact Hw2|exact Hp2].
Qed.

(** C2, where the code departs from it.  There is no cancellation flag.
    When the main thread reads the Failure of a page it keeps the lock and
    joins the workers.  From then on no worker claims a page, the pages
    that are unclaimed stay unclaimed, and the script stops after the
    select and set-txt lines of the failed page.  But a page [n] that worker
    [w] has in flight at that moment is never finished: whatever happens
    next, worker [w] still has page [n] in hand and has not ended, the
    main thread still holds the lock and is still joining, at worker [w]
    or before it, so that the process has not ended; and unless the
    pipeline of page [n] fails too, its entry is still [True]. *)
Theorem inflight_page_never_stored (o : options) (s s' : state)
    (w : nat) (pc : wpc) (n : page_id) :
  reachable o s -> failure_observed s ->
  workers s !! w = Some pc -> owns pc n ->
  rtc (step_rel o) s s' ->
  (exists k, asm s' = AJoin k /\ k <= w) /\
  lock s' = true /\
  (forall status, asm s' <> AExited status) /\
  (exists pc', workers s' !! w = Some pc' /\ processing pc' n /\
     terminated pc' = false) /\
  ((forall ex, process_page o n <> Failed ex) ->
     results s' !! n = Some Claimed) /\
  (forall m, claimers m (trace s') = claimers m (trace s)) /\
  (forall m, results s !! m = Some Unclaimed ->
     results s' !! m = Some Unclaimed) /\
  (exists done k rest ex,
     pages o = done ++ k :: rest /\
     results s !! k = Some (Failure ex) /\ process_page o k = Failed ex /\
     sed_file s' = script_prefix o ++ flat_map (record o) done
                   ++ [SSelect k; SSetTxt]).
Proof.
  intros Hr [k Hk] Hw Ho Hrtc. pose proof (inv_reachable _ _ Hr) as I.
  pose proof (inv_rtc _ _ _ I Hrtc) as I'.
  assert (joining s) as J by (split; [by rewrite Hk|left; eauto]).
  assert (processing pc n) as Hp by (by destruct pc).
  destruct (joining_rtc _ _ _ I J Hrtc) as ([_ J'] & Hc & Hu & Hsed).
  destruct (processing_rtc _ _ _ _ _ _ I J Hw Hp Hrtc) as (pc' & Hw' & Hp').
  assert (terminated pc' = false) as Ht by (by destruct pc').
  destruct J' as [[k' Hk']|Hall];
    [|specialize (Hall _ _ Hw'); congruence].
  split; [|split; [|split; [|split; [|split; [|split; [|split]]]]]].
  - exists k'. split; [done|].
    destruct (decide (k' <= w)) as [|Hgt]; [done|].
    assert (w < k') as Hlt by lia.
    pose proof (inv_join _ _ I' _ _ _ Hk' Hlt Hw'). congruence.
  - by rewrite (inv_lock _ _ I'), Hk'.
  - intros status. by rewrite Hk'.
  - eauto.
  - intros Hok.
    destruct pc' as [rest|m rest|m r rest|m ex| |]; simpl in Hp'; try done;
      subst m.
    + by destruct (inv_own _ _ I' _ _ n Hw' eq_refl).
    + by destruct (inv_own _ _ I' _ _ n Hw' eq_refl).
    + pose proof (inv_raise _ _ I' _ _ _ Hw') as He.
      pose proof (inv_match _ _ I' _ _ He eq_refl) as Hout.
      apply entry_of_outcome_Failure in Hout.
      by destruct (Hok ex).
  - done.
  - done.
  - destruct (inv_asm _ _ I) as (done & rest & partial & Hpg & Hs & _ & Hok).
    unfold asm_ok in Hok. rewrite Hk in Hok.
    destruct Hok as (m & r & ex & -> & -> & Hm).
    exists done, m, r, ex. split; [done|]. split; [done|].
    split; [|by rewrite Hsed].
    apply entry_of_outcome_Failure. by apply (inv_match _ _ I).
Qed.

(** Two workers; page 0 fails while page 1 is being recognized.  After
    the main thread has read the Failure, page 1 is recognized and
    worker 0 is joined: worker 1 has its text but cannot store it, and
    the main thread waits for worker 1 with the lock in hand. *)
Lemma inflight_page_never_stored_witness :
  (asm (after o_two schedule_inflight) = AJoin 0 /\
   workers (after o_two schedule_inflight) !! 1 = Some (WProcess 1 [])) /\
  (exists k, asm (after o_two schedule_blocked) = AJoin k /\ k <= 1) /\
  lock (after o_two schedule_blocked) = true /\
  (forall status, asm (after o_two schedule_blocked) <> AExited status) /\
  results (after o_two schedule_blocked) !! 1 = Some Claimed.
Proof.
  split; [split; vm_compute; reflexivity|].
  destruct (inflight_page_never_stored o_two (after o_two schedule_inflight)
              (after o_two schedule_blocked) 1 (WProcess 1 []) 1)
    as (Hj & Hl & He & _ & Hc & _).
  - apply after_reachable.
  - exists 0. vm_compute. reflexivity.
  - vm_compute. reflexivity.
  - reflexivity.
  - apply after_continues. vm_compute. eauto.
  - split; [exact Hj|]. split; [exact Hl|]. split; [exact He|].
    apply Hc. intros ex. discriminate.
Defined.

Lemma s_two_reachable : reachable o_two s_two.
Proof.
  unfold s_two.
  destruct (run o_two schedule_two (init o_two)) as [s|] eqn:Hs; simpl.
  - by eapply run_reachable.
  - constructor.
Qed.

Lemma s_two_observe :
  (observe s_two, results s_two !! 0, results s_two !! 1)
  = ((AJoin 1,
      [WCrashed (CalledProcessError 1); WStore 1 (RText "(page 0 0 1 1)") []],
      true, false, true, [SSelect 0; SSetTxt],
      [EvClaim 0 0; EvClaim 1 1;
       EvResolve 0 0 (Failure (CalledProcessError 1)) false; EvNotify 0 0]),
     Some (Failure (CalledProcessError 1)), Some Claimed).
Proof. vm_compute. reflexivity. Qed.

Lemma s_two_stuck : stuck o_two s_two.
Proof.
  pose proof s_two_observe as Hobs. unfold observe in Hobs. simplify_eq.
  eapply (stuck_join _ _ 1); try eassumption.
  - match goal with Hw : workers s_two = _ |- _ => by rewrite Hw end.
  - done.
  - intros w pc Hw.
    match goal with Hws : workers s_two = _ |- _ => rewrite Hws in Hw end.
    destruct w as [|[|w]]; simpl in Hw; simplify_eq; auto.
Qed.

Lemma s_two_asm : asm s_two = AJoin 1.
Proof. exact (f_equal (fun v => v.1.1.1.1.1.1.1.1) s_two_observe). Qed.

Lemma s_two_workers :
  workers s_two
  = [WCrashed (CalledProcessError 1); WStore 1 (RText "(page 0 0 1 1)") []].
Proof. exact (f_equal (fun v => v.1.1.1.1.1.1.1.2) s_two_observe). Qed.


(** *** C5: how a Failure is stored *)

(** C5 at the failing input.  The worker has claimed the page; the main
    thread has written the select and set-txt lines and holds the lock, about to read
    the entry.  The worker's pipeline fails and the worker stores the
    Failure at once, while the main thread holds the lock: the assignment
    is outside any [with condition:] block, and the notification is a
    later critical section.  Here it never comes: the main thread reads
    the Failure and joins the worker without releasing the lock, the
    worker waits for the lock to notify, and nothing can move. *)
Theorem failure_stored_without_lock :
  let s1 := after o_one [Worker 0; Main; Main] in
  let s2 := after o_one [Worker 0; Main; Main; Worker 0] in
  let s3 := after o_one [Worker 0; Main; Main; Worker 0; Main] in
  (asm s1 = ACheck 0 [] /\ lock s1 = true /\
   workers s1 = [WProcess 0 []] /\ results s1 !! 0 = Some Claimed) /\
  step o_one (Worker 0) s1 = Some s2 /\
  (results s2 !! 0 = Some (Failure (CalledProcessError 1)) /\
   lock s2 = true /\ workers s2 = [WRaise 0 (CalledProcessError 1)] /\
   trace s2 = [EvClaim 0 0;
               EvResolve 0 0 (Failure (CalledProcessError 1)) false]) /\
  step o_one Main s2 = Some s3 /\
  (asm s3 = AJoin 0 /\ lock s3 = true /\
   workers s3 = [WRaise 0 (CalledProcessError 1)]) /\
  stuck o_one s3.
Proof.
  intros s1 s2 s3.
  split; [by vm_compute|]. split; [by vm_compute|].
  split; [by vm_compute|]. split; [by vm_compute|].
  assert (asm s3 = AJoin 0 /\ lock s3 = true /\
          workers s3 = [WRaise 0 (CalledProcessError 1)]) as H3 by (by vm_compute).
  split; [done|]. destruct H3 as (Ha & Hl & Hw).
  eapply (stuck_join _ _ 0); [done|done|by rewrite Hw|done|].
  intros w pc Hpc. rewrite Hw in Hpc.
  destruct w as [|w]; simpl in Hpc; simplify_eq. by right.
Qed.

(** *** C6: the end of a failed run *)

(** C6 at the failing input.  Two workers; page 0 fails while page 1 is in
    flight.  The main thread reads the Failure and joins the workers
    inside its [with condition:] block; worker 1 needs the lock to store
    its result; nothing can move, so [self._debug = True] and
    [sys.exit(1)] are never reached and the process has no exit status. *)
Theorem join_under_lock_deadlocks :
  reachable o_two s_two /\
  failure_observed s_two /\
  lock s_two = true /\
  workers s_two
  = [WCrashed (CalledProcessError 1); WStore 1 (RText "(page 0 0 1 1)") []] /\
  stuck o_two s_two /\
  debug s_two = false /\
  (forall s', rtc (step_rel o_two) s_two s' ->
     forall st, asm s' <> AExited st).
Proof.
  split; [exact s_two_reachable|]. split; [exists 1; exact s_two_asm|].
  split; [exact (f_equal (fun v => v.1.1.1.1.1.1.2) s_two_observe)|].
  split; [exact s_two_workers|]. split; [exact s_two_stuck|].
  split; [exact (f_equal (fun v => v.1.1.1.1.1.2) s_two_observe)|].
  intros s' Hr st. apply (stuck_rtc _ _ _ s_two_stuck) in Hr as ->.
  by rewrite s_two_asm.
Qed.

Lemma exit_ok_step o t s s' : exit_ok s -> step o t s = Some s' -> exit_ok s'.
Proof.
  unfold exit_ok. intros E H. destruct t as [|w].
  - step_inv H; simpl in *; try done; intros ?; simplify_eq; try done;
      by repeat split.
  - assert (debug s' = debug s /\ temp_dir_exists s' = temp_dir_exists s /\
            left_dir s' = left_dir s) as (-> & -> & ->).
    { step_inv H; simpl; unfold notify; by repeat case_match. }
    destruct (worker_step_asm _ _ _ _ H) as [->|(n & r & Ha & ->)]; [done|].
    by rewrite Ha in E.
Qed.

Lemma exit_ok_rtc o s s' : exit_ok s -> rtc (step_rel o) s s' -> exit_ok s'.
Proof.
  intros E Hr. induction Hr as [|s1 s2 s3 [t Ht] _ IH]; [done|].
  apply IH. by eapply exit_ok_step.
Qed.

Lemma exit_ok_reachable o s : reachable o s -> exit_ok s.
Proof. apply exit_ok_rtc. by unfold exit_ok. Qed.

Lemma sed_file_kept o s s' :
  rtc (step_rel o) s s' -> sed_file s `prefix_of` sed_file s'.
Proof.
  intros Hr. induction Hr as [|s1 s2 s3 [t Ht] _ IH]; [done|].
  etrans; [|exact IH].
  step_inv Ht; simpl; notify_simpl; simpl; try done; by apply prefix_app_r.
Qed.

Lemma failed_exit_keeps_files o s s' st :
  reachable o s -> rtc (step_rel o) s s' -> asm s' = AExited st ->
  (failure_observed s \/ (exists ex, asm s = ARaised ex)) ->
  st = 1%Z /\ debug s' = true /\ temp_dir_exists s' = true /\
  left_dir s' = true /\ sed_file s `prefix_of` sed_file s'.
Proof.
  intros Hr Hrtc Ha Hfail.
  assert (aborting (asm s') = true) as Hab.
  { assert (aborting (asm s) = true) as Hab0
      by (destruct Hfail as [[k ->]|[ex ->]]; done).
    clear Hr Hfail Ha. induction Hrtc as [|s1 s2 s3 [t Ht] _ IH]; [done|].
    apply IH. destruct t as [|w].
    - step_inv Ht; simpl in *; done.
    - destruct (worker_step_asm _ _ _ _ Ht) as [->|(n & r & Hw & ->)]; [done|].
      by rewrite Hw in Hab0. }
  rewrite Ha in Hab. simpl in Hab. apply Z.eqb_eq in Hab as ->.
  split; [done|].
  assert (exit_ok s') as E.
  { eapply exit_ok_reachable. by eapply rtc_trans. }
  unfold exit_ok in E. rewrite Ha in E.
  destruct E as (? & ? & ?); [done|].
  repeat split; try done. by eapply sed_file_kept.
Qed.

End SchedulerClaims.

(** ** More on [parse_page_numbers] and the page selection *)

Module UtilsMore.
Import Utils PageSource UtilsFacts.

(** *** [str.split] with one cut *)

Lemma split_max_0 (sep : ascii) (s : string) : split_max sep 0 s = [s].
Proof. by destruct s. Qed.

Lemma split_max_1 (sep : ascii) (s : string) :
  contains sep s = true ->
  exists sx sy, split_max sep 1 s = [sx; sy] /\
                s = (sx +:+ String sep sy)%string /\ contains sep sx = false.
Proof.
  induction s as [|c s IH]; simpl; [done|].
  destruct (Ascii.eqb c sep) eqn:Hc; simpl.
  - intros _. apply Ascii.eqb_eq in Hc as ->. rewrite split_max_0.
    by exists EmptyString, s.
  - intros Hs. destruct (IH Hs) as (sx & sy & -> & -> & Hsx).
    exists (String c sx), sy. simpl. by rewrite Hc.
Qed.

(** *** [int] *)

Lemma digit_value_bounds (c : ascii) (d : Z) :
  digit_value c = Some d -> 0 <= d <= 9.
Proof.
  unfold digit_value.
  destruct (Nat.leb 48 (nat_of_ascii c) && Nat.leb (nat_of_ascii c) 57)%bool eqn:H;
    [|done].
  intros [= <-]. apply andb_true_iff in H as [H1 H2].
  apply Nat.leb_le in H1, H2. lia.
Qed.

Lemma digits_nonneg (seen : bool) (acc : Z) (s : string) (v : Z) :
  0 <= acc -> digits seen acc s = Return v -> 0 <= v.
Proof.
  revert seen acc; induction s as [|c s IH]; intros seen acc Hacc; simpl.
  - destruct seen; [|done]. by intros [= <-].
  - destruct (digit_value c) as [d|] eqn:Hd.
    + apply digit_value_bounds in Hd. apply IH. lia.
    + destruct (seen && isspace c)%bool; [|done].
      destruct (lstrip s); [|done]. by intros [= <-].
Qed.

Lemma digits_error (seen : bool) (acc : Z) (s : string) (e : exn) :
  digits seen acc s = Raise e -> e = ValueError.
Proof.
  revert seen acc; induction s as [|c s IH]; intros seen acc; simpl.
  - destruct seen; [done|]. by intros [= <-].
  - destruct (digit_value c) as [d|]; [apply IH|].
    destruct (seen && isspace c)%bool; [|by intros [= <-]].
    destruct (lstrip s); [done|by intros [= <-]].
Qed.

Lemma int_cases (s : string) :
  (exists s', lstrip s = String "+" s' /\ int s = digits false 0 (lstrip s')) \/
  (exists s', lstrip s = String "-" s' /\
              int s = let! v := digits false 0 (lstrip s') in Return (- v)) \/
  (contains "-" (substring 0 1 (lstrip s)) = false /\
   int s = digits false 0 (lstrip s)).
Proof.
  unfold int. destruct (lstrip s) as [|c s']; [by right; right|].
  destruct c as [[] [] [] [] [] [] [] []];
    solve [ left; by eexists | right; left; by eexists
          | right; right; split; [by destruct s'|done] ].
Qed.

Lemma int_error (s : string) (e : exn) : int s = Raise e -> e = ValueError.
Proof.
  destruct (int_cases s) as [(s' & _ & ->)|[(s' & _ & ->)|(_ & ->)]];
    try apply digits_error.
  destruct (digits false 0 (lstrip s')) eqn:Hd; simpl; [done|].
  intros [= <-]. by eapply digits_error.
Qed.

Lemma contains_lstrip (sep : ascii) (s : string) :
  contains sep s = false -> contains sep (lstrip s) = false.
Proof.
  induction s as [|c s IH]; simpl; [done|].
  destruct (isspace c); simpl; [|done].
  intros H. apply orb_false_iff in H as [_ H]. by apply IH.
Qed.

Lemma int_nonneg (s : string) (v : Z) :
  contains "-" s = false -> int s = Return v -> 0 <= v.
Proof.
  intros Hs. apply contains_lstrip in Hs.
  destruct (int_cases s) as [(s' & _ & ->)|[(s' & Hm & _)|(_ & ->)]];
    try (by apply digits_nonneg).
  by rewrite Hm in Hs.
Qed.

(** *** One item *)

Lemma elem_of_range (x : Z) (n : nat) (z : Z) :
  z ∈ map (fun i => x + Z.of_nat i) (seq 0 n) <-> x <= z < x + Z.of_nat n.
Proof.
  rewrite list_elem_of_In, in_map_iff. split.
  - intros (i & <- & Hi). apply in_seq in Hi. lia.
  - intros Hz. exists (Z.to_nat (z - x)). split; [lia|]. apply in_seq. lia.
Qed.

Lemma expand_item_range (it : string) (l : list Z) :
  contains "-" it = true -> expand_item it = Return l ->
  exists sx sy x y,
    it = (sx +:+ String "-" sy)%string /\ contains "-" sx = false /\
    int sx = Return x /\ int sy = Return y /\
    l = map (fun i => x + Z.of_nat i) (seq 0 (Z.to_nat (y + 1 - x))).
Proof.
  intros Hc. unfold expand_item. rewrite Hc.
  destruct (split_max_1 _ _ Hc) as (sx & sy & -> & Hit & Hsx). simpl.
  destruct (int sx) as [x|e] eqn:Hx; simpl; [|done].
  destruct (int sy) as [y|e] eqn:Hy; simpl; [|done].
  unfold xrange.
  destruct (fits_long x && fits_long (y + 1) && (y + 1 - x <=? LONG_MAX)); [|done].
  intros [= <-]. by exists sx, sy, x, y.
Qed.

Lemma expand_item_nonneg (it : string) (l : list Z) :
  expand_item it = Return l -> Forall (fun z => 0 <= z) l.
Proof.
  destruct (contains "-" it) eqn:Hc.
  - intros Hl. destruct (expand_item_range _ _ Hc Hl)
      as (sx & sy & x & y & _ & Hsx & Hx & _ & ->).
    apply Forall_forall. intros z Hz. apply elem_of_range in Hz.
    pose proof (int_nonneg _ _ Hsx Hx). lia.
  - unfold expand_item. rewrite Hc.
    destruct (int it) as [x|e] eqn:Hx; simpl; [|done].
    intros [= <-]. repeat constructor. by eapply int_nonneg.
Qed.

Lemma expand_item_error (it : string) (e : exn) :
  expand_item it = Raise e -> e = ValueError \/ e = OverflowError.
Proof.
  unfold expand_item. destruct (contains "-" it) eqn:Hc.
  - destruct (split_max_1 _ _ Hc) as (sx & sy & -> & _ & _). simpl.
    destruct (int sx) as [x|e1] eqn:Hx; simpl;
      [|intros [= <-]; left; by eapply int_error].
    destruct (int sy) as [y|e1] eqn:Hy; simpl;
      [|intros [= <-]; left; by eapply int_error].
    unfold xrange.
    destruct (fits_long x && fits_long (y + 1) && (y + 1 - x <=? LONG_MAX)); [done|].
    intros [= <-]. by right.
  - destruct (int it) as [x|e1] eqn:Hx; simpl; [done|].
    intros [= <-]. left. by eapply int_error.
Qed.

(** *** The loop *)

Lemma mapM_Return {A B} (f : A -> py B) (l : list A) (bs : list B) :
  mapM f l = Return bs <-> Forall2 (fun a b => f a = Return b) l bs.
Proof.
  revert bs; induction l as [|a l IH]; intros bs; simpl.
  - split; [intros [= <-]; constructor|by intros ->%Forall2_nil_inv_l].
  - destruct (f a) as [b|e] eqn:Hb; simpl.
    + destruct (mapM f l) as [bs'|e] eqn:Hl; simpl.
      * split.
        -- intros [= <-]. constructor; [done|by apply IH].
        -- intros (b' & bs'' & Hb' & Hbs & ->)%Forall2_cons_inv_l.
           apply IH in Hbs. congruence.
      * split; [done|].
        intros (b' & bs'' & Hb' & Hbs & ->)%Forall2_cons_inv_l.
        by apply IH in Hbs.
    + split; [done|].
      intros (b' & bs'' & Hb' & Hbs & ->)%Forall2_cons_inv_l. congruence.
Qed.

Lemma mapM_Raise {A B} (f : A -> py B) (l : list A) (e : exn) :
  mapM f l = Raise e <->
  exists pre a post, l = pre ++ a :: post /\
    (forall x, x ∈ pre -> exists b, f x = Return b) /\ f a = Raise e.
Proof.
  induction l as [|a l IH]; simpl.
  - split; [done|]. intros (pre & a & post & H & _). by destruct pre.
  - destruct (f a) as [b|e'] eqn:Hb; simpl.
    + assert ((let! bs := mapM f l in Return (b :: bs)) = Raise e
              <-> mapM f l = Raise e) as ->.
      { destruct (mapM f l); simpl; split; congruence. }
      rewrite IH. split.
      * intros (pre & a' & post & -> & Hpre & Ha').
        exists (a :: pre), a', post. split; [done|]. split; [|done].
        intros x [->|Hx]%elem_of_cons; eauto.
      * intros (pre & a' & post & H & Hpre & Ha').
        destruct pre as [|p pre]; simpl in H; injection H as <- ->; [congruence|].
        exists pre, a', post. split; [done|]. split; [|done].
        intros x Hx. apply Hpre. by right.
    + split.
      * intros [= ->]. exists [], a, l. split; [done|]. split; [|done].
        intros x Hx. by apply elem_of_nil in Hx.
      * intros (pre & a' & post & H & Hpre & Ha').
        destruct pre as [|p pre]; simpl in H; injection H as <- ->; [congruence|].
        destruct (Hpre a) as [b Hp]; [by left|]. congruence.
Qed.

Lemma parse_page_numbers_mapM (s : string) :
  parse_page_numbers (Some s) =
  let! ls := mapM expand_item (split "," s) in Return (Some (concat ls)).
Proof.
  unfold parse_page_numbers. rewrite parse_loop_concat.
  by destruct (mapM expand_item (split "," s)).
Qed.

(** X1.  An item [x-y] of the page list stands for the pages [x] to [y],
    both included, in ascending order: [y - x + 1] pages, and none when
    [y < x].  The item is cut at its first [-], so that [x] is what stands
    before it. *)
Theorem page_range_inclusive (it : string) (l : list Z) :
  contains "-" it = true -> expand_item it = Return l ->
  exists sx sy x y,
    it = (sx +:+ String "-" sy)%string /\ contains "-" sx = false /\
    int sx = Return x /\ int sy = Return y /\
    (forall z, z ∈ l <-> x <= z <= y) /\
    StronglySorted Z.lt l /\
    length l = Z.to_nat (y - x + 1) /\
    (y < x -> l = []).
Proof.
  intros Hc Hl.
  destruct (expand_item_range _ _ Hc Hl) as (sx & sy & x & y & Hit & Hsx & Hx & Hy & ->).
  exists sx, sy, x, y. repeat (split; [done|]).
  split; [|split; [|split]].
  - intros z. rewrite elem_of_range. lia.
  - apply seq_from_sorted.
  - rewrite length_map, length_seq. f_equal. lia.
  - intros Hlt. replace (Z.to_nat (y + 1 - x)) with 0%nat by lia. done.
Qed.

Lemma page_range_inclusive_witness :
  exists sx sy x y,
    "37-42"%string = (sx +:+ String "-" sy)%string /\ contains "-" sx = false /\
    int sx = Return x /\ int sy = Return y /\
    (forall z, z ∈ [37; 38; 39; 40; 41; 42] <-> x <= z <= y) /\
    StronglySorted Z.lt [37; 38; 39; 40; 41; 42] /\
    length [37; 38; 39; 40; 41; 42] = Z.to_nat (y - x + 1) /\
    (y < x -> [37; 38; 39; 40; 41; 42] = []).
Proof.
  apply (page_range_inclusive "37-42"); reflexivity.
Defined.

(** X2.  Every page number that [parse_page_numbers] returns is
    non-negative: a [-] is always read as the separator of a range, so a
    negative number cannot be asked for. *)
Theorem parse_page_numbers_nonneg (s : string) (l : list Z) :
  parse_page_numbers (Some s) = Return (Some l) -> Forall (fun z => 0 <= z) l.
Proof.
  rewrite parse_page_numbers_mapM.
  destruct (mapM expand_item (split "," s)) as [ls|e] eqn:Hls; simpl; [|done].
  intros [= <-]. apply mapM_Return in Hls.
  induction Hls as [|it l' items ls Hit _ IH]; simpl; [constructor|].
  apply Forall_app. split; [by eapply expand_item_nonneg|done].
Qed.

Lemma parse_page_numbers_nonneg_witness :
  Forall (fun z => 0 <= z) [0; 3; 4; 5].
Proof.
  apply (parse_page_numbers_nonneg "0, 3 - 5"). reflexivity.
Defined.

Lemma parse_page_numbers_Raise (s : string) (e : exn) :
  parse_page_numbers (Some s) = Raise e <->
  mapM expand_item (split "," s) = Raise e.
Proof.
  rewrite parse_page_numbers_mapM.
  destruct (mapM expand_item (split "," s)); simpl; split; congruence.
Qed.

Lemma parse_page_numbers_raises (pages : option string) (e : exn) :
  parse_page_numbers pages = Raise e -> e = ValueError \/ e = OverflowError.
Proof.
  destruct pages as [s|]; [|done].
  rewrite parse_page_numbers_Raise, mapM_Raise.
  intros (_ & it & _ & _ & _ & Hit). by eapply expand_item_error.
Qed.


(** X4.  The page selection of [_process] on a document of [N] pages:
    when every requested number is between 1 and [N], the pages are the
    requested ones, 0-based, in the order and with the repetitions of the
    request; otherwise [IndexError] is raised, for a number that is out of
    that range; page number 0 is refused. *)
Theorem select_pages_in_document (N : nat) (l : list Z) :
  (Forall (fun i => 1 <= i <= Z.of_nat N) l ->
     select_pages N (Some l) = Return (map (fun i => Z.to_nat (i - 1)) l)) /\
  (forall ps, select_pages N (Some l) = Return ps ->
     Forall (fun i => 1 <= i <= Z.of_nat N) l /\
     ps = map (fun i => Z.to_nat (i - 1)) l /\
     length ps = length l /\
     Forall (fun p => (p < N)%nat) ps) /\
  (forall e, select_pages N (Some l) = Raise e ->
     e = IndexError /\ exists i, i ∈ l /\ ~ (1 <= i <= Z.of_nat N)) /\
  (forall l', select_pages N (Some (0 :: l')) = Raise IndexError).
Proof.
  set (f := fun i : Z => if (1 <=? i) && (i <=? Z.of_nat N)
                         then Return (Z.to_nat (i - 1)) else Raise IndexError).
  assert (forall i p, f i = Return p <->
            1 <= i <= Z.of_nat N /\ p = Z.to_nat (i - 1)) as Hf.
  { intros i p. unfold f.
    destruct ((1 <=? i) && (i <=? Z.of_nat N)) eqn:Hi.
    - apply andb_true_iff in Hi as [H1 H2]. split; [intros [= <-]; lia|].
      by intros [_ ->].
    - split; [done|]. intros [Hr _]. apply andb_false_iff in Hi as [Hi|Hi]; lia. }
  assert (forall ps, select_pages N (Some l) = Return ps ->
            Forall (fun i => 1 <= i <= Z.of_nat N) l /\
            ps = map (fun i => Z.to_nat (i - 1)) l) as Hret.
  { intros ps Hps. apply mapM_Return in Hps.
    induction Hps as [|i p l ps Hi _ [IH1 IH2]]; [done|].
    apply Hf in Hi as [Hi ->]. split; [by constructor|]. simpl. by f_equal. }
  split; [|split; [|split]].
  - intros Hl. simpl. apply mapM_Return. clear Hret.
    induction Hl as [|i l Hi _ IH]; simpl; [constructor|].
    constructor; [by apply Hf|done].
  - intros ps Hps. destruct (Hret ps Hps) as [Hl ->].
    split; [done|]. split; [done|]. split; [by rewrite length_map|].
    apply Forall_map. eapply Forall_impl; [exact Hl|]. simpl. lia.
  - intros e He. apply mapM_Raise in He as (pre & i & post & -> & _ & Hi).
    revert Hi. destruct ((1 <=? i) && (i <=? Z.of_nat N)) eqn:Hb; [done|].
    intros [= <-]. split; [done|]. exists i. split.
    + apply elem_of_app. right. by left.
    + apply andb_false_iff in Hb as [Hb|Hb]; lia.
  - done.
Qed.

End UtilsMore.

(** ** More on the escaping of the file identifier *)

Module SedScriptMore.
Import SedScript SedScriptFacts SedScriptDefs.
Local Open Scope string_scope.

Lemma string_app_cons (x : ascii) (a b : string) :
  String x a ++ b = String x (a ++ b).
Proof. reflexivity. Qed.

Lemma string_app_nil_r (a : string) : a ++ "" = a.
Proof. induction a as [|x a IH]; [done|]. by rewrite string_app_cons, IH. Qed.

Lemma string_app_assoc (a b c : string) : (a ++ b) ++ c = a ++ (b ++ c).
Proof. induction a as [|x a IH]; [done|]. by rewrite !string_app_cons, IH. Qed.

Lemma string_app_length (a b : string) :
  String.length (a ++ b) = (String.length a + String.length b)%nat.
Proof.
  induction a as [|x a IH]; [done|]. rewrite string_app_cons. simpl.
  by rewrite IH.
Qed.

Lemma concat_map_app (f : ascii -> string) (s1 s2 : string) :
  concat_map f (s1 ++ s2) = concat_map f s1 ++ concat_map f s2.
Proof.
  induction s1 as [|c s1 IH]; [done|].
  change (String c s1 ++ s2) with (String c (s1 ++ s2)).
  by rewrite !concat_map_cons, IH, string_app_assoc.
Qed.

Lemma escape_char_length (c : ascii) :
  String.length (escape_char c) = ((if special c then 1 else 0) + 1)%nat.
Proof.
  unfold escape_char, special.
  destruct (Ascii.eqb c backslash); [done|]. by destruct (Ascii.eqb c quote).
Qed.

Lemma escape_char_plain (c : ascii) :
  special c = false -> escape_char c = String c EmptyString.
Proof.
  unfold escape_char, special. intros H. apply orb_false_iff in H as [-> ->]. done.
Qed.

Lemma concat_map_escape_length (s : string) :
  String.length (concat_map escape_char s) = (String.length s + count_special s)%nat.
Proof.
  induction s as [|c s IH]; [done|].
  rewrite concat_map_cons, string_app_length, escape_char_length, IH. simpl. lia.
Qed.

Lemma read_quoted_escape_app (s rest : string) :
  read_quoted (concat_map escape_char s ++ rest) =
  match read_quoted rest with
  | Some (x, r) => Some (s ++ x, r)
  | None => None
  end.
Proof.
  induction s as [|c s IH].
  - change (concat_map escape_char "" ++ rest) with rest.
    destruct (read_quoted rest) as [[x r]|]; reflexivity.
  - rewrite concat_map_cons. unfold escape_char.
    destruct (Ascii.eqb_spec c backslash) as [->|Hb].
    + change (read_quoted (String backslash (String backslash
                (concat_map escape_char s ++ rest))) = 
              match read_quoted rest with
              | Some (x, r) => Some (String backslash (s ++ x), r) | None => None end).
      rewrite read_quoted_cons. simpl. fold escape_char. rewrite IH.
      by destruct (read_quoted rest) as [[x r]|].
    + destruct (Ascii.eqb_spec c quote) as [->|Hq].
      * change (read_quoted (String backslash (String quote
                  (concat_map escape_char s ++ rest))) =
                match read_quoted rest with
                | Some (x, r) => Some (String quote (s ++ x), r) | None => None end).
        rewrite read_quoted_cons. simpl. fold escape_char. rewrite IH.
        by destruct (read_quoted rest) as [[x r]|].
      * change (read_quoted (String c (concat_map escape_char s ++ rest)) =
                match read_quoted rest with
                | Some (x, r) => Some (String c (s ++ x), r) | None => None end).
        rewrite read_quoted_cons.
        apply Ascii.eqb_neq in Hb, Hq. fold escape_char. rewrite Hq, Hb, IH.
        by destruct (read_quoted rest) as [[x r]|].
Qed.

(** X5.  The file identifier is escaped character by character: the
    escaping of a concatenation is the concatenation of the escapings, the
    escaped identifier is longer than the identifier by the number of its
    backslashes and quotes, and an identifier is left as it is exactly
    when it has none. *)
Theorem escape_file_id_append :
  (forall s1 s2,
     escape_file_id (s1 ++ s2) = escape_file_id s1 ++ escape_file_id s2) /\
  (forall s,
     String.length (escape_file_id s) = (String.length s + count_special s)%nat) /\
  (forall s, escape_file_id s = s <-> count_special s = 0%nat).
Proof.
  split; [|split].
  - intros s1 s2. by rewrite !escape_file_id_chars, concat_map_app.
  - intros s. by rewrite escape_file_id_chars, concat_map_escape_length.
  - intros s. split.
    + intros Heq. apply (f_equal String.length) in Heq.
      rewrite escape_file_id_chars, concat_map_escape_length in Heq. lia.
    + rewrite escape_file_id_chars. induction s as [|c s IH]; [done|].
      simpl count_special. intros Hc.
      destruct (special c) eqn:Hs; [done|].
      rewrite concat_map_cons, escape_char_plain, IH by done. done.
Qed.

(** X6.  An escaped identifier never closes the quoted string it is
    written in: read as the inside of a quoted string, the escaped
    identifier followed by any text gives the identifier followed by what
    that text gives; alone it does not end; and in the [select] directive,
    whatever follows it in the script, the quoted string is closed by the
    quote of the directive and is the identifier. *)
Theorem escaped_id_keeps_quote_open (s rest : string) :
  read_quoted (escape_file_id s ++ rest) =
    match read_quoted rest with
    | Some (x, r) => Some (s ++ x, r)
    | None => None
    end /\
  read_quoted (escape_file_id s) = None /\
  (forall tail, exists after,
     select_directive s ++ tail = "select '" ++ escape_file_id s ++ "'" ++ after /\
     read_quoted (escape_file_id s ++ "'" ++ after) = Some (s, after)).
Proof.
  split; [|split].
  - by rewrite escape_file_id_chars, read_quoted_escape_app.
  - pose proof (read_quoted_escape_app s "") as H. simpl in H.
    rewrite escape_file_id_chars.
    by rewrite string_app_nil_r in H.
  - intros tail. exists (newline ++ tail). split.
    + unfold select_directive. by rewrite !string_app_assoc.
    + rewrite escape_file_id_chars.
      change ("'" ++ newline ++ tail) with (String quote (newline ++ tail)).
      apply read_quoted_escape.
Qed.

End SedScriptMore.

(** ** More on [BMP.write_image] *)

Module ImageIOMore.
Import Byte ImageIO ImageIOFacts.

Lemma pack_uint_inv (width : nat) (v : Z) (bs : list byte) :
  pack_uint width v = Return bs ->
  0 <= v < 2 ^ (8 * Z.of_nat width) /\ bs = le_bytes width v.
Proof.
  unfold pack_uint.
  destruct ((0 <=? v) && (v <? 2 ^ (8 * Z.of_nat width))) eqn:H; [|done].
  intros [= <-]. apply andb_true_iff in H as [H0 H1].
  apply Z.leb_le in H0. apply Z.ltb_lt in H1. done.
Qed.

Lemma le_bytes_length (width : nat) (v : Z) : length (le_bytes width v) = width.
Proof. revert v; induction width as [|w IH]; intros v; simpl; [done|]. by rewrite IH. Qed.

Ltac unpack H :=
  unfold pack in H; cbn [mapM pack_field pack_char bind] in H;
  repeat match type of H with
  | context [pack_uint ?w ?v] =>
      let Hv := fresh "Hv" in
      let bs := fresh "bs" in
      destruct (pack_uint w v) as [bs|] eqn:Hv; cbn [bind] in H; [|discriminate H];
      apply pack_uint_inv in Hv as [? ->]
  end.

(** X7.  Whenever [BMP.write_image] succeeds, the sizes written in the
    file agree with the file, whatever the renderer returns: the file is
    54 bytes of headers, the palette and the pixel data; the file-size
    field is the length of the file, the offset field is where the pixel
    data start, the data-size field is the length of the pixel data, and
    the sizes fit their fields. *)
Theorem bmp_sizes_consistent (fmt : pixel_format) (job : page_job)
    (layers : render_mode) (file : list byte) :
  let w := fst (size job) in
  let h := snd (size job) in
  let data := render job layers (0, 0, w, h) (0, 0, w, h) fmt (Some 4) in
  let n_palette := if bpp fmt =? 1 then 2 else 0 in
  write_image fmt job layers = Return file ->
  Z.of_nat (length file) = 54 + 4 * n_palette + Z.of_nat (length data) /\
  uint_at 4 2 file = Z.of_nat (length file) /\
  uint_at 4 10 file = 54 + 4 * n_palette /\
  uint_at 4 34 file = Z.of_nat (length data) /\
  uint_at 4 2 file = uint_at 4 10 file + uint_at 4 34 file /\
  drop (Z.to_nat (uint_at 4 10 file)) file = data /\
  Z.of_nat (length file) < 2 ^ 32 /\
  0 <= w < 2 ^ 32 /\ 0 <= h < 2 ^ 32 /\ 0 <= bpp fmt < 2 ^ 16.
Proof.
  intros w h data n_palette Hfile. unfold write_image in Hfile.
  fold w h in Hfile. fold data in Hfile.
  set (len_data := Z.of_nat (length data)) in *.
  replace (2 * (if bpp fmt =? 1 then 1 else 0)) with n_palette in Hfile
    by (unfold n_palette; by destruct (bpp fmt =? 1)).
  set (headers_size := 54 + 4 * n_palette) in *.
  set (dpm := dpm_of_dpi (dpi job)) in *.
  destruct (pack [fc "B"; fc "M"; fI (len_data + headers_size); fH 0; fH 0;
                  fI headers_size]) as [h1|] eqn:H1; cbn [bind] in Hfile; [|done].
  destruct (pack [fI 40; fI w; fI h; fH 1; fH (bpp fmt); fI 0; fI len_data;
                  fI dpm; fI dpm; fI n_palette; fI n_palette]) as [h2|] eqn:H2;
    cbn [bind] in Hfile; [|done].
  assert (exists palette,
    (if bpp fmt =? 1 then
       let! p1 := pack [fB 255; fB 255; fB 255; fB 0] in
       let! p2 := pack [fB 0; fB 0; fB 0; fB 0] in Return (p1 ++ p2)
     else Return []) = Return palette /\
    Z.of_nat (length palette) = 4 * n_palette) as (palette & Hpal & Hpallen).
  { unfold n_palette. destruct (bpp fmt =? 1).
    - eexists. split; [reflexivity|]. reflexivity.
    - eexists. split; [reflexivity|]. reflexivity. }
  rewrite Hpal in Hfile. cbn [bind] in Hfile. revert Hfile; intros [= <-].
  unpack H1. unpack H2. revert H1 H2; intros [= <-] [= <-].
  assert (0 <= len_data) as Hlen0 by (unfold len_data; lia).
  match goal with |- context [length ?f] => set (file := f) end.
  assert (uint_at 4 10 file = headers_size) as Hoff
    by (subst file; header_field 4%nat headers_size).
  assert (uint_at 4 2 file = len_data + headers_size) as Hsz
    by (subst file; header_field 4%nat (len_data + headers_size)).
  assert (uint_at 4 34 file = len_data) as Hdat
    by (subst file; header_field 4%nat len_data).
  assert (Z.of_nat (length file) = len_data + headers_size) as Hlen.
  { subst file. rewrite !length_app. simpl length.
    unfold headers_size, len_data. lia. }
  assert (drop (Z.to_nat headers_size) file = data) as Hdrop.
  { replace (Z.to_nat headers_size) with (54 + length palette)%nat
      by (unfold headers_size; lia).
    subst file. cbn [app]. rewrite <- drop_drop. cbn [drop skipn].
    by rewrite drop_0, drop_app_length. }
  rewrite Hoff, Hsz, Hdat, Hlen.
  split; [unfold headers_size; lia|].
  split; [done|]. split; [done|]. split; [done|]. split; [lia|].
  split; [done|].
  repeat split; simpl in *; lia.
Qed.

Lemma bmp_sizes_consistent_witness :
  exists file,
    write_image {| bpp := 24; rows_top_to_bottom := false; y_top_to_bottom := true |}
      (blank_job 2 2 300) RENDER_COLOR = Return file /\
    Z.of_nat (length file) = 54 + 4 * 0 + 16 /\
    uint_at 4 2 file = Z.of_nat (length file).
Proof.
  eexists. split; [vm_compute; reflexivity|].
  pose proof (bmp_sizes_consistent
    {| bpp := 24; rows_top_to_bottom := false; y_top_to_bottom := true |}
    (blank_job 2 2 300) RENDER_COLOR _ eq_refl) as H.
  cbv zeta in H. destruct H as (Hlen & Hsize & _).
  split; [exact Hlen|exact Hsize].
Defined.

End ImageIOMore.

(** ** More on the scheduler *)

Module SchedulerEndsFacts.
Import Scheduler SchedulerFacts SchedulerRuns SchedulerEnds.
Local Open Scope nat_scope.

(** *** The ends of the main thread *)

Lemma join_page_fails o s k :
  inv o s -> asm s = AJoin k -> page_fails o.
Proof.
  intros I Ha.
  destruct (inv_asm _ _ I) as (done & rest & partial & Hp & _ & _ & Hok).
  unfold asm_ok in Hok. rewrite Ha in Hok.
  destruct Hok as (n & r & ex & -> & _ & Hn).
  exists n, ex. split.
  - apply (inv_keys _ _ I). eauto.
  - apply entry_of_outcome_Failure. by eapply (inv_match _ _ I).
Qed.

Lemma ends_init o : ends_ok o (init o).
Proof. by unfold ends_ok. Qed.

Lemma current_page o s n rest :
  inv o s ->
  asm s = AAcquire n rest \/ asm s = ACheck n rest \/ asm s = AWait n rest ->
  exists done, pages o = done ++ n :: rest /\
    (forall m, m ∈ done -> exists e, results s !! m = Some e /\
                terminal e = true /\ forall ex, e <> Failure ex) /\
    n ∈ pages o /\ is_Some (results s !! n).
Proof.
  intros I Ha.
  destruct (inv_asm _ _ I) as (done & rest' & partial & Hp & _ & Hdone & Hok).
  unfold asm_ok in Hok.
  assert (rest' = n :: rest) as ->
    by (destruct Ha as [Ha|[Ha|Ha]]; rewrite Ha in Hok; by destruct Hok).
  assert (n ∈ pages o) as Hn
    by (rewrite Hp; apply elem_of_app; right; apply elem_of_cons; by left).
  exists done. repeat (split; [done|]). by apply (inv_keys _ _ I).
Qed.

Lemma ends_step o t s s' :
  inv o s -> ends_ok o s -> step o t s = Some s' -> ends_ok o s'.
Proof.
  intros I E H. destruct t as [|w].
  - unfold ends_ok in E. simpl in H. unfold main_thread in H.
    destruct (asm s) as [[|n rest]|n rest|n rest|n rest|k|ex| |st] eqn:Ha.
    + destruct (save o) eqn:Hs; simplify_eq; unfold ends_ok; simpl;
        intuition eauto.
    + simplify_eq. by unfold ends_ok.
    + destruct (lock s); simplify_eq. by unfold ends_ok.
    + destruct (current_page o s n rest I) as (_ & _ & _ & _ & [e He]); [by auto|].
      rewrite He in H. destruct e; simplify_eq; by unfold ends_ok.
    + done.
    + destruct (workers s !! k) as [pc|]; [destruct (terminated pc)|];
        simplify_eq; unfold ends_ok; simpl; [done|].
      destruct E as (_ & -> & ->). split; [done|]. split; [done|].
      left. split; [done|]. by eapply join_page_fails.
    + simplify_eq. unfold ends_ok, main_finally, close; simpl.
      destruct E as (-> & _ & Hc). right. repeat (split; [done|]).
      destruct Hc as [[_ ?]|?]; eauto.
    + simplify_eq. unfold ends_ok, main_finally, close.
      destruct E as (Hs & Hd & Ht & _).
      destruct (debug s) eqn:Hdb; simpl; left; rewrite ?Hdb; by rewrite <- ?Hd.
    + done.
  - unfold ends_ok in *.
    assert (debug s' = debug s /\ temp_dir_exists s' = temp_dir_exists s /\
            left_dir s' = left_dir s) as (-> & -> & ->).
    { step_inv H; simpl; notify_simpl;
        rewrite ?(proj2 (proj2 (proj2 (proj2 (proj2 (proj2 (proj2
                   (notify_other _)))))))); done. }
    destruct (worker_step_asm _ _ _ _ H) as [->|(n & r & Ha & ->)]; [done|].
    by rewrite Ha in E.
Qed.

Lemma ends_rtc o s s' :
  inv o s -> ends_ok o s -> rtc (step_rel o) s s' -> ends_ok o s'.
Proof.
  intros I E Hr. induction Hr as [|s1 s2 s3 [t Ht] _ IH]; [done|].
  apply IH; [by eapply inv_step|by eapply ends_step].
Qed.

Lemma ends_reachable o s : reachable o s -> ends_ok o s.
Proof. apply ends_rtc; [apply init_inv|apply ends_init]. Qed.

(** *** The ends of the workers *)

Lemma todo_page o s w pc n :
  inv o s -> workers s !! w = Some pc -> n ∈ todo pc ->
  n ∈ pages o /\ is_Some (results s !! n).
Proof.
  intros I Hw Hn.
  assert (n ∈ pages o) as Hp.
  { destruct (inv_suffix _ _ I _ _ Hw) as [pre ->].
    apply elem_of_app. by right. }
  split; [done|]. by apply (inv_keys _ _ I).
Qed.

Lemma crashes_init o : crashes_ok o (init o).
Proof. intros w ex [? _]%lookup_replicate. done. Qed.

Lemma crashes_step o t s s' :
  inv o s -> crashes_ok o s -> step o t s = Some s' -> crashes_ok o s'.
Proof.
  intros I C H w0 ex0 Hw0.
  assert (workers s !! w0 = Some (WCrashed ex0) ->
          exists n, n ∈ pages o /\ results s' !! n = Some (Failure ex0) /\
                    process_page o n = Failed ex0) as Hold.
  { intros Hw. destruct (C _ _ Hw) as (n & Hn & Hr & Hp).
    exists n. split; [done|]. split; [|done]. by eapply terminal_stable. }
  destruct t as [|w]; [apply Hold; by step_inv H|].
  unfold step in H. destruct (workers s !! w) as [pc|] eqn:Hw; [|done].
  destruct pc as [[|n rest]|n rest|n r rest|n ex| |]; simpl in H; try done.
  - simplify_eq. simpl in Hw0. wl Hw0. by apply Hold.
  - destruct (todo_page o s w _ n I Hw) as [_ [e He]]; [by left|].
    rewrite He in H. destruct (lock s); [done|].
    destruct e; simplify_eq; simpl in Hw0; wl Hw0; by apply Hold.
  - destruct (process_page o n); simplify_eq; simpl in Hw0; wl Hw0; by apply Hold.
  - destruct (inv_own _ _ I _ _ n Hw eq_refl) as [Hc _]. rewrite Hc in H.
    destruct (lock s); [done|]. simplify_eq.
    rewrite notify_workers in Hw0. simpl in Hw0. wl Hw0. by apply Hold.
  - destruct (lock s); [done|]. simplify_eq.
    rewrite notify_workers in Hw0. simpl in Hw0. wl Hw0; [|by apply Hold].
    pose proof (inv_raise _ _ I _ _ _ Hw) as Hr.
    exists n. rewrite notify_results. simpl. split; [|split; [done|]].
    + apply (inv_keys _ _ I). eauto.
    + apply entry_of_outcome_Failure. by eapply (inv_match _ _ I).
Qed.

Lemma crashes_rtc o s s' :
  inv o s -> crashes_ok o s -> rtc (step_rel o) s s' -> crashes_ok o s'.
Proof.
  intros I E Hr. induction Hr as [|s1 s2 s3 [t Ht] _ IH]; [done|].
  apply IH; [by eapply inv_step|by eapply crashes_step].
Qed.

Lemma crashes_reachable o s : reachable o s -> crashes_ok o s.
Proof. apply crashes_rtc; [apply init_inv|apply crashes_init]. Qed.

(** *** The order of the claims *)

Lemma before_first {A} (l1 l2 r1 r2 : list A) (x y : A) :
  l1 ++ x :: r1 = l2 ++ y :: r2 -> y ∉ l1 ->
  (forall m, m ∈ l1 -> m ∈ l2) /\ (y <> x -> x ∈ l2).
Proof.
  revert l2; induction l1 as [|a l1 IH]; intros l2 Heq Hy.
  - split; [by intros m Hm%elem_of_nil|]. intros Hne.
    destruct l2 as [|b l2]; simpl in Heq; injection Heq as -> Heq; [done|by left].
  - destruct l2 as [|b l2]; simpl in Heq; injection Heq as -> Heq.
    + exfalso. apply Hy. by left.
    + destruct (IH l2 Heq) as [IH1 IH2]; [intros Hin; apply Hy; by right|].
      split.
      * intros m [->|Hm]%elem_of_cons; [by left|right; by apply IH1].
      * intros Hne. right. by apply IH2.
Qed.

Lemma claim_by_loop o t s s' n :
  inv o s -> step o t s = Some s' ->
  results s !! n = Some Unclaimed -> results s' !! n <> Some Unclaimed ->
  exists w rest, t = Worker w /\ workers s !! w = Some (WLoop (n :: rest)).
Proof.
  intros I H Hn Hn'.
  destruct t as [|w]; [exfalso; apply Hn'; by step_inv H|].
  unfold step in H. destruct (workers s !! w) as [pc|] eqn:Hw; [|done].
  destruct pc as [[|m rest]|m rest|m r rest|m ex| |]; simpl in H; try done.
  - exfalso. apply Hn'. by simplify_eq.
  - destruct (lock s); [done|].
    destruct (results s !! m) as [e|] eqn:He;
      [|exfalso; apply Hn'; by simplify_eq].
    destruct e; simplify_eq; simpl in Hn'; try (by exfalso; apply Hn').
    destruct (decide (m = n)) as [->|Hne]; [by eauto|].
    exfalso. apply Hn'. by rewrite lookup_insert_ne.
  - destruct (inv_own _ _ I _ _ m Hw eq_refl) as [Hc _].
    assert (m <> n) by congruence.
    exfalso. apply Hn'.
    destruct (process_page o m); simplify_eq; simpl; try done.
    by rewrite lookup_insert_ne.
  - destruct (inv_own _ _ I _ _ m Hw eq_refl) as [Hc _]. rewrite Hc in H.
    assert (m <> n) by congruence.
    destruct (lock s); [done|]. simplify_eq.
    exfalso. apply Hn'. rewrite notify_results. simpl.
    by rewrite lookup_insert_ne.
  - destruct (lock s); [done|]. simplify_eq.
    exfalso. apply Hn'. by rewrite notify_results.
Qed.

Lemma passed_init o : passed_ok o (init o).
Proof.
  intros w pc pre [-> _]%lookup_replicate _ Hp m Hm. simpl in Hp.
  assert (pre = []) as ->; [|by apply elem_of_nil in Hm].
  apply (f_equal length) in Hp. rewrite length_app in Hp.
  destruct pre; [done|simpl in Hp; lia].
Qed.

Lemma passed_step o t s s' :
  inv o s -> passed_ok o s -> step o t s = Some s' -> passed_ok o s'.
Proof.
  intros I Q H w0 pc0 pre Hw0 Hc Hp m Hm Hu.
  pose proof (unclaimed_before _ _ _ _ _ H Hu) as Hu0.
  assert (forall pc pre0, workers s !! w0 = Some pc -> crashed pc = false ->
            pages o = pre0 ++ todo pc -> m ∈ pre0 -> False) as Hold.
  { intros pc pre0 Hw Hcr Hp0 Hm0. by eapply (Q w0 pc pre0). }
  assert (forall pre0 n rest, pages o = pre0 ++ n :: rest -> pages o = pre ++ rest ->
            pre = pre0 ++ [n]) as Hpre.
  { intros pre0 n rest H1 H2. rewrite H1 in H2.
    rewrite (cons_middle n pre0 rest), app_assoc in H2.
    by apply app_inv_tail in H2. }
  destruct t as [|w]; [by eapply Hold; [by step_inv H|..]|].
  unfold step in H. destruct (workers s !! w) as [pc|] eqn:Hw; [|done].
  destruct (decide (w0 = w)) as [->|Hne].
  2: { eapply (Hold pc0 pre); try done.
       destruct pc as [[|n rest]|n rest|n r rest|n ex| |]; simpl in H; try done;
         repeat case_match; simplify_eq; simpl in Hw0;
         rewrite ?notify_workers in Hw0; simpl in Hw0;
         by rewrite list_lookup_insert_ne in Hw0. }
  pose proof (lookup_lt_Some _ _ _ Hw) as Hlt.
  destruct (inv_suffix _ _ I _ _ Hw) as [pre0 Hp0].
  assert (forall pc', <[w := pc']> (workers s) !! w = Some pc0 -> pc' = pc0) as Hnew.
  { intros pc'. rewrite list_lookup_insert_eq by done. congruence. }
  assert (forall n rest, todo pc = n :: rest -> pages o = pre ++ rest ->
            results s !! n <> Some Unclaimed -> False) as Hnext.
  { intros n rest Ht Hp' Hr. rewrite Ht in Hp0.
    rewrite (Hpre _ _ _ Hp0 Hp') in Hm.
    apply elem_of_app in Hm as [Hm| ->%list_elem_of_singleton]; [|done].
    eapply (Hold pc pre0); try done; [by destruct pc|by rewrite Ht]. }
  assert (todo pc0 = todo pc -> crashed pc = false -> False) as Hsame.
  { intros Ht Hcr. eapply (Hold pc pre); try done. by rewrite <- Ht. }
  destruct pc as [[|n rest]|n rest|n r rest|n ex| |]; simpl in H; try done.
  - simplify_eq. simpl in Hw0. apply Hnew in Hw0 as <-. by apply Hsame.
  - destruct (lock s); [done|].
    destruct (results s !! n) as [e|] eqn:He; simplify_eq; simpl in Hw0;
      [|apply Hnew in Hw0 as <-; done].
    destruct e; simplify_eq; simpl in Hw0; apply Hnew in Hw0 as <-;
      first [by apply Hsame | eapply (Hnext n rest); [done|exact Hp|congruence]].
  - destruct (process_page o n); simplify_eq; simpl in Hw0;
      apply Hnew in Hw0 as <-; first [done | by apply Hsame].
  - destruct (inv_own _ _ I _ _ n Hw eq_refl) as [Hcl _]. rewrite Hcl in H.
    destruct (lock s); [done|]. simplify_eq.
    rewrite notify_workers in Hw0. simpl in Hw0. apply Hnew in Hw0 as <-.
    eapply Hnext; [done|done|congruence].
  - destruct (lock s); [done|]. simplify_eq.
    rewrite notify_workers in Hw0. simpl in Hw0. by apply Hnew in Hw0 as <-.
Qed.

Lemma in_order_init o : claimed_in_order o (init o).
Proof.
  intros pre n post Hp _ Hn. exfalso. apply Hn. simpl.
  apply init_lookup. split; [done|]. rewrite Hp.
  apply elem_of_app. right. by left.
Qed.

Lemma in_order_step o t s s' :
  inv o s -> passed_ok o s -> claimed_in_order o s -> step o t s = Some s' ->
  claimed_in_order o s'.
Proof.
  intros I Q P H pre n post Hp Hfirst Hn m Hm Hu.
  pose proof (unclaimed_before _ _ _ _ _ H Hu) as Hu0.
  assert (n ∈ pages o) as Hnp
    by (rewrite Hp; apply elem_of_app; right; by left).
  apply (inv_keys _ _ I) in Hnp as [e He].
  assert (e = Unclaimed \/ e <> Unclaimed) as [->|Hne]
    by (destruct e; auto; by right).
  - destruct (claim_by_loop _ _ _ _ _ I H He Hn) as (w & rest & -> & Hw).
    destruct (inv_suffix _ _ I _ _ Hw) as [pre0 Hp0]. simpl in Hp0.
    eapply (Q w _ pre0 Hw eq_refl Hp0 m); [|done].
    eapply (proj1 (before_first pre pre0 post rest n n ltac:(congruence) Hfirst));
      done.
  - eapply (P pre n post); try done. congruence.
Qed.

Lemma order_rtc o s s' :
  inv o s -> passed_ok o s -> claimed_in_order o s -> rtc (step_rel o) s s' ->
  passed_ok o s' /\ claimed_in_order o s'.
Proof.
  intros I Q P Hr. induction Hr as [|s1 s2 s3 [t Ht] _ IH]; [done|].
  apply IH; [by eapply inv_step|by eapply passed_step|by eapply in_order_step].
Qed.

Lemma order_reachable o s :
  reachable o s -> passed_ok o s /\ claimed_in_order o s.
Proof. apply order_rtc; [apply init_inv|apply passed_init|apply in_order_init]. Qed.

(** *** Every run is short *)

Lemma sum_rank_replicate (k : nat) (pc : wpc) :
  sum_list (worker_rank <$> replicate k pc) = k * worker_rank pc.
Proof. by rewrite fmap_replicate, sum_list_replicate. Qed.

Lemma measure_init o : measure (init o) = run_bound o.
Proof.
  unfold measure, run_bound. cbn [init workers asm].
  rewrite length_replicate, sum_rank_replicate. simpl. lia.
Qed.

(** X8.  A run of the scheduler takes at most
    [3 * n_jobs * (3 * N + 1) + 4 * N + 4 + n_jobs] steps for [N] requested
    pages, whatever the schedule and whatever the pages do: each thread
    only moves forward, nothing is retried and nothing spins. *)
Theorem runs_are_bounded (o : options) (schedule : list tid) (s : state) :
  run o schedule (init o) = Some s ->
  length schedule <= run_bound o /\
  (forall schedule' s', run o schedule' s = Some s' ->
     length schedule + length schedule' <= run_bound o).
Proof.
  intros Hr. pose proof (run_bounded _ _ _ _ Hr) as Hb.
  rewrite measure_init in Hb. split; [lia|].
  intros schedule' s' Hr'. apply run_bounded in Hr'. lia.
Qed.

Lemma runs_are_bounded_witness :
  length schedule_rev <= run_bound o_rev /\
  (forall schedule' s',
     run o_rev schedule' (after o_rev schedule_rev) = Some s' ->
     length schedule_rev + length schedule' <= run_bound o_rev).
Proof.
  apply (runs_are_bounded o_rev schedule_rev (after o_rev schedule_rev)).
  vm_compute. reflexivity.
Defined.

(** *** What the threads raise *)



(** *** The entries of the table *)

Lemma unclaimed_before_rtc o s s' n :
  rtc (step_rel o) s s' -> results s' !! n = Some Unclaimed ->
  results s !! n = Some Unclaimed.
Proof.
  induction 1 as [|s1 s2 s3 [t Ht] _ IH]; [done|].
  intros Hn. eapply unclaimed_before; [done|by apply IH].
Qed.

Lemma terminal_stable_rtc o s s' n e :
  inv o s -> rtc (step_rel o) s s' ->
  results s !! n = Some e -> terminal e = true -> results s' !! n = Some e.
Proof.
  intros I Hr. induction Hr as [|s1 s2 s3 [t Ht] _ IH]; [done|].
  intros Hn He. apply IH; [by eapply inv_step| |done]. by eapply terminal_stable.
Qed.

(** X10.  The entries of [results] only move forward: [None], [True],
    the final value.  From a reachable state to any later one: a final
    entry never changes, and it is what the pipeline of the page gives; an
    entry that is [None] was [None] before; an entry that is [True] is
    later still [True] or what the pipeline of the page gives; and no key
    is added or removed. *)
Theorem entries_move_forward (o : options) (s s' : state) (n : page_id) :
  reachable o s -> rtc (step_rel o) s s' ->
  (forall e, results s !! n = Some e -> terminal e = true ->
     results s' !! n = Some e /\ e = entry_of_outcome (process_page o n)) /\
  (results s' !! n = Some Unclaimed -> results s !! n = Some Unclaimed) /\
  (results s !! n = Some Claimed ->
     results s' !! n = Some Claimed \/
     results s' !! n = Some (entry_of_outcome (process_page o n))) /\
  (is_Some (results s' !! n) <-> is_Some (results s !! n)).
Proof.
  intros Hr Hrr. pose proof (inv_reachable _ _ Hr) as I.
  pose proof (inv_rtc _ _ _ I Hrr) as I'.
  split; [|split; [|split]].
  - intros e Hn He. split; [by apply (terminal_stable_rtc o s s')|].
    by eapply (inv_match _ _ I).
  - by apply (unclaimed_before_rtc o).
  - intros Hn.
    assert (is_Some (results s' !! n)) as [e' He'].
    { apply (inv_keys _ _ I'), (inv_keys _ _ I). eauto. }
    destruct (terminal e') eqn:Ht.
    + right. rewrite He'. f_equal. by eapply (inv_match _ _ I').
    + destruct e'; try done; [|by left].
      apply (unclaimed_before_rtc _ _ _ _ Hrr) in He'. congruence.
  - by rewrite (inv_keys _ _ I), (inv_keys _ _ I').
Qed.

Lemma entries_move_forward_witness :
  results (after o_rev schedule_rev) !! 1 = Some (Success "(page 0 0 1 1)") /\
  Success "(page 0 0 1 1)" = entry_of_outcome (process_page o_rev 1).
Proof.
  destruct (entries_move_forward o_rev
              (after o_rev [Worker 0; Worker 0; Worker 0])
              (after o_rev schedule_rev) 1) as (H & _).
  - apply after_reachable.
  - apply (run_rtc o_rev [Worker 0; Worker 0; Worker 0; Worker 0; Main; Main;
                          Main; Main; Main; Main; Main; Main]).
    vm_compute. reflexivity.
  - apply (H (Success "(page 0 0 1 1)")); vm_compute; reflexivity.
Defined.

(** *** The exit status and the temporary directory *)



(** X12.  The temporary directory is there, and not reported, as long
    as [main] has not ended.  When [main] has ended with status [st], the
    directory is kept exactly when [-D] was given or [st] is not 0, it is
    reported exactly when it is kept, and after a failure the debug flag
    is on. *)
Theorem temp_dir_kept_iff (o : options) (s : state) :
  reachable o s ->
  match asm s with
  | AExited st =>
      temp_dir_exists s = (opt_debug o || negb (st =? 0)%Z) /\
      left_dir s = temp_dir_exists s /\
      (st <> 0%Z -> debug s = true)
  | _ => temp_dir_exists s = true /\ left_dir s = false
  end.
Proof.
  intros Hr. pose proof (ends_reachable _ _ Hr) as E. unfold ends_ok in E.
  destruct (asm s) as [rest|n rest|n rest|n rest|k|ex| |st];
    [by destruct E as (_ & ? & ?)..|by destruct E as (? & ? & _)
    |by destruct E as (_ & _ & ? & ?)|].
  destruct E as [(-> & _ & _ & -> & ->)|(-> & -> & -> & -> & _)]; simpl.
  - by rewrite orb_false_r.
  - by rewrite orb_true_r.
Qed.

Lemma temp_dir_kept_iff_witness :
  temp_dir_exists (after o_rev schedule_rev) = (opt_debug o_rev || negb (0 =? 0)%Z) /\
  left_dir (after o_rev schedule_rev) = temp_dir_exists (after o_rev schedule_rev) /\
  temp_dir_exists (after o_abort schedule_abort)
    = (opt_debug o_abort || negb (1 =? 0)%Z).
Proof.
  pose proof (temp_dir_kept_iff o_rev (after o_rev schedule_rev)
                (after_reachable _ _)) as H1.
  pose proof (temp_dir_kept_iff o_abort (after o_abort schedule_abort)
                (after_reachable _ _)) as H2.
  change (asm (after o_rev schedule_rev)) with (AExited 0) in H1.
  change (asm (after o_abort schedule_abort)) with (AExited 1) in H2.
  destruct H1 as (H1 & H1' & _). destruct H2 as (H2 & _).
  split; [exact H1|]. split; [exact H1'|exact H2].
Defined.

(** *** Waiting for a page *)

(** X13.  No wake-up is lost.  While the main thread is inside
    [condition.wait()] for page [n], the lock is free and [n] is a
    requested page; if the entry of [n] is already final, it is the
    exception of a worker that has not notified yet, and the next step of
    that worker wakes the main thread; if the entry is [True], the worker
    that has the page can take a step. *)
Theorem no_lost_wakeup (o : options) (s : state) (n : page_id)
    (rest : list page_id) :
  reachable o s -> asm s = AWait n rest ->
  lock s = false /\
  n ∈ pages o /\
  (forall e, results s !! n = Some e -> terminal e = true ->
     exists w ex s', e = Failure ex /\ workers s !! w = Some (WRaise n ex) /\
       step o (Worker w) s = Some s' /\ asm s' = AAcquire n rest) /\
  (results s !! n = Some Claimed ->
     exists w pc s', workers s !! w = Some pc /\ owns pc n /\
       step o (Worker w) s = Some s').
Proof.
  intros Hr Ha. pose proof (inv_reachable _ _ Hr) as I.
  assert (lock s = false) as Hl by (rewrite (inv_lock _ _ I), Ha; done).
  split; [done|]. split; [|split].
  - destruct (current_page o s n rest I) as (_ & _ & _ & Hn & _); auto.
  - intros e He Ht.
    destruct (inv_wait _ _ I _ _ Ha) as [Hn|[Hn|(w & ex & Hw)]];
      [by simplify_eq|by simplify_eq|].
    pose proof (inv_raise _ _ I _ _ _ Hw) as Hf.
    exists w, ex. eexists. split; [congruence|]. split; [done|].
    unfold step. rewrite Hw. simpl. rewrite Hl. split; [done|].
    rewrite notify_asm. simpl. by rewrite Ha.
  - intros Hn. destruct (inv_owner _ _ I _ Hn) as (w & pc & Hw & Ho).
    destruct (live_worker_steps o s w pc Hw Hl) as [s' Hs']; [by destruct pc|].
    by exists w, pc, s'.
Qed.

Lemma no_lost_wakeup_witness :
  lock (after o_abort [Main; Main; Main; Worker 0; Worker 0]) = false /\
  0 ∈ pages o_abort.
Proof.
  destruct (no_lost_wakeup o_abort
              (after o_abort [Main; Main; Main; Worker 0; Worker 0]) 0 [1])
    as (H1 & H2 & _).
  - apply after_reachable.
  - vm_compute. reflexivity.
  - split; [exact H1|exact H2].
Defined.

(** *** The order in which pages are claimed *)

(** X14.  Pages are claimed in the order of the request.  Once a page
    is claimed, every page that stands before its first occurrence in the
    request has been claimed, by exactly one worker; so has every page a
    worker that is still in its loop has gone past; and so have all the
    requested pages once some worker has come to the end of its loop. *)
Theorem pages_claimed_in_request_order (o : options) (s : state) :
  reachable o s ->
  (forall pre n post, pages o = pre ++ n :: post -> n ∉ pre ->
     results s !! n <> Some Unclaimed ->
     forall m, m ∈ pre -> exists e w, results s !! m = Some e /\ e <> Unclaimed /\
                                      claimers m (trace s) = [w]) /\
  (forall w pc pre, workers s !! w = Some pc -> crashed pc = false ->
     pages o = pre ++ todo pc ->
     forall m, m ∈ pre -> exists e w', results s !! m = Some e /\ e <> Unclaimed /\
                                       claimers m (trace s) = [w']) /\
  (forall w, workers s !! w = Some WDone ->
     forall m, m ∈ pages o -> exists e w', results s !! m = Some e /\ e <> Unclaimed /\
                                           claimers m (trace s) = [w']).
Proof.
  intros Hr. pose proof (inv_reachable _ _ Hr) as I.
  destruct (order_reachable _ _ Hr) as [Q P].
  assert (forall m, m ∈ pages o -> results s !! m <> Some Unclaimed ->
            exists e w, results s !! m = Some e /\ e <> Unclaimed /\
                        claimers m (trace s) = [w]) as Hc.
  { intros m Hm Hu. apply (inv_keys _ _ I) in Hm as [e He].
    assert (e <> Unclaimed) as Hne by congruence.
    pose proof (inv_claimed _ _ I _ _ He Hne) as Hlen.
    destruct (claimers m (trace s)) as [|w [|]]; simpl in Hlen; try lia.
    by exists e, w. }
  split; [|split].
  - intros pre n post Hp Hf Hn m Hm. apply Hc.
    + rewrite Hp. apply elem_of_app. by left.
    + by eapply (P pre n post).
  - intros w pc pre Hw Hcr Hp m Hm. apply Hc.
    + rewrite Hp. apply elem_of_app. by left.
    + by eapply (Q w pc pre).
  - intros w Hw m Hm. apply Hc; [done|].
    eapply (Q w WDone (pages o)); try done. simpl. by rewrite app_nil_r.
Qed.

Lemma pages_claimed_in_request_order_witness :
  workers (after o_rev schedule_rev) !! 0 = Some WDone /\
  (forall m, m ∈ pages o_rev ->
     exists e w', results (after o_rev schedule_rev) !! m = Some e /\
                  e <> Unclaimed /\
                  claimers m (trace (after o_rev schedule_rev)) = [w']).
Proof.
  assert (workers (after o_rev schedule_rev) !! 0 = Some WDone) as Hw
    by (vm_compute; reflexivity).
  split; [exact Hw|].
  destruct (pages_claimed_in_request_order o_rev (after o_rev schedule_rev)
              (after_reachable _ _)) as (_ & _ & H).
  exact (H 0 Hw).
Defined.

(** *** How many pages are in flight *)

Lemma size_list_to_set_le (l : list page_id) :
  size (list_to_set l : gset page_id) <= length l.
Proof.
  induction l as [|x l IH]; [by rewrite list_to_set_nil, size_empty|].
  rewrite list_to_set_cons, size_union_alt, size_singleton. simpl.
  pose proof (subseteq_size (list_to_set l ∖ {[x]}) (list_to_set l : gset page_id)
                ltac:(by apply subseteq_difference_l)). lia.
Qed.

Lemma length_omap_le {A B} (f : A -> option B) (l : list A) :
  length (omap f l) <= length l.
Proof.
  induction l as [|x l IH]; csimpl; [done|]. destruct (f x); simpl; lia.
Qed.

Lemma owned_owns (pc : wpc) (n : page_id) : owned pc = Some n <-> owns pc n.
Proof. destruct pc; simpl; split; try done; congruence. Qed.

(** X15.  At most [n_jobs] pages are in flight: the entries that are
    [True] are exactly the pages some worker is processing, no page is
    processed by two workers, and so the number of [True] entries is at
    most the number of workers. *)
Theorem in_flight_at_most_n_jobs (o : options) (s : state) :
  reachable o s ->
  size (in_flight s) <= n_jobs o /\
  (forall n, results s !! n = Some Claimed <->
     exists w pc, workers s !! w = Some pc /\ owned pc = Some n) /\
  (forall w w' pc pc' n, workers s !! w = Some pc -> workers s !! w' = Some pc' ->
     owned pc = Some n -> owned pc' = Some n -> w = w').
Proof.
  intros Hr. pose proof (inv_reachable _ _ Hr) as I.
  assert (forall n, results s !! n = Some Claimed <->
            exists w pc, workers s !! w = Some pc /\ owned pc = Some n) as Hiff.
  { intros n. split.
    - intros Hn. destruct (inv_owner _ _ I _ Hn) as (w & pc & Hw & Ho).
      exists w, pc. by rewrite owned_owns.
    - intros (w & pc & Hw & Ho). apply owned_owns in Ho.
      by destruct (inv_own _ _ I _ _ _ Hw Ho). }
  split; [|split; [done|]].
  - rewrite <- (inv_workers _ _ I).
    etrans; [|apply (length_omap_le owned)].
    etrans; [|apply size_list_to_set_le].
    rewrite <- size_dom. apply subseteq_size.
    intros n Hn. apply elem_of_dom in Hn as [e He].
    unfold in_flight in He. apply map_lookup_filter_Some in He as [He Hc].
    simpl in Hc. destruct e; try done.
    apply Hiff in He as (w & pc & Hw & Ho).
    apply elem_of_list_to_set, list_elem_of_omap. exists pc. split; [|done].
    by eapply list_elem_of_lookup_2.
  - intros w w' pc pc' n Hw Hw' Ho Ho'.
    eapply (owner_unique o s w w' pc pc' n); try done; by apply owned_owns.
Qed.

Lemma in_flight_at_most_n_jobs_witness :
  size (in_flight (after o_two schedule_two)) <= n_jobs o_two /\
  results (after o_two schedule_two) !! 1 = Some Claimed.
Proof.
  destruct (in_flight_at_most_n_jobs o_two (after o_two schedule_two)
              (after_reachable _ _)) as (H1 & H2 & _).
  split; [exact H1|].
  apply H2. exists 1, (WStore 1 (RText "(page 0 0 1 1)") []).
  split; vm_compute; reflexivity.
Defined.

(** *** Where a run can stop *)

Lemma blocked_worker o s w pc :
  workers s !! w = Some pc -> step o (Worker w) s = None ->
  terminated pc = true \/ (lock s = true /\ wants_lock pc = true).
Proof.
  intros Hw Hs. unfold step in Hs. rewrite Hw in Hs.
  destruct pc as [[|n rest]|n rest|n r rest|n ex| |]; simpl in *; auto;
    destruct (lock s); auto; repeat case_match; done.
Qed.

(** While the main thread waits for a page, some worker is still alive. *)
Lemma waiting_has_worker o s n rest :
  1 <= n_jobs o -> reachable o s -> asm s = AWait n rest ->
  exists w pc, workers s !! w = Some pc /\ terminated pc = false.
Proof.
  intros HW Hr Ha. pose proof (inv_reachable _ _ Hr) as I.
  destruct (order_reachable _ _ Hr) as [Q P].
  destruct (all_or_live (workers s)) as [Hall|Hlive]; [exfalso|done].
  destruct (current_page o s n rest I) as (done & Hp & Hdone & Hn & _); [by auto|].
  destruct (inv_wait _ _ I _ _ Ha) as [Hu|[Hc|(w & ex & Hw)]].
  - assert (exists pc, workers s !! 0 = Some pc) as [pc Hpc].
    { apply lookup_lt_is_Some. rewrite (inv_workers _ _ I). lia. }
    pose proof (Hall _ _ Hpc) as Ht.
    destruct pc as [| | | | |ex]; try done.
    + eapply (Q 0 WDone (pages o)); try done. simpl. by rewrite app_nil_r.
    + destruct (crashes_reachable _ _ Hr _ _ Hpc) as (m & Hm & Hf & _).
      apply list_elem_of_split_l in Hm as (pre & post & Hp' & Hfirst).
      assert (m ∉ done) as Hmd.
      { intros Hin. destruct (Hdone m Hin) as (e & He & _ & Hne).
        apply (Hne ex). congruence. }
      assert (m <> n) as Hmn by congruence.
      rewrite Hp in Hp'.
      destruct (before_first done pre rest post n m Hp' Hmd) as [_ Hin].
      eapply (P pre m post); [by rewrite Hp, Hp'|done|congruence|by apply Hin|done].
  - destruct (inv_owner _ _ I _ Hc) as (w & pc & Hw & Ho).
    specialize (Hall _ _ Hw). by destruct pc.
  - by specialize (Hall _ _ Hw).
Qed.

Lemma stuck_cases o s :
  1 <= n_jobs o -> reachable o s -> stuck o s ->
  (exists st, asm s = AExited st /\ workers_ended s) \/
  (exists k pc, asm s = AJoin k /\ lock s = true /\
     workers s !! k = Some pc /\ wants_lock pc = true /\
     forall w pc', workers s !! w = Some pc' ->
       terminated pc' = true \/ wants_lock pc' = true).
Proof.
  intros HW Hr Hs. pose proof (inv_reachable _ _ Hr) as I.
  pose proof (inv_lock _ _ I) as Hl.
  pose proof (Hs Main) as Hm. unfold step, main_thread in Hm.
  assert (forall w pc, workers s !! w = Some pc ->
            terminated pc = true \/ (lock s = true /\ wants_lock pc = true))
    as Hblocked.
  { intros w pc Hw. eapply blocked_worker; [done|apply Hs]. }
  destruct (asm s) as [[|n rest]|n rest|n rest|n rest|k|ex| |st] eqn:Ha;
    simpl in Hl; try done.
  - by destruct (save o).
  - by rewrite Hl in Hm.
  - destruct (current_page o s n rest I) as (_ & _ & _ & _ & [e He]); [by auto|].
    rewrite He in Hm. by destruct e.
  - destruct (waiting_has_worker o s n rest HW Hr Ha) as (w & pc & Hw & Ht).
    destruct (Hblocked _ _ Hw) as [?|[? _]]; congruence.
  - right. destruct (workers s !! k) as [pc|] eqn:Hk; [|done].
    destruct (terminated pc) eqn:Ht; [done|].
    exists k, pc. split; [done|]. split; [done|]. split; [done|]. split.
    + destruct (Hblocked _ _ Hk) as [?|[_ ?]]; [congruence|done].
    + intros w pc' Hw. destruct (Hblocked _ _ Hw) as [?|[_ ?]]; auto.
  - left. exists st. split; [done|]. intros w pc Hw.
    destruct (Hblocked _ _ Hw) as [?|[? _]]; [done|congruence].
Qed.

(** X16.  With at least one worker, a reachable state can take no step
    in exactly two situations: [main] has ended and every worker thread
    has ended; or the main thread is in [thread.join()], holding the lock,
    on a worker that waits for the lock, and every other worker has ended
    or waits for the lock too. *)
Theorem stuck_only_at_exit_or_join (o : options) (s : state) :
  1 <= n_jobs o -> reachable o s ->
  (stuck o s <->
   (exists st, asm s = AExited st /\ workers_ended s) \/
   (exists k pc, asm s = AJoin k /\ lock s = true /\
      workers s !! k = Some pc /\ wants_lock pc = true /\
      forall w pc', workers s !! w = Some pc' ->
        terminated pc' = true \/ wants_lock pc' = true)).
Proof.
  intros HW Hr. split; [by apply stuck_cases|].
  intros [(st & Ha & Hall)|(k & pc & Ha & Hlk & Hk & Hpc & Hall)];
    [by eapply stuck_exited|by eapply stuck_join].
Qed.

Lemma stuck_only_at_exit_or_join_witness :
  stuck o_two (after o_two schedule_two) <->
  (exists st, asm (after o_two schedule_two) = AExited st /\
              workers_ended (after o_two schedule_two)) \/
  (exists k pc, asm (after o_two schedule_two) = AJoin k /\
     lock (after o_two schedule_two) = true /\
     workers (after o_two schedule_two) !! k = Some pc /\
     wants_lock pc = true /\
     forall w pc', workers (after o_two schedule_two) !! w = Some pc' ->
       terminated pc' = true \/ wants_lock pc' = true).
Proof.
  apply (stuck_only_at_exit_or_join o_two (after o_two schedule_two)).
  - simpl. lia.
  - apply after_reachable.
Defined.

(** *** Some schedule always reaches the end *)







(** *** A run without workers *)

Lemma idle_first o p ps s :
  pages o = p :: ps -> idle o p ps s -> results s !! p = Some Unclaimed.
Proof.
  intros Hpg (_ & -> & _). simpl. apply init_lookup.
  split; [done|]. rewrite Hpg. by left.
Qed.

Lemma idle_step o p ps t s s' :
  pages o = p :: ps -> idle o p ps s -> step o t s = Some s' ->
  t = Main /\ idle o p ps s'.
Proof.
  intros Hpg J H. pose proof (idle_first _ _ _ _ Hpg J) as Hp.
  destruct J as (Hw & Hres & Ha). destruct t as [|w].
  2: { unfold step in H. by rewrite Hw in H. }
  split; [done|]. unfold step, main_thread in H.
  destruct Ha as [Ha|[Ha|[Ha|Ha]]]; rewrite Ha in H.
  - simplify_eq. unfold idle. simpl. auto 10.
  - destruct (lock s); simplify_eq. unfold idle. simpl. auto 10.
  - rewrite Hp in H. simplify_eq. unfold idle. simpl. auto 10.
  - done.
Qed.

Lemma idle_rtc o p ps s s' :
  pages o = p :: ps -> idle o p ps s -> rtc (step_rel o) s s' -> idle o p ps s'.
Proof.
  intros Hpg J Hr. induction Hr as [|s1 s2 s3 [t Ht] _ IH]; [done|].
  apply IH. by destruct (idle_step _ _ _ _ _ _ Hpg J Ht).
Qed.

Lemma idle_waits o p ps s :
  pages o = p :: ps -> inv o s -> idle o p ps s ->
  exists s', rtc (step_rel o) s s' /\ asm s' = AWait p ps.
Proof.
  intros Hpg I J. remember (measure s) as m eqn:Hm.
  revert s Hm I J. induction m as [m IH] using lt_wf_ind. intros s -> I J.
  pose proof (idle_first _ _ _ _ Hpg J) as Hp.
  pose proof (inv_lock _ _ I) as Hl.
  assert (asm s = AWait p ps \/ exists s1, step o Main s = Some s1) as [?|[s1 Hs1]].
  { unfold step, main_thread. destruct J as (_ & _ & [Ha|[Ha|[Ha|Ha]]]).
    - right. rewrite Ha. eauto.
    - right. rewrite Ha in Hl. rewrite Ha, Hl. eauto.
    - right. rewrite Ha, Hp. eauto.
    - by left. }
  - exists s. split; [constructor|done].
  - destruct (IH (measure s1) (step_measure _ _ _ _ Hs1) s1 eq_refl)
      as (s' & Hr' & Ha').
    + by eapply inv_step.
    + by destruct (idle_step _ _ _ _ _ _ Hpg J Hs1).
    + exists s'. split; [|done]. eapply rtc_l; [by exists Main|done].
Qed.

(** X18.  Without workers ([-j 0]) and with at least one requested page
    the run never ends: in no reachable state has [main] ended, there is
    no thread, every requested page is still [None], and every run can be
    continued to a state where the main thread is inside
    [condition.wait()] for the first page and nothing can move. *)
Theorem no_jobs_never_ends (o : options) (s : state) :
  n_jobs o = 0 -> pages o <> [] -> reachable o s ->
  (forall st, asm s <> AExited st) /\
  workers s = [] /\
  (forall n, n ∈ pages o -> results s !! n = Some Unclaimed) /\
  exists s' n rest,
    rtc (step_rel o) s s' /\ stuck o s' /\
    pages o = n :: rest /\ asm s' = AWait n rest /\ lock s' = false.
Proof.
  intros HW Hne Hr. pose proof (inv_reachable _ _ Hr) as I.
  destruct (pages o) as [|p ps] eqn:Hpg; [done|].
  assert (idle o p ps (init o)) as J0.
  { split; [simpl; by rewrite HW|]. split; [done|]. left. simpl. by rewrite Hpg. }
  pose proof (idle_rtc _ _ _ _ _ Hpg J0 Hr) as J.
  pose proof J as (Hw & Hres & Ha).
  split; [|split; [done|split]].
  - intros st Hst. destruct Ha as [Ha|[Ha|[Ha|Ha]]]; congruence.
  - intros n Hn. rewrite Hres. simpl. apply init_lookup. by rewrite Hpg.
  - destruct (idle_waits o p ps s Hpg I J) as (s' & Hr' & Ha').
    pose proof (idle_rtc _ _ _ _ _ Hpg J Hr') as (Hw' & _ & _).
    exists s', p, ps. split; [done|]. split; [|split; [done|split; [done|]]].
    + intros [|w]; unfold step, main_thread; [by rewrite Ha'|by rewrite Hw'].
    + rewrite (inv_lock _ _ (inv_rtc _ _ _ I Hr')), Ha'. done.
Qed.

Lemma no_jobs_never_ends_witness :
  (forall st, asm (after o_idle [Main; Main]) <> AExited st) /\
  workers (after o_idle [Main; Main]) = [] /\
  exists s' n rest,
    rtc (step_rel o_idle) (after o_idle [Main; Main]) s' /\ stuck o_idle s' /\
    pages o_idle = n :: rest /\ asm s' = AWait n rest /\ lock s' = false.
Proof.
  destruct (no_jobs_never_ends o_idle (after o_idle [Main; Main]))
    as (H1 & H2 & _ & H3).
  - reflexivity.
  - discriminate.
  - apply after_reachable.
  - split; [exact H1|]. split; [exact H2|exact H3].
Defined.

End SchedulerEndsFacts.

(** ** The command line *)

Module CommandLineFacts.
Import CommandLine.

Lemma set_output_twice (opts : list saver) (v : option saver) (sv : saver) :
  fold_left set_output (sv :: opts) (Holds v) = Holds None.
Proof.
  simpl. induction opts as [|sv' opts IH]; [done|]. exact IH.
Qed.

Lemma saver_options_cases (opts : list saver) :
  saver_options opts =
  match opts with
  | [] => Missing
  | [sv] => Holds (Some sv)
  | _ => Holds None
  end.
Proof.
  unfold saver_options. destruct opts as [|sv [|sv' opts]]; try done.
  exact (set_output_twice opts (Some sv) sv').
Qed.

Lemma saver_options_one (opts : list saver) (sv : saver) :
  saver_options opts = Holds (Some sv) <-> opts = [sv].
Proof.
  rewrite saver_options_cases. destruct opts as [|sv1 [|sv2 opts]]; split;
    try done; by intros [= ->].
Qed.

Lemma parse_args_saver (cpu_count : Z) (ns : namespace) (o : options) :
  parse_args cpu_count ns = Return o -> ns_saver ns = Holds (Some (opt_saver o)).
Proof.
  unfold parse_args.
  destruct (Utils.parse_page_numbers (ns_pages ns)) as [pg|[]]; simpl; try done.
  destruct (ns_saver ns) as [|[sv|]]; simpl; try done.
  destruct (has_language _ _) as [[]| |]; simpl; try done; by intros [= <-].
Qed.

Lemma parse_args_raises (cpu_count : Z) (ns : namespace) (e : exn) :
  parse_args cpu_count ns = Raise e ->
  e = SystemExit 2 \/
  (e = OverflowError /\ Utils.parse_page_numbers (ns_pages ns) = Raise OverflowError).
Proof.
  unfold parse_args, error.
  destruct (Utils.parse_page_numbers (ns_pages ns)) as [pg|e'] eqn:Hp; simpl.
  - destruct (ns_saver ns) as [|[sv|]]; simpl; try (intros [= <-]; by left).
    destruct (has_language _ _) as [[]| |]; simpl; try done;
      intros [= <-]; by left.
  - destruct (UtilsMore.parse_page_numbers_raises _ _ Hp) as [-> | ->]; simpl;
      intros [= <-]; auto.
Qed.

(** X19.  Exactly one output option.  The namespace has a saver exactly
    when one saver option was given; [parse_args] returns only then, with
    that saver; with none or several it does not return: it ends in
    [parser.error] (exit status 2), or in the [OverflowError] of the page
    list; and once two saver options are given the attribute is [None],
    whatever follows. *)
Theorem exactly_one_saver (cpu_count : Z) (ns : namespace) (opts : list saver) :
  ns_saver ns = saver_options opts ->
  (forall sv, saver_options opts = Holds (Some sv) <-> opts = [sv]) /\
  (forall o, parse_args cpu_count ns = Return o -> opts = [opt_saver o]) /\
  (length opts <> 1%nat ->
   exists e, parse_args cpu_count ns = Raise e /\
             (e = SystemExit 2 \/ e = OverflowError)) /\
  (forall sv sv' opts', opts = sv :: sv' :: opts' ->
     saver_options opts = Holds None).
Proof.
  intros Hs. split; [apply saver_options_one|]. split; [|split].
  - intros o Ho. apply parse_args_saver in Ho. rewrite Hs in Ho.
    by apply saver_options_one.
  - intros Hlen. destruct (parse_args cpu_count ns) as [o|e] eqn:Ho.
    + apply parse_args_saver in Ho. rewrite Hs in Ho.
      apply saver_options_one in Ho. by subst.
    + exists e. split; [done|].
      destruct (parse_args_raises _ _ _ Ho) as [->|[-> _]]; auto.
  - intros sv sv' opts' ->. by rewrite saver_options_cases.
Qed.

Lemma exactly_one_saver_witness :
  (forall sv, saver_options [DryRunSaver; InPlaceSaver] = Holds (Some sv)
              <-> [DryRunSaver; InPlaceSaver] = [sv]) /\
  saver_options [DryRunSaver; InPlaceSaver] = Holds None.
Proof.
  destruct (exactly_one_saver 4
              {| ns_pages := None;
                 ns_saver := saver_options [DryRunSaver; InPlaceSaver];
                 ns_engine := {| get_default_language := "eng";
                                 has_language := fun _ => HasLanguage true |};
                 ns_language := None; ns_word_segmentation := "space";
                 ns_n_jobs := Some 1 |}
              [DryRunSaver; InPlaceSaver] eq_refl) as (H1 & _ & _ & H2).
  split; [exact H1|]. by eapply H2.
Defined.


End CommandLineFacts.

(** ** The intermediate files *)

Module TempFilesFacts.
Import TempFiles.

Ltac run_io :=
  unfold process_page, get_output_image, with_sed_file, try_finally, bind_io,
    lift, ret, raise, close, _temp_file; simpl.

Ltac cases :=
  repeat match goal with
         | |- context [decode ?pg] => destruct (decode pg)
         | |- context [write_output_image ?a ?b ?c ?d ?e] =>
             destruct (write_output_image a b c d e)
         | |- context [recognize ?e ?x] => destruct (recognize e x)
         | |- context [extract_text ?e ?x] => destruct (extract_text e x)
         | |- context [recognize_exit ?e] => destruct (recognize_exit e)
         end; simpl.

(** Membership in the directories that arise, by unfolding. *)
Ltac in_dir :=
  rewrite ?elem_of_difference, ?elem_of_union, ?elem_of_singleton in *;
  try tauto.

Lemma created_then_removed (x : string) (d : dir) :
  ({[x]} ∪ d) ∖ {[x]} = d ∖ {[x]}.
Proof. apply set_eq. intros y. in_dir. Qed.

Lemma removed_absent (x : string) (d : dir) : x ∉ d -> d ∖ {[x]} = d.
Proof.
  intros Hx. apply set_eq. intros y. in_dir.
  split; [tauto|]. intros Hy. split; [done|]. by intros ->.
Qed.

(** X21.  Without [-D], [process_page] leaves no file of its own
    behind, whether it returns or raises: the directory afterwards is the
    directory before without the image file of the page, which is created
    and removed when closed; when the page cannot be decoded the directory
    is not touched.  No file is added, and no other file is removed. *)
Theorem process_page_removes_its_files (eng : engine)
    (fmt : ImageIO.pixel_format) (layers : ImageIO.render_mode) (pg : page)
    (d : dir) :
  let image := file_name (n pg) (image_format eng) in
  let d' := (process_page false eng fmt layers pg d).2 in
  d' = match decode pg with
       | Ok _ => d ∖ {[image]}
       | Exc _ => d
       end /\
  (image ∉ d -> d' = d) /\
  (forall f, f ∈ d' -> f ∈ d) /\
  (forall f, f ∈ d -> f <> image -> f ∈ d').
Proof.
  intros image d'.
  assert (d' = match decode pg with Ok _ => d ∖ {[image]} | Exc _ => d end) as Hd.
  { subst d' image. run_io. cases; try done; apply created_then_removed. }
  split; [done|]. rewrite Hd. clear Hd d'.
  destruct (decode pg); split; try done; try (by apply removed_absent);
    split; intros f; in_dir.
Qed.

(** X22.  With [-D], [process_page] returns or raises what it does
    without, and removes nothing: every file of the directory is still
    there, and the only files added are the image and the output of the
    engine for the page; the image is there as soon as the page was
    decoded, the output of the engine as soon as the image was written and
    the engine started.  The script file is not removed when it is
    closed, with or without [-D]. *)
Theorem debug_keeps_the_files (eng : engine) (fmt : ImageIO.pixel_format)
    (layers : ImageIO.render_mode) (pg : page) (d : dir) :
  let image := file_name (n pg) (image_format eng) in
  let result := file_name (n pg) (output_format eng) in
  let kept := (process_page true eng fmt layers pg d).2 in
  (process_page true eng fmt layers pg d).1
    = (process_page false eng fmt layers pg d).1 /\
  (forall f, f ∈ d -> f ∈ kept) /\
  (forall f, f ∈ kept -> f = image \/ f = result \/ f ∈ d) /\
  (forall job, decode pg = Ok job ->
     image ∈ kept /\
     (forall bytes handle,
        write_output_image (image_format eng) fmt layers pg job = Ok bytes ->
        recognize eng image = Ok handle -> result ∈ kept)) /\
  (forall debug (r : res unit),
     (with_sed_file debug (fun _ => lift r) d).2
     = {["ocrodjvu.djvused"%string]} ∪ d).
Proof.
  intros image result kept. subst kept image result.
  split; [|split; [|split; [|split]]].
  - run_io. cases; done.
  - intros f. run_io. cases; in_dir.
  - intros f. run_io. cases; in_dir.
  - intros job Hj. split.
    + run_io. rewrite Hj. simpl. cases; in_dir.
    + intros bytes handle Hw Hr. run_io. rewrite Hj. simpl. rewrite Hw. simpl.
      rewrite Hr. simpl. cases; in_dir.
  - intros debug r. run_io. rewrite andb_false_r. by destruct r.
Qed.

End TempFilesFacts.

(** ** [PNM.write_image] *)

Module PNMFacts.
Import Byte ImageIO Utils UtilsMore.
Local Open Scope Z_scope.

(** *** ['%d' % z] read back by [int] *)









End PNMFacts.
